(** * LLM Tagger: a shallow embedding of the tagging / untagging pipeline

    The development follows the plugin source (the [LLMTaggerPlugin] class):
    - JavaScript strings are lists of code units; the model covers the
      texts whose code units are below 256 (the characters of Latin-1), a
      range that [toLowerCase] does not leave.  On this range the character
      classes, the case mapping and the comparison under the [i] flag are
      those of the language;
    - the regular expressions of the source are values of a small pattern
      type, run by a backtracking matcher with the priorities of the
      JavaScript engine (greedy and lazy stars, word boundaries, end anchor);
    - exceptions are an explicit [result] type;
    - the deterministic pass and synthesis also come with the pattern
      engine as a parameter ([addDeterministicTags_by],
      [processContentWithOllama_by]): what is proved of these holds for
      every pattern source, also for those outside the fragment that
      [compile] reads;
    - the vault, the settings and the tagging record are explicit state, and
      what other actors do to the vault while a call to the service is in
      flight is an input of each tagging operation.

    Of the dialog, the view and the settings tab the model has the reading
    of the text fields and the storing of the tags; of the registration of
    the handlers it has the switch of auto-tagging and the count of the
    handlers.  The progress bar, the registration of the commands, the
    timers and the loading of the settings are not part of the model. *)

From Stdlib Require Import ZArith List Ascii String Bool Lia.
From stdpp Require Import gmap strings list.
Import ListNotations.

Local Open Scope list_scope.
Local Open Scope Z_scope.

(** ** Strings *)

Abbreviation str := (list ascii).

(** A string literal of the source, as a list of characters. *)
Definition lit (s : string) : str := list_ascii_of_string s.
Arguments lit : simpl never.

Definition LF : ascii := "010"%char.
Definition CR : ascii := "013"%char.

Definition code (c : ascii) : nat := nat_of_ascii c.

Definition in_range (lo hi : nat) (c : ascii) : bool :=
  (Nat.leb lo (code c) && Nat.leb (code c) hi)%bool.

Definition ascii_eqb (a b : ascii) : bool := Ascii.eqb a b.

Fixpoint str_eqb (a b : str) : bool :=
  match a, b with
  | [], [] => true
  | x :: a', y :: b' => ascii_eqb x y && str_eqb a' b'
  | _, _ => false
  end.

(** [\w] : letters, digits and the underscore. *)
Definition is_word (c : ascii) : bool :=
  in_range 97 122 c || in_range 65 90 c || in_range 48 57 c
  || ascii_eqb c "_"%char.

(** [\s] and the characters removed by [trim()]: TAB, LF, VT, FF, CR, SP and
    the no-break space (code 160). *)
Definition is_space (c : ascii) : bool :=
  in_range 9 13 c || ascii_eqb c " "%char || in_range 160 160 c.

(** Line terminators, which [.] does not match. *)
Definition is_line_terminator (c : ascii) : bool :=
  ascii_eqb c LF || ascii_eqb c CR.

Definition any_char (c : ascii) : bool := true.
Definition not_line_terminator (c : ascii) : bool := negb (is_line_terminator c).

(** The lowercase form of a code unit: the letters A to Z, and the capital
    letters of Latin-1 (codes 192 to 222, the multiplication sign 215
    apart), are 32 below their lowercase forms. *)
Definition lower_char (c : ascii) : ascii :=
  if in_range 65 90 c || (in_range 192 222 c && negb (in_range 215 215 c))
  then ascii_of_nat (code c + 32) else c.

(** The form under which the [i] flag compares two code units: the
    uppercase form when it is one code unit.  The uppercase forms of the
    micro sign (181) and of the y with diaeresis (255) lie above 255 and
    are the form of no other code unit of the range, and the sharp s (223)
    has none of one code unit: the three stand for themselves. *)
Definition upper_char (c : ascii) : ascii :=
  if in_range 97 122 c || (in_range 224 254 c && negb (in_range 247 247 c))
  then ascii_of_nat (code c - 32) else c.

Arguments ascii_eqb : simpl never.
Arguments is_word : simpl never.
Arguments is_space : simpl never.
Arguments is_line_terminator : simpl never.
Arguments not_line_terminator : simpl never.
Arguments lower_char : simpl never.
Arguments upper_char : simpl never.

(** [String.prototype.toLowerCase] *)
Definition toLowerCase (s : str) : str := map lower_char s.

(** [String.prototype.startsWith] *)
Fixpoint startsWith (p s : str) : bool :=
  match p, s with
  | [], _ => true
  | x :: p', y :: s' => ascii_eqb x y && startsWith p' s'
  | _ :: _, [] => false
  end.

(** [String.prototype.includes] *)
Fixpoint includes (p s : str) : bool :=
  startsWith p s ||
  match s with
  | [] => false
  | _ :: s' => includes p s'
  end.

Fixpoint trimStart (s : str) : str :=
  match s with
  | c :: s' => if is_space c then trimStart s' else s
  | [] => []
  end.

Definition trimEnd (s : str) : str := rev (trimStart (rev s)).

(** [String.prototype.trim] *)
Definition trim (s : str) : str := trimEnd (trimStart s).

(** The text after its longest prefix of characters of a class. *)
Fixpoint drop_while (f : ascii -> bool) (s : str) : str :=
  match s with
  | c :: s' => if f c then drop_while f s' else s
  | [] => []
  end.

(** [Array.prototype.join] *)
Fixpoint join (sep : str) (l : list str) : str :=
  match l with
  | [] => []
  | [x] => x
  | x :: l' => x ++ sep ++ join sep l'
  end.

(** ** Regular expressions

    The patterns of the source are sequences of atoms (the one alternation,
    in [shouldProcessFile], is run alternative by alternative).  [match_at]
    is the matcher at one position: it
    returns the text left after the match, following the priorities of a
    backtracking engine (a greedy star tries the longest repetition first,
    a lazy star the shortest).  [prev] is the character before the current
    position, which the word boundary needs. *)

Inductive atom :=
  | One (cls : ascii -> bool)         (* one character of the class *)
  | StarGreedy (cls : ascii -> bool)  (* cls*  *)
  | StarLazy (cls : ascii -> bool)    (* cls*? *)
  | WordB                             (* \b *)
  | Eol.                              (* $ (no multiline flag) *)

Abbreviation pattern := (list atom).

Definition is_word_at (c : option ascii) : bool :=
  match c with Some a => is_word a | None => false end.

Fixpoint match_at (p : pattern) (prev : option ascii) (s : str) {struct p}
  : option str :=
  match p with
  | [] => Some s
  | One cls :: p' =>
      match s with
      | a :: s' => if cls a then match_at p' (Some a) s' else None
      | [] => None
      end
  | StarGreedy cls :: p' =>
      (fix greedy (prev : option ascii) (s : str) {struct s} : option str :=
         match s with
         | a :: s' =>
             if cls a then
               match greedy (Some a) s' with
               | Some r => Some r
               | None => match_at p' prev s
               end
             else match_at p' prev s
         | [] => match_at p' prev s
         end) prev s
  | StarLazy cls :: p' =>
      (fix lazy (prev : option ascii) (s : str) {struct s} : option str :=
         match match_at p' prev s with
         | Some r => Some r
         | None =>
             match s with
             | a :: s' => if cls a then lazy (Some a) s' else None
             | [] => None
             end
         end) prev s
  | WordB :: p' =>
      if xorb (is_word_at prev) (is_word_at (head s))
      then match_at p' prev s else None
  | Eol :: p' =>
      match s with
      | [] => match_at p' prev s
      | _ :: _ => None
      end
  end.

(** Leftmost match of an unanchored pattern: the text before the match and
    the text after it. *)
Fixpoint search (p : pattern) (prev : option ascii) (s : str)
  : option (str * str) :=
  match match_at p prev s with
  | Some r => Some ([], r)
  | None =>
      match s with
      | a :: s' =>
          match search p (Some a) s' with
          | Some (b, r) => Some (a :: b, r)
          | None => None
          end
      | [] => None
      end
  end.

(** [RegExp.prototype.test] for an unanchored pattern. *)
Definition test (p : pattern) (s : str) : bool :=
  match search p None s with Some _ => true | None => false end.

(** [RegExp.prototype.test] for a pattern that starts with [^]. *)
Definition test_anchored (p : pattern) (s : str) : bool :=
  match match_at p None s with Some _ => true | None => false end.

(** [s.replace(re, '')] without the [g] flag: the first match is removed. *)
Definition remove_first (p : pattern) (s : str) : str :=
  match search p None s with
  | Some (b, r) => b ++ r
  | None => s
  end.

(** A literal character, and a literal character under the [i] flag. *)
Definition chr (x : ascii) : atom := One (ascii_eqb x).
Definition chr_i (x : ascii) : atom :=
  One (fun a => ascii_eqb (upper_char a) (upper_char x)).

Definition lits (s : str) : pattern := map chr s.
Definition lits_i (s : str) : pattern := map chr_i s.

(** The syntax characters of a pattern source.  A string that holds none of
    them is a pattern that matches itself. *)
Definition is_syntax_char (c : ascii) : bool :=
  existsb (ascii_eqb c) (lit "\^$.*+?()[]{}|").

(** ** Errors *)

Inductive error :=
  | NoModelSelected      (* Error('No Ollama model selected') *)
  | FetchFailed          (* fetch() rejected *)
  | JsonSyntaxError      (* response.json() rejected *)
  | TypeError            (* a property read or a call on a non-object *)
  | ReadFailed           (* vault.read() rejected *)
  | PatternNotLiteral.   (* a pattern source with a syntax character in it:
                            RegExp reads it as an operator or throws
                            SyntaxError; outside the modelled fragment *)

Inductive result (A : Type) :=
  | Ok (a : A)
  | Err (e : error).
Arguments Ok {A} a.
Arguments Err {A} e.

Definition bind {A B} (r : result A) (k : A -> result B) : result B :=
  match r with
  | Ok a => k a
  | Err e => Err e
  end.

Notation "'try!' x := r 'in' k" := (bind r (fun x => k))
  (at level 10, x name, r at level 100, k at level 200).

(** [new RegExp(src, flags)] on the fragment of the pattern syntax that the
    sources built by the plugin use: [\b], an escaped dot, [.], [.*] and
    literal characters.  [ci] is the [i] flag.  Any other use of a syntax
    character is outside the fragment. *)
Fixpoint compile (ci : bool) (src : str) : result pattern :=
  let literal (x : ascii) := if ci then chr_i x else chr x in
  match src with
  | [] => Ok []
  | c :: rest =>
      match rest with
      | d :: rest' =>
          if ascii_eqb c "\"%char && ascii_eqb d "b"%char then
            try! p := compile ci rest' in Ok (WordB :: p)
          else if ascii_eqb c "\"%char && ascii_eqb d "."%char then
            try! p := compile ci rest' in Ok (literal "."%char :: p)
          else if ascii_eqb c "."%char && ascii_eqb d "*"%char then
            try! p := compile ci rest' in Ok (StarGreedy not_line_terminator :: p)
          else if ascii_eqb c "."%char then
            try! p := compile ci rest in Ok (One not_line_terminator :: p)
          else if is_syntax_char c then Err PatternNotLiteral
          else try! p := compile ci rest in Ok (literal c :: p)
      | [] =>
          if ascii_eqb c "."%char then Ok [One not_line_terminator]
          else if is_syntax_char c then Err PatternNotLiteral
          else Ok [literal c]
      end
  end.

(** ** Deterministic tags ([addDeterministicTags]) *)

(** [tag.replace(/^#/, '')] *)
Definition strip_hash (tag : str) : str :=
  match tag with
  | c :: t => if ascii_eqb c "#"%char then t else tag
  | [] => []
  end.

(** [tag.startsWith('#') ? tag : `#${tag}`] *)
Definition hash_tag (tag : str) : str :=
  if startsWith (lit "#") tag then tag else lit "#" ++ tag.

(** [Set.prototype.add] on a set kept in insertion order. *)
Definition set_add (x : str) (l : list str) : list str :=
  if existsb (str_eqb x) l then l else l ++ [x].

(** The pattern [new RegExp(`\\b${cleanTag}\\b`, 'i')]. *)
Definition tag_regex (cleanTag : str) : result pattern :=
  compile true (lit "\b" ++ cleanTag ++ lit "\b").

(** One turn of the loop over [availableTags]: does the tag occur in the
    lowercased content? *)
Definition tag_matches (lowerContent tag : str) : result bool :=
  let cleanTag := toLowerCase (strip_hash tag) in
  try! regex := tag_regex cleanTag in
  Ok (test regex lowerContent).

Fixpoint collect_tags (lowerContent : str) (availableTags : list str)
    (addedTags : list str) : result (list str) :=
  match availableTags with
  | [] => Ok addedTags
  | tag :: tags =>
      try! m := tag_matches lowerContent tag in
      collect_tags lowerContent tags
        (if m then set_add (hash_tag tag) addedTags else addedTags)
  end.

(** [/^---\n[\s\S]*?\n---\n/] *)
Definition frontMatterPattern : pattern :=
  lits (lit "---" ++ [LF]) ++ [StarLazy any_char]
  ++ lits ([LF] ++ lit "---" ++ [LF]).

Arguments frontMatterPattern : simpl never.

(** [content.match(/^---\n[\s\S]*?\n---\n/)]: the matched text
    ([frontMatterMatch[0]]) when there is a match. *)
Definition frontMatterMatch (content : str) : option str :=
  match match_at frontMatterPattern None content with
  | Some rest => Some (firstn (length content - length rest) content)
  | None => None
  end.

Definition addDeterministicTags (content : str) (availableTags : list str)
  : result str :=
  let lowerContent := toLowerCase content in
  try! addedTags := collect_tags lowerContent availableTags [] in
  match addedTags with
  | [] => Ok content
  | _ :: _ =>
      match frontMatterMatch content with
      | Some frontMatter =>
          let restContent := skipn (length frontMatter) content in
          Ok (frontMatter ++ join (lit " ") addedTags ++ lit " " ++ restContent)
      | None => Ok (join (lit " ") addedTags ++ lit " " ++ content)
      end
  end.

(** ** Synthesis ([processContentWithOllama]) *)

(** The body of the reply of the language-model service, after
    [response.json()]. *)
#[local] Set Warnings "-register-all".
Inductive json :=
  | JNull
  | JBool (b : bool)
  | JNumber (n : Z)
  | JString (s : str)
  | JArray (items : list json)
  | JObject (fields : list (str * json)).

(** What [fetch] and [response.json()] give back. *)
Inductive reply :=
  | FetchRejected          (* the request could not complete *)
  | BodyNotJson            (* the body does not parse *)
  | Body (data : json).

(** Property read on a parsed object; with a repeated key the last one wins. *)
Fixpoint field (key : str) (fields : list (str * json)) : option json :=
  match fields with
  | [] => None
  | (k, v) :: fields' =>
      match field key fields' with
      | Some v' => Some v'
      | None => if str_eqb k key then Some v else None
      end
  end.

(** [data.response.trim()]: reading a property of [null] throws, and so
    does calling [trim] on anything that is not a string. *)
Definition response_trim (data : json) : result str :=
  match data with
  | JObject fields =>
      match field (lit "response") fields with
      | Some (JString s) => Ok (trim s)
      | _ => Err TypeError
      end
  | _ => Err TypeError
  end.

(** The fixed marker of a tagged block: ["---\nLLM-tagged:"]. *)
Definition marker : str := lit "---" ++ [LF] ++ lit "LLM-tagged:".

Arguments marker : simpl never.

Definition isAlreadyTagged (content : str) : bool := includes marker content.

(** A string is truthy when it is not empty. *)
Definition truthy (s : str) : bool :=
  match s with [] => false | _ :: _ => true end.

Definition assemble (timestamp taggedSummary processedContent : str) : str :=
  lit "---" ++ [LF] ++ lit "LLM-tagged: " ++ timestamp ++ [LF]
  ++ lit "---" ++ [LF; LF]
  ++ taggedSummary ++ [LF; LF]
  ++ lit "---" ++ [LF; LF]
  ++ processedContent.

(** [selectedModel] is the setting; [r] is what the service answers to the
    one request of this call, [timestamp] is [new Date().toISOString()]. *)
Definition processContentWithOllama (selectedModel : option str) (r : reply)
    (timestamp : str) (content : str) (availableTags : list str) : result str :=
  match selectedModel with
  | None | Some [] => Err NoModelSelected
  | Some (_ :: _) =>
      if isAlreadyTagged content then Ok content
      else
        try! processedContent := addDeterministicTags content availableTags in
        match r with
        | FetchRejected => Err FetchFailed
        | BodyNotJson => Err JsonSyntaxError
        | Body data =>
            try! taggedSummary := response_trim data in
            if truthy taggedSummary
            then Ok (assemble timestamp taggedSummary processedContent)
            else Ok processedContent
        end
  end.

(** ** Eligibility ([shouldProcessFile]) *)

Record TFile := {
  path : str;
  basename : str;
  extension : str;
  mtime : Z;                        (* file.stat.mtime *)
}.

Record Settings := {
  selectedModel : option str;
  defaultTags : list str;
  autoAddTags : bool;
  taggedFiles : gmap str Z;         (* path -> time of the last tagging *)
  excludePatterns : list str;
}.

(** [s.replace(/c/g, by)] *)
Definition replace_all (c : ascii) (by_ : str) (s : str) : str :=
  flat_map (fun x => if ascii_eqb x c then by_ else [x]) s.

(** [pattern.toLowerCase().replace(/\./g, '\\.').replace(/\*/g, '.*')] *)
Definition regexPattern (pattern : str) : str :=
  replace_all "*"%char (lit ".*")
    (replace_all "."%char (lit "\.") (toLowerCase pattern)).

(** [new RegExp(`^${p}$|/${p}$|/${p}/`).test(filePath)].  The three
    alternatives are run one by one: [test] only asks whether some
    alternative matches somewhere. *)
Definition glob_test (pattern filePath : str) : result bool :=
  try! p := compile false (regexPattern pattern) in
  Ok (test_anchored (p ++ [Eol]) filePath
      || test (chr "/"%char :: p ++ [Eol]) filePath
      || test (chr "/"%char :: p ++ [chr "/"%char]) filePath).

(** The body of the loop over [excludePatterns]: does this pattern exclude
    the file? *)
Definition pattern_excludes (pattern : str) (file : TFile) : result bool :=
  let filePath := toLowerCase (path file) in
  if includes (lit "*") pattern then glob_test pattern filePath
  else
    let normalizedPattern := toLowerCase pattern in
    if str_eqb (toLowerCase (basename file)) normalizedPattern then Ok true
    else Ok (includes (lit "/" ++ normalizedPattern ++ lit "/") filePath).

(** The loop over [excludePatterns]; the first pattern that matches ends it. *)
Fixpoint excluded (patterns : list str) (file : TFile) : result bool :=
  match patterns with
  | [] => Ok false
  | pattern :: rest =>
      try! m := pattern_excludes pattern file in
      if m then Ok true else excluded rest file
  end.

(** [!lastTagged]: no entry, or an entry that is zero. *)
Definition falsy_time (t : option Z) : bool :=
  match t with
  | None => true
  | Some v => v =? 0
  end.

Definition shouldProcessFile (st : Settings) (file : TFile) : result bool :=
  try! ex := excluded (excludePatterns st) file in
  if ex then Ok false
  else
    let lastTagged := taggedFiles st !! path file in
    if falsy_time lastTagged then Ok true
    else Ok (mtime file >? default 0 lastTagged).

(** ** Untagging (the body shared by [untagCurrentDocument] and
    [untagAllDocuments]) *)

(** [/---\nLLM-tagged:[\s\S]*?---\n\n[\s\S]*?\n\n---\n+/] *)
Definition taggedSectionPattern : pattern :=
  lits marker ++ [StarLazy any_char]
  ++ lits (lit "---" ++ [LF; LF]) ++ [StarLazy any_char]
  ++ lits ([LF; LF] ++ lit "---") ++ [chr LF; StarGreedy (ascii_eqb LF)].

(** [tagPattern] is a start anchor and a group repeated once or more.  One
    turn of the group: a hash sign, one or more [\w], any number of [\s]. *)
Definition tagToken : pattern :=
  [chr "#"%char; One is_word; StarGreedy is_word; StarGreedy is_space].

Arguments tagToken : simpl never.
Arguments taggedSectionPattern : simpl never.

(** The group is repeated as long as it matches.  Nothing follows the
    group, so the engine never gives back what a turn took.
    Every turn takes at least two characters: [fuel] is the length of the
    text. *)
Fixpoint tag_run (fuel : nat) (s : str) : option str :=
  match match_at tagToken None s with
  | None => None
  | Some r =>
      match fuel with
      | O => Some r
      | S fuel' =>
          match tag_run fuel' r with
          | Some r' => Some r'
          | None => Some r
          end
      end
  end.

(** The text left after the match of [tagPattern], when it matches. *)
Definition tagPattern (s : str) : option str := tag_run (length s) s.

(** [(cleanedContent, wasModified)] at the end of the two removal passes. *)
Definition untag (content : str) : str * bool :=
  let '(cleanedContent, wasModified) :=
    if isAlreadyTagged content then
      let cleaned := remove_first taggedSectionPattern content in
      (cleaned, negb (str_eqb cleaned content))
    else (content, false) in
  match tagPattern cleanedContent with
  | Some r => (trim r, true)
  | None => (cleanedContent, wasModified)
  end.

(** ** The plugin state and the tagging operations

    The vault maps a path to the content of the document.  An operation that
    waits for the service leaves room for other actors: [edits] is what they
    do to the vault between the first read of the document and the second
    one, after the call has resolved. *)

Inductive event :=
  | Modify (p : str) (content : str)   (* vault.modify(file, content) *)
  | SaveSettings                       (* saveSettings() *)
  | Notice (e : option error).         (* new Notice(...): done, or failed *)

Record World := {
  vault : gmap str str;
  settings : Settings;
  openInEditor : list str;             (* paths shown in a markdown view *)
  log : list event;
}.

Definition set_vault (v : gmap str str) (w : World) : World :=
  {| vault := v; settings := settings w;
     openInEditor := openInEditor w; log := log w |}.

Definition set_taggedFiles (t : gmap str Z) (w : World) : World :=
  {| vault := vault w;
     settings := {| selectedModel := selectedModel (settings w);
                    defaultTags := defaultTags (settings w);
                    autoAddTags := autoAddTags (settings w);
                    taggedFiles := t;
                    excludePatterns := excludePatterns (settings w) |};
     openInEditor := openInEditor w; log := log w |}.

Definition emit (evs : list event) (w : World) : World :=
  {| vault := vault w; settings := settings w;
     openInEditor := openInEditor w; log := log w ++ evs |}.

(** What the service and the clock give to one tagging call, and what
    happens to the vault meanwhile. *)
Record Call := {
  answer : reply;
  timestamp : str;                     (* new Date().toISOString() *)
  now : Z;                             (* Date.now() *)
  edits : gmap str str -> gmap str str;
}.

(** A string or [null] setting is falsy when absent or empty. *)
Definition model_selected (st : Settings) : bool :=
  match selectedModel st with
  | Some (_ :: _) => true
  | _ => false
  end.

(** [vault.modify], the record entry, [saveSettings] and, where the caller
    has one, the notice. *)
Definition write_tagged (file : TFile) (taggedContent : str) (now : Z)
    (notice : bool) (w : World) : World :=
  let w1 := set_vault (<[path file := taggedContent]> (vault w)) w in
  let w2 := set_taggedFiles (<[path file := now]> (taggedFiles (settings w1))) w1 in
  emit ([Modify (path file) taggedContent; SaveSettings]
        ++ if notice then [Notice None] else []) w2.

(** From the first read to the write: the part that [autoTagFile],
    [autoTagFileOnClose], [addTagsToDocuments] and [tagCurrentDocument]
    have in common.  [skipTagged] is the early test of [isAlreadyTagged],
    [skipEmpty] the early test of an empty document. *)
Definition tag_document (skipTagged skipEmpty notice : bool)
    (tags : list str) (file : TFile) (c : Call) (w : World) : World :=
  match vault w !! path file with
  | None => emit [Notice (Some ReadFailed)] w
  | Some initialContent =>
      if skipTagged && isAlreadyTagged initialContent then w
      else if skipEmpty && negb (truthy (trim initialContent)) then w
      else
        let w' := set_vault (edits c (vault w)) w in
        match processContentWithOllama (selectedModel (settings w)) (answer c)
                (timestamp c) initialContent tags with
        | Err e => emit [Notice (Some e)] w'
        | Ok taggedContent =>
            match vault w' !! path file with
            | None => emit [Notice (Some ReadFailed)] w'
            | Some currentContent =>
                if negb (str_eqb currentContent initialContent) then w'
                else if negb (str_eqb taggedContent initialContent)
                then write_tagged file taggedContent (now c) notice w'
                else w'
            end
        end
  end.

Definition isFileCurrentlyOpen (file : TFile) (w : World) : bool :=
  existsb (str_eqb (path file)) (openInEditor w).

Definition nonempty {A} (l : list A) : bool :=
  match l with [] => false | _ :: _ => true end.

(** The first guard of [autoTagFile] and [autoTagFileOnClose]. *)
Definition auto_tagging_ready (st : Settings) : bool :=
  autoAddTags st && model_selected st && nonempty (defaultTags st).

(** An exception of [shouldProcessFile] is raised outside the [try] block of
    the callers: the operation ends there and the state is left as it is. *)
Definition autoTagFile (file : TFile) (c : Call) (w : World) : World :=
  if negb (auto_tagging_ready (settings w)) then w
  else
    match shouldProcessFile (settings w) file with
    | Err _ | Ok false => w
    | Ok true =>
        if isFileCurrentlyOpen file w then w
        else tag_document false true false (defaultTags (settings w)) file c w
    end.

Definition autoTagFileOnClose (file : TFile) (c : Call) (w : World) : World :=
  if negb (auto_tagging_ready (settings w)) then w
  else
    match shouldProcessFile (settings w) file with
    | Err _ | Ok false => w
    | Ok true =>
        tag_document false true false (defaultTags (settings w)) file c w
    end.

(** [getUserDefinedTags] resolved by the OK button: the chosen model and the
    tags are stored in the settings. *)
Definition store_choice (model : str) (tags : list str) (w : World) : World :=
  emit [SaveSettings]
    {| vault := vault w;
       settings := {| selectedModel := Some model;
                      defaultTags := tags;
                      autoAddTags := autoAddTags (settings w);
                      taggedFiles := taggedFiles (settings w);
                      excludePatterns := excludePatterns (settings w) |};
       openInEditor := openInEditor w; log := log w |}.

(** The loop of [addTagsToDocuments] over the markdown files; each file
    comes with what its own call to the service will meet. *)
Fixpoint addTags_loop (tags : list str) (files : list (TFile * Call))
    (w : World) : World :=
  match files with
  | [] => emit [Notice None] w
  | (file, c) :: rest =>
      match shouldProcessFile (settings w) file with
      | Err _ => w
      | Ok false => addTags_loop tags rest w
      | Ok true =>
          addTags_loop tags rest (tag_document true false true tags file c w)
      end
  end.

(** [dialog] is the answer of the tag dialog: [None] when cancelled. *)
Definition addTagsToDocuments (dialog : option (str * list str))
    (files : list (TFile * Call)) (w : World) : World :=
  if negb (model_selected (settings w)) then emit [Notice None] w
  else
    match dialog with
    | None => w
    | Some (model, tags) => addTags_loop tags files (store_choice model tags w)
    end.

Definition tagCurrentDocument (activeFile : option TFile)
    (dialog : option (str * list str)) (c : Call) (w : World) : World :=
  match activeFile with
  | None => emit [Notice None] w
  | Some file =>
      if negb (str_eqb (extension file) (lit "md")) then emit [Notice None] w
      else
        match dialog with
        | None => w
        | Some (model, tags) =>
            tag_document true false true tags file c (store_choice model tags w)
        end
  end.

(** ** The untagging operations *)

(** Read, untag, and write when [wasModified]; the record entry goes with
    the write. *)
Definition untag_document (file : TFile) (after : list event) (w : World)
  : World :=
  match vault w !! path file with
  | None => emit [Notice (Some ReadFailed)] w
  | Some content =>
      let '(cleanedContent, wasModified) := untag content in
      if wasModified then
        let w1 := set_vault (<[path file := cleanedContent]> (vault w)) w in
        let w2 := set_taggedFiles (delete (path file) (taggedFiles (settings w1))) w1 in
        emit (Modify (path file) cleanedContent :: after) w2
      else w
  end.

Definition untagCurrentDocument (activeFile : option TFile) (w : World)
  : World :=
  match activeFile with
  | None => emit [Notice None] w
  | Some file =>
      if negb (str_eqb (extension file) (lit "md")) then emit [Notice None] w
      else untag_document file [SaveSettings; Notice None] w
  end.

Fixpoint untag_loop (files : list TFile) (w : World) : World :=
  match files with
  | [] => emit [SaveSettings; Notice None] w
  | file :: rest => untag_loop rest (untag_document file [] w)
  end.

Definition untagAllDocuments (confirmed : bool) (files : list TFile)
    (w : World) : World :=
  if confirmed then untag_loop files w else w.

(** ** Lists typed by the user

    The tag dialog, the view and the settings tab read a list from a text
    field in the same way: the text is split at a separator, the pieces are
    trimmed and the empty ones are dropped. *)

(** [String.prototype.split] with a separator of one character. *)
Fixpoint split (sep : ascii) (s : str) : list str :=
  match s with
  | [] => [[]]
  | c :: s' =>
      if ascii_eqb c sep then [] :: split sep s'
      else
        match split sep s' with
        | piece :: pieces => (c :: piece) :: pieces
        | [] => [[c]]               (* the pieces are never none *)
        end
  end.

(** [value.split(sep).map(x => x.trim()).filter(x => x)] *)
Definition parse_list (sep : ascii) (value : str) : list str :=
  List.filter truthy (map trim (split sep value)).

(** The tags of a text field, and the exclusion patterns of the settings
    tab. *)
Definition parse_tags (value : str) : list str := parse_list ","%char value.
Definition parse_patterns (value : str) : list str := parse_list LF value.

Definition set_defaultTags (tags : list str) (w : World) : World :=
  {| vault := vault w;
     settings := {| selectedModel := selectedModel (settings w);
                    defaultTags := tags;
                    autoAddTags := autoAddTags (settings w);
                    taggedFiles := taggedFiles (settings w);
                    excludePatterns := excludePatterns (settings w) |};
     openInEditor := openInEditor w; log := log w |}.

(** How a click on one of the two tagging buttons of the view ends: with
    the notice that asks for a model, with the notice that asks for a tag,
    or with the call of the tagging operation. *)
Inductive click :=
  | AsksForModel         (* new Notice('Please select a model first') *)
  | AsksForTags          (* new Notice('Please enter at least one tag') *)
  | StartsTagging.       (* addTagsToDocuments, tagCurrentDocument *)

(** The click handler of the two tagging buttons, up to the call of the
    tagging operation.  [modelValue] is the value of the model selector and
    [fieldValue] the text of the tags field.  After the two early returns
    the tags of the field are stored when the trimmed text differs from the
    stored tags joined by a comma and a space. *)
Definition tag_button_click (modelValue fieldValue : str) (w : World)
  : World * click :=
  if negb (truthy modelValue) then (emit [Notice None] w, AsksForModel)
  else
    let tagInput := trim fieldValue in
    if negb (truthy tagInput) then (emit [Notice None] w, AsksForTags)
    else
      let tags := parse_tags tagInput in
      (if negb (str_eqb tagInput (join (lit ", ") (defaultTags (settings w))))
       then emit [SaveSettings] (set_defaultTags tags w)
       else w,
       StartsTagging).

(** ** The switch of automatic tagging

    [listeners] counts the pairs of handlers (one for [create], one for
    [modify]) that [enableAutoTagging] has given to the vault.  Nothing in
    the plugin takes a handler back. *)

Record Switch := {
  autoTaggingEnabled : bool;
  listeners : nat;
}.

Definition enableAutoTagging (s : Switch) : Switch :=
  if autoTaggingEnabled s then s
  else {| autoTaggingEnabled := true; listeners := S (listeners s) |}.

Definition disableAutoTagging (s : Switch) : Switch :=
  {| autoTaggingEnabled := false; listeners := listeners s |}.

(** The end of [saveSettings]: the switch follows the setting
    [autoAddTags]. *)
Definition saveSettings (autoAddTags : bool) (s : Switch) : Switch :=
  if autoAddTags then enableAutoTagging s else disableAutoTagging s.

(** The handlers that pass their guard on a [create] or [modify] event of
    the file. *)
Definition handlers_run (s : Switch) (file : TFile) : nat :=
  if autoTaggingEnabled s && str_eqb (extension file) (lit "md")
  then listeners s else 0%nat.

(** ** The pattern engine as a parameter

    [new RegExp(source, flags).test(input)] is a call to the host, which
    [compile] and [test] model on a fragment of the pattern syntax.  Here
    the deterministic pass and synthesis take the engine as a parameter:
    [e ci source input] is the answer of the test, [ci] is the [i] flag, and
    an error is the exception of a source that the host refuses.  What is
    proved of them for every [e] does not depend on what an engine answers,
    nor on the sources it refuses.  [addDeterministicTags] and
    [processContentWithOllama] are the instances at the modelled engine. *)

Definition engine := bool -> str -> str -> result bool.

Definition modelled_engine : engine :=
  fun ci source input => try! p := compile ci source in Ok (test p input).

Definition tag_matches_by (e : engine) (lowerContent tag : str) : result bool :=
  let cleanTag := toLowerCase (strip_hash tag) in
  e true (lit "\b" ++ cleanTag ++ lit "\b") lowerContent.

Fixpoint collect_tags_by (e : engine) (lowerContent : str)
    (availableTags : list str) (addedTags : list str) : result (list str) :=
  match availableTags with
  | [] => Ok addedTags
  | tag :: tags =>
      try! m := tag_matches_by e lowerContent tag in
      collect_tags_by e lowerContent tags
        (if m then set_add (hash_tag tag) addedTags else addedTags)
  end.

Definition addDeterministicTags_by (e : engine) (content : str)
    (availableTags : list str) : result str :=
  let lowerContent := toLowerCase content in
  try! addedTags := collect_tags_by e lowerContent availableTags [] in
  match addedTags with
  | [] => Ok content
  | _ :: _ =>
      match frontMatterMatch content with
      | Some frontMatter =>
          let restContent := skipn (length frontMatter) content in
          Ok (frontMatter ++ join (lit " ") addedTags ++ lit " " ++ restContent)
      | None => Ok (join (lit " ") addedTags ++ lit " " ++ content)
      end
  end.

Definition processContentWithOllama_by (e : engine)
    (selectedModel : option str) (r : reply) (timestamp : str) (content : str)
    (availableTags : list str) : result str :=
  match selectedModel with
  | None | Some [] => Err NoModelSelected
  | Some (_ :: _) =>
      if isAlreadyTagged content then Ok content
      else
        try! processedContent := addDeterministicTags_by e content availableTags in
        match r with
        | FetchRejected => Err FetchFailed
        | BodyNotJson => Err JsonSyntaxError
        | Body data =>
            try! taggedSummary := response_trim data in
            if truthy taggedSummary
            then Ok (assemble timestamp taggedSummary processedContent)
            else Ok processedContent
        end
  end.

(** ** Vocabulary of the statements *)

(** The text [p] occurs in [s]. *)
Definition occurs_in (p s : str) : Prop := exists pre post, s = pre ++ p ++ post.

Definition is_modify (e : event) : bool :=
  match e with Modify _ _ => true | _ => false end.

(** Between [before] and [after] no document was written by the plugin and
    no record entry was touched: the vault is the one at the start or the
    one left by the other actors, and the log gained no [Modify]. *)
Definition no_write (c : Call) (before after : World) : Prop :=
  taggedFiles (settings after) = taggedFiles (settings before)
  /\ (vault after = vault before \/ vault after = edits c (vault before))
  /\ exists evs, log after = log before ++ evs
                 /\ Forall (fun e => is_modify e = false) evs.

(** A sample state: one document, one tag, a model selected. *)
Definition sample_settings : Settings :=
  {| selectedModel := Some (lit "llama2");
     defaultTags := [lit "ml"];
     autoAddTags := true;
     taggedFiles := ∅;
     excludePatterns := [] |}.

Definition sample_file : TFile :=
  {| path := lit "notes/a.md"; basename := lit "a";
     extension := lit "md"; mtime := 1000 |}.

Definition sample_world (content : str) : World :=
  {| vault := {[ lit "notes/a.md" := content ]};
     settings := sample_settings;
     openInEditor := [];
     log := [] |}.

Definition summary_reply (s : str) : reply :=
  Body (JObject [(lit "response", JString s)]).

(** A call during which somebody else replaces the document by [b]. *)
Definition edited_call (r : reply) (b : str) : Call :=
  {| answer := r; timestamp := lit "2024-01-01T00:00:00.000Z"; now := 2000;
     edits := fun v => <[lit "notes/a.md" := b]> v |}.

(** A call during which nobody else touches the vault. *)
Definition quiet_call (r : reply) : Call :=
  {| answer := r; timestamp := lit "2024-01-01T00:00:00.000Z"; now := 2000;
     edits := fun v => v |}.

(** The eligibility rule as the specification words it: without an entry
    the document is processed, with an entry [T] it is processed exactly
    when it was modified after [T]. *)
Definition eligibility_as_stated (st : Settings) (file : TFile) : Prop :=
  excluded (excludePatterns st) file = Ok false ->
  (taggedFiles st !! path file = None -> shouldProcessFile st file = Ok true)
  /\ (forall T, taggedFiles st !! path file = Some T ->
                shouldProcessFile st file = Ok (mtime file >? T)).

(** A record that holds the timestamp zero for the sample document, and the
    document with a modification time of zero. *)
Definition zero_settings : Settings :=
  {| selectedModel := Some (lit "llama2");
     defaultTags := [lit "ml"];
     autoAddTags := true;
     taggedFiles := {[ lit "notes/a.md" := 0 ]};
     excludePatterns := [] |}.

Definition epoch_file : TFile :=
  {| path := lit "notes/a.md"; basename := lit "a";
     extension := lit "md"; mtime := 0 |}.

(** A hashtag token: a hash sign, one or more word characters, and the
    whitespace after them.  A text begins with a hashtag run when it begins
    with one or more tokens. *)
Definition hashtag_token (t : str) : Prop :=
  exists w ws, w <> [] /\ Forall (fun c => is_word c = true) w
               /\ Forall (fun c => is_space c = true) ws
               /\ t = "#"%char :: w ++ ws.

Definition begins_with_hashtags (s : str) : Prop :=
  exists toks rest, toks <> [] /\ Forall hashtag_token toks
                    /\ s = concat toks ++ rest.

(** A reply whose body is an object without a [response] field. *)
Definition body_without_response : reply :=
  Body (JObject [(lit "model", JString (lit "llama2")); (lit "done", JBool true)]).

(** The data has a string under [response]. *)
Definition has_string_response (data : json) : Prop :=
  exists fields s, data = JObject fields
                   /\ field (lit "response") fields = Some (JString s).

(** No word boundary in the pattern: the character before the position
    plays no part in the match. *)
Definition boundary_free (p : pattern) : bool :=
  forallb (fun a => match a with WordB => false | _ => true end) p.

(** The character before the position reached after the text [pre]. *)
Fixpoint prev_after (pre : str) (prev : option ascii) : option ascii :=
  match pre with
  | [] => prev
  | c :: pre' => prev_after pre' (Some c)
  end.

(** The documents of the examples of exclusion. *)
Definition file_at (p b : string) : TFile :=
  {| path := lit p; basename := lit b; extension := lit "md"; mtime := 0 |}.


Definition single_line (s : str) : Prop :=
  Forall (fun c => not_line_terminator c = true) s.

(** The two delimiters of a frontmatter block: the first line [---] and a
    later line [---], each with its line break. *)
Definition fm_open : str := lit "---" ++ [LF].
Definition fm_close : str := [LF] ++ lit "---" ++ [LF].

(** [fm] is the leading frontmatter block of [content]: it runs from the
    first line, [---], to the first later line [---] that follows a
    further line break. *)
Definition frontmatter_block (fm content : str) : Prop :=
  exists body rest,
    fm = fm_open ++ body ++ fm_close
    /\ content = fm ++ rest
    /\ forall body' rest', content = fm_open ++ body' ++ fm_close ++ rest' ->
         (length body <= length body')%nat.


(** The parts of [taggedSectionPattern] after the marker: the end of the
    header, and the divider with the line breaks after it. *)
Definition header_close : str := lit "---" ++ [LF; LF].
Definition divider_open : str := [LF; LF] ++ lit "---".
Definition section_tail : pattern :=
  lits divider_open ++ [chr LF; StarGreedy (ascii_eqb LF)].
Definition summary_part : pattern := StarLazy any_char :: section_tail.

(** The contents of the examples of the round trip. *)
Definition note_with_frontmatter : str :=
  fm_open ++ lit "title: x" ++ fm_close ++ lit "I study ml".
Definition note_with_final_newline : str := lit "I study ml" ++ [LF].



(** A tag whose stripped form holds no syntax character of patterns. *)
Definition plain_tag (tag : str) : Prop :=
  existsb is_syntax_char (strip_hash tag) = false.

(** An entry of a parsed list: not empty, no whitespace around it, no
    separator in it. *)
Definition clean_entry (sep : ascii) (t : str) : Prop :=
  t <> [] /\ trim t = t /\ ~ In sep t.

(** A tag made of word characters only, after its leading hash sign. *)
Definition word_tag (tag : str) : Prop :=
  strip_hash tag <> [] /\ Forall (fun c => is_word c = true) (strip_hash tag).

(** A hashtag without whitespace in it, as [addDeterministicTags] writes it
    for a tag of word characters. *)
Definition word_hashtag (t : str) : Prop :=
  exists a w, t = "#"%char :: a :: w /\ is_word a = true
              /\ Forall (fun c => is_word c = true) w.

(** The service gives no summary: the request fails, the body does not
    parse, or the body has no string under [response]. *)
Definition service_fails (r : reply) : Prop :=
  match r with
  | FetchRejected | BodyNotJson => True
  | Body data => ~ has_string_response data
  end.

(** From [before] to [after] the plugin wrote no document and the record is
    the same. *)
Definition nothing_written (before after : World) : Prop :=
  taggedFiles (settings after) = taggedFiles (settings before)
  /\ exists evs, log after = log before ++ evs
                 /\ Forall (fun e => is_modify e = false) evs.

(** The settings that a sweep does not own. *)
Definition same_options (a b : Settings) : Prop :=
  autoAddTags a = autoAddTags b /\ excludePatterns a = excludePatterns b.

(** A document of a sweep that the sweep will tag: nobody else touches the
    vault during its call, it is eligible, it holds no marker, and synthesis
    gives a content [S] other than the one read. *)
Definition to_be_tagged (model : option str) (tags : list str) (w : World)
    (fc : TFile * Call) (S : str) : Prop :=
  (forall v, edits (snd fc) v = v)
  /\ shouldProcessFile (settings w) (fst fc) = Ok true
  /\ exists A,
       vault w !! path (fst fc) = Some A
       /\ isAlreadyTagged A = false
       /\ processContentWithOllama model (answer (snd fc)) (timestamp (snd fc))
            A tags = Ok S
       /\ S <> A.

(** The document of the file is in the vault and holds the marker. *)
Definition marked (w : World) (file : TFile) : Prop :=
  exists A, vault w !! path file = Some A /\ isAlreadyTagged A = true.

(** A character of an exclusion pattern that the conversion to a pattern
    source handles: the star, the dot, or a character that is not a syntax
    character of patterns. *)
Definition glob_char (c : ascii) : bool :=
  ascii_eqb c "*"%char || ascii_eqb c "."%char || negb (is_syntax_char c).

(** The text [s] is an instance of the glob [g]: a star stands for any run
    of characters other than line terminators, every other character for
    itself. *)
Fixpoint glob_instance (g s : str) : Prop :=
  match g with
  | [] => s = []
  | c :: g' =>
      if ascii_eqb c "*"%char
      then exists a b, s = a ++ b /\ single_line a /\ glob_instance g' b
      else exists s', s = c :: s' /\ glob_instance g' s'
  end.

(** The pattern of a glob. *)
Definition glob_pattern (g : str) : pattern :=
  map (fun c => if ascii_eqb c "*"%char
                then StarGreedy not_line_terminator else chr c) g.

(** The number of times a sequence of values goes from off to on. *)
Fixpoint switched_on (prev : bool) (values : list bool) : nat :=
  match values with
  | [] => 0
  | b :: rest => ((if negb prev && b then 1 else 0) + switched_on b rest)%nat
  end.


(** The run of the tags of [V] that the engine [e] finds in [C]: the
    hashtags of the tags that match, each once, joined by single spaces and
    followed by one space.  There is no run when no tag matches. *)
Definition matched_run (e : engine) (C : str) (V : list str) (run : str)
  : Prop :=
  exists added,
    added <> [] /\ List.NoDup added
    /\ (forall t, In t added <->
          exists tag, In tag V
                      /\ tag_matches_by e (toLowerCase C) tag = Ok true
                      /\ t = hash_tag tag)
    /\ run = join (lit " ") added ++ lit " ".

(** The content has a leading frontmatter block. *)
Definition has_frontmatter (content : str) : Prop :=
  exists fm, frontmatter_block fm content.

(** A document that [autoTagFileOnClose] will tag: auto-tagging is ready,
    the document is eligible and not blank, nobody else changes it during
    the call, and synthesis gives a content [S] other than the one read. *)
Definition ready_on_close (file : TFile) (c : Call) (w : World) (S : str)
  : Prop :=
  auto_tagging_ready (settings w) = true
  /\ shouldProcessFile (settings w) file = Ok true
  /\ exists A,
       vault w !! path file = Some A
       /\ trim A <> []
       /\ edits c (vault w) !! path file = Some A
       /\ processContentWithOllama (selectedModel (settings w)) (answer c)
            (timestamp c) A (defaultTags (settings w)) = Ok S
       /\ S <> A.



(** * Properties *)

(** ** Strings *)

Lemma ascii_eqb_eq (a b : ascii) : ascii_eqb a b = true <-> a = b.
Proof. unfold ascii_eqb. apply Ascii.eqb_eq. Qed.

Lemma ascii_eqb_refl (a : ascii) : ascii_eqb a a = true.
Proof. apply ascii_eqb_eq. reflexivity. Qed.

Lemma ascii_eqb_neq (a b : ascii) : ascii_eqb a b = false <-> a <> b.
Proof.
  rewrite <- ascii_eqb_eq. destruct (ascii_eqb a b); split; congruence.
Qed.

Lemma str_eqb_eq (a b : str) : str_eqb a b = true <-> a = b.
Proof.
  revert b. induction a as [|x a IH]; intros [|y b]; simpl; try (split; congruence).
  rewrite andb_true_iff, ascii_eqb_eq, IH. split.
  - intros [-> ->]. reflexivity.
  - intros H. inversion H. auto.
Qed.

Lemma str_eqb_refl (a : str) : str_eqb a a = true.
Proof. apply str_eqb_eq. reflexivity. Qed.

Lemma str_eqb_neq (a b : str) : str_eqb a b = false <-> a <> b.
Proof.
  rewrite <- str_eqb_eq. destruct (str_eqb a b); split; congruence.
Qed.

Lemma startsWith_spec (p s : str) :
  startsWith p s = true <-> exists r, s = p ++ r.
Proof.
  revert s. induction p as [|x p IH]; intros s; simpl.
  - split; eauto.
  - destruct s as [|y s].
    + split; [congruence | intros [r H]; discriminate].
    + rewrite andb_true_iff, ascii_eqb_eq, IH. split.
      * intros [-> [r ->]]. eauto.
      * intros [r H]. inversion H. eauto.
Qed.


Lemma includes_spec (p s : str) :
  includes p s = true <-> exists pre post, s = pre ++ p ++ post.
Proof.
  induction s as [|c s IH]; simpl.
  - rewrite orb_false_r, startsWith_spec. split.
    + intros [r H]. exists [], r. exact H.
    + intros [pre [post H]]. destruct pre; [eauto|discriminate].
  - rewrite orb_true_iff, startsWith_spec, IH. split.
    + intros [[r H] | [pre [post H]]].
      * exists [], r. exact H.
      * exists (c :: pre), post. simpl. congruence.
    + intros [[|d pre] [post H]].
      * left. eauto.
      * right. inversion H. eauto.
Qed.

Lemma includes_false (p s : str) : includes p s = false <-> ~ occurs_in p s.
Proof.
  unfold occurs_in. rewrite <- includes_spec.
  destruct (includes p s); split; congruence.
Qed.

(** ** The staleness guard and the write *)

Lemma no_write_refl (c : Call) (w : World) : no_write c w w.
Proof.
  repeat split; auto. exists []. rewrite app_nil_r. auto.
Qed.

Lemma no_write_emit_notice (c : Call) (w w' : World) (e : option error) :
  no_write c w w' -> no_write c w (emit [Notice e] w').
Proof.
  intros (Ht & Hv & evs & Hl & Hf). repeat split; auto.
  exists (evs ++ [Notice e]). simpl. rewrite Hl, <- app_assoc. split; auto.
  apply Forall_app. split; auto.
Qed.

Lemma no_write_edited (c : Call) (w : World) :
  no_write c w (set_vault (edits c (vault w)) w).
Proof.
  repeat split; simpl; auto. exists []. rewrite app_nil_r. auto.
Qed.

(** The shared body, when the second read differs from the first. *)
Lemma tag_document_stale (skipTagged skipEmpty notice : bool)
    (tags : list str) (file : TFile) (c : Call) (w : World) (A B : str) :
  vault w !! path file = Some A ->
  edits c (vault w) !! path file = Some B ->
  B <> A ->
  no_write c w (tag_document skipTagged skipEmpty notice tags file c w).
Proof.
  intros HA HB Hne. unfold tag_document. rewrite HA.
  destruct (skipTagged && isAlreadyTagged A); [apply no_write_refl|].
  destruct (skipEmpty && negb (truthy (trim A))); [apply no_write_refl|].
  destruct (processContentWithOllama _ _ _ _ _) as [S|e].
  - simpl. rewrite HB.
    apply str_eqb_neq in Hne. rewrite Hne. simpl. apply no_write_edited.
  - apply no_write_emit_notice, no_write_edited.
Qed.

(** The shared body, when synthesis gives back the content that was read. *)
Lemma tag_document_same (skipTagged skipEmpty notice : bool)
    (tags : list str) (file : TFile) (c : Call) (w : World) (A : str) :
  vault w !! path file = Some A ->
  processContentWithOllama (selectedModel (settings w)) (answer c)
    (timestamp c) A tags = Ok A ->
  no_write c w (tag_document skipTagged skipEmpty notice tags file c w).
Proof.
  intros HA HS. unfold tag_document. rewrite HA.
  destruct (skipTagged && isAlreadyTagged A); [apply no_write_refl|].
  destruct (skipEmpty && negb (truthy (trim A))); [apply no_write_refl|].
  rewrite HS. simpl.
  destruct (edits c (vault w) !! path file) as [B|].
  - destruct (str_eqb B A); simpl; [|apply no_write_edited].
    rewrite str_eqb_refl. simpl. apply no_write_edited.
  - apply no_write_emit_notice, no_write_edited.
Qed.

Lemma no_write_store_choice (c : Call) (w w' : World) (model : str)
    (tags : list str) :
  no_write c (store_choice model tags w) w' -> no_write c w w'.
Proof.
  intros (Ht & Hv & evs & Hl & Hf). repeat split; auto.
  exists (SaveSettings :: evs). split.
  - rewrite Hl. simpl. rewrite <- app_assoc. reflexivity.
  - constructor; auto.
Qed.

Lemma autoTagFile_cases (file : TFile) (c : Call) (w : World) :
  autoTagFile file c w = w
  \/ autoTagFile file c w
     = tag_document false true false (defaultTags (settings w)) file c w.
Proof.
  unfold autoTagFile.
  destruct (negb (auto_tagging_ready (settings w))); auto.
  destruct (shouldProcessFile (settings w) file) as [[|]|]; auto.
  destruct (isFileCurrentlyOpen file w); auto.
Qed.

Lemma addTags_loop_one (tags : list str) (file : TFile) (c : Call) (w : World) :
  addTags_loop tags [(file, c)] w = w
  \/ addTags_loop tags [(file, c)] w = emit [Notice None] w
  \/ addTags_loop tags [(file, c)] w
     = emit [Notice None] (tag_document true false true tags file c w).
Proof.
  simpl. destruct (shouldProcessFile (settings w) file) as [[|]|]; auto.
Qed.

Lemma addTagsToDocuments_one (dialog : option (str * list str))
    (file : TFile) (c : Call) (w : World) :
  addTagsToDocuments dialog [(file, c)] w = w
  \/ addTagsToDocuments dialog [(file, c)] w = emit [Notice None] w
  \/ exists model tags,
       dialog = Some (model, tags)
       /\ let w0 := store_choice model tags w in
          addTagsToDocuments dialog [(file, c)] w = w0
          \/ addTagsToDocuments dialog [(file, c)] w = emit [Notice None] w0
          \/ addTagsToDocuments dialog [(file, c)] w
             = emit [Notice None] (tag_document true false true tags file c w0).
Proof.
  unfold addTagsToDocuments.
  destruct (negb (model_selected (settings w))); [auto|].
  destruct dialog as [[model tags]|]; [|auto].
  right. right. exists model, tags. split; [reflexivity|].
  apply addTags_loop_one.
Qed.

Lemma no_write_choice_only (c : Call) (w : World) (model : str)
    (tags : list str) :
  no_write c w (store_choice model tags w).
Proof.
  apply (no_write_store_choice c w _ model tags), no_write_refl.
Qed.

(** C1 (staleness abort).  When the content read after the call ([B])
    differs from the content read before it ([A]), [autoTagFile] and
    [addTagsToDocuments] write nothing to the document: no [Modify] is
    issued, the tagging record is left as it was, and the vault is the one
    the other actors left.  Once the call has resolved with a result [S],
    the state is exactly the state with their edits: the document holds [B]
    and [S] is dropped. *)
Theorem staleness_abort (file : TFile) (c : Call) (w : World) (A B : str) :
  vault w !! path file = Some A ->
  edits c (vault w) !! path file = Some B ->
  B <> A ->
  no_write c w (autoTagFile file c w)
  /\ (forall dialog, no_write c w (addTagsToDocuments dialog [(file, c)] w))
  /\ forall (skipTagged skipEmpty notice : bool) (tags : list str) (S : str),
       skipTagged && isAlreadyTagged A = false ->
       skipEmpty && negb (truthy (trim A)) = false ->
       processContentWithOllama (selectedModel (settings w)) (answer c)
         (timestamp c) A tags = Ok S ->
       tag_document skipTagged skipEmpty notice tags file c w
       = set_vault (edits c (vault w)) w
       /\ vault (tag_document skipTagged skipEmpty notice tags file c w)
          !! path file = Some B.
Proof.
  intros HA HB Hne. split; [|split].
  - destruct (autoTagFile_cases file c w) as [-> | ->].
    + apply no_write_refl.
    + eapply tag_document_stale; eauto.
  - intros dialog.
    destruct (addTagsToDocuments_one dialog file c w)
      as [-> | [-> | (model & tags & _ & [-> | [-> | ->]])]].
    + apply no_write_refl.
    + apply no_write_emit_notice, no_write_refl.
    + apply no_write_choice_only.
    + apply no_write_emit_notice, no_write_choice_only.
    + apply no_write_emit_notice, (no_write_store_choice c w _ model tags).
      eapply tag_document_stale; simpl; eauto.
  - intros skipTagged skipEmpty notice tags S Hg1 Hg2 HS.
    assert (tag_document skipTagged skipEmpty notice tags file c w
            = set_vault (edits c (vault w)) w) as ->.
    { unfold tag_document. rewrite HA, Hg1, Hg2, HS. simpl. rewrite HB.
      apply str_eqb_neq in Hne. rewrite Hne. reflexivity. }
    split; [reflexivity | exact HB].
Qed.

(** The abort on the sample document, edited while the service answers. *)
Lemma staleness_abort_witness :
  let w := sample_world (lit "I study ml today") in
  let c := edited_call (summary_reply (lit "A note. #ml")) (lit "I study ml, edited") in
  no_write c w (autoTagFile sample_file c w)
  /\ no_write c w
       (addTagsToDocuments (Some (lit "llama2", [lit "ml"])) [(sample_file, c)] w)
  /\ vault (tag_document true false true [lit "ml"] sample_file c w)
     !! lit "notes/a.md" = Some (lit "I study ml, edited").
Proof.
  intros w c.
  destruct (staleness_abort sample_file c w
              (lit "I study ml today") (lit "I study ml, edited"))
    as (H1 & H2 & H3).
  - reflexivity.
  - reflexivity.
  - discriminate.
  - split; [exact H1|]. split; [apply H2|].
    apply (H3 true false true [lit "ml"]
             (assemble (timestamp c) (lit "A note. #ml") (lit "#ml I study ml today")));
      reflexivity.
Defined.

(** The shared body either writes nothing, or synthesis gave a content [S]
    different from the one read and the state is the one after the write of
    [S] and of the record entry. *)
Lemma tag_document_frame (skipTagged skipEmpty notice : bool)
    (tags : list str) (file : TFile) (c : Call) (w : World) (A : str) :
  vault w !! path file = Some A ->
  no_write c w (tag_document skipTagged skipEmpty notice tags file c w)
  \/ exists S,
       processContentWithOllama (selectedModel (settings w)) (answer c)
         (timestamp c) A tags = Ok S
       /\ S <> A
       /\ tag_document skipTagged skipEmpty notice tags file c w
          = write_tagged file S (now c) notice (set_vault (edits c (vault w)) w).
Proof.
  intros HA. unfold tag_document. rewrite HA.
  destruct (skipTagged && isAlreadyTagged A); [left; apply no_write_refl|].
  destruct (skipEmpty && negb (truthy (trim A))); [left; apply no_write_refl|].
  destruct (processContentWithOllama _ _ _ _ _) as [S|e]; simpl.
  - destruct (edits c (vault w) !! path file) as [B|].
    + destruct (str_eqb B A); simpl; [|left; apply no_write_edited].
      destruct (str_eqb S A) eqn:HSA; simpl; [left; apply no_write_edited|].
      right. exists S. apply str_eqb_neq in HSA. auto.
    + left. apply no_write_emit_notice, no_write_edited.
  - left. apply no_write_emit_notice, no_write_edited.
Qed.

(** C10 (no-op frame).  When synthesis gives back the very content that was
    read, [autoTagFile], [addTagsToDocuments] and [tagCurrentDocument] issue
    no [Modify] and leave the tagging record as it was.  In general the
    shared body changes the record only together with a write of a content
    that differs from the one read. *)
Theorem noop_frame (file : TFile) (c : Call) (w : World) (A : str)
    (model : str) (tags : list str) :
  vault w !! path file = Some A ->
  (processContentWithOllama (selectedModel (settings w)) (answer c)
     (timestamp c) A (defaultTags (settings w)) = Ok A ->
   no_write c w (autoTagFile file c w))
  /\ (processContentWithOllama (Some model) (answer c)
        (timestamp c) A tags = Ok A ->
      no_write c w
        (addTagsToDocuments (Some (model, tags)) [(file, c)] w)
      /\ no_write c w
           (tagCurrentDocument (Some file) (Some (model, tags)) c w))
  /\ forall skipTagged skipEmpty notice,
       let after := tag_document skipTagged skipEmpty notice tags file c w in
       no_write c w after
       \/ exists S,
            S <> A
            /\ vault after !! path file = Some S
            /\ taggedFiles (settings after) !! path file = Some (now c)
            /\ In (Modify (path file) S) (log after).
Proof.
  intros HA. split; [|split].
  - intros HS. destruct (autoTagFile_cases file c w) as [-> | ->].
    + apply no_write_refl.
    + eapply tag_document_same; eauto.
  - intros HS. split.
    + destruct (addTagsToDocuments_one (Some (model, tags)) file c w)
        as [-> | [-> | (model' & tags' & Hd & [-> | [-> | ->]])]].
      * apply no_write_refl.
      * apply no_write_emit_notice, no_write_refl.
      * apply no_write_choice_only.
      * apply no_write_emit_notice, no_write_choice_only.
      * injection Hd as <- <-.
        apply no_write_emit_notice, (no_write_store_choice c w _ model tags).
        eapply tag_document_same; simpl; eauto.
    + unfold tagCurrentDocument.
      destruct (negb (str_eqb (extension file) (lit "md"))).
      * apply no_write_emit_notice, no_write_refl.
      * apply (no_write_store_choice c w _ model tags).
        eapply tag_document_same; simpl; eauto.
  - intros skipTagged skipEmpty notice after.
    destruct (tag_document_frame skipTagged skipEmpty notice tags file c w A HA)
      as [H | (S & HS & Hne & Heq)]; [left; exact H|].
    right. exists S. subst after. rewrite Heq. unfold write_tagged. simpl.
    split; [exact Hne|]. rewrite !lookup_insert_eq.
    split; [reflexivity|]. split; [reflexivity|].
    apply in_or_app. right. simpl. auto.
Qed.

(** No tag matches and the summary is blank: the three operations write
    nothing. *)
Lemma noop_frame_witness :
  let w := sample_world (lit "I study html today") in
  let c := quiet_call (summary_reply (lit "  ")) in
  no_write c w (autoTagFile sample_file c w)
  /\ no_write c w
       (addTagsToDocuments (Some (lit "llama2", [lit "ml"])) [(sample_file, c)] w)
  /\ no_write c w
       (tagCurrentDocument (Some sample_file) (Some (lit "llama2", [lit "ml"])) c w).
Proof.
  intros w c.
  destruct (noop_frame sample_file c w (lit "I study html today")
              (lit "llama2") [lit "ml"]) as (H1 & H2 & _).
  - reflexivity.
  - split; [apply H1; reflexivity|]. apply H2. reflexivity.
Defined.

(** ** Eligibility *)

(** C8, as stated, fails on a record entry equal to zero: the test
    [!lastTagged] takes it for a missing entry. *)
Lemma eligibility_zero_timestamp :
  excluded (excludePatterns zero_settings) epoch_file = Ok false
  /\ taggedFiles zero_settings !! path epoch_file = Some 0
  /\ (mtime epoch_file >? 0) = false
  /\ shouldProcessFile zero_settings epoch_file = Ok true
  /\ ~ eligibility_as_stated zero_settings epoch_file.
Proof.
  split; [reflexivity|]. split; [reflexivity|]. split; [reflexivity|].
  split; [reflexivity|].
  intros H. destruct (H eq_refl) as [_ H2].
  specialize (H2 0 eq_refl). discriminate H2.
Qed.

(** C8 (eligibility dedup), amended.  For a document that no pattern
    excludes, [shouldProcessFile] answers true when there is no record entry
    or when the entry is zero; with an entry [T] other than zero it answers
    true exactly when the modification time is greater than [T]. *)
Theorem eligibility_dedup (st : Settings) (file : TFile) :
  excluded (excludePatterns st) file = Ok false ->
  (taggedFiles st !! path file = None -> shouldProcessFile st file = Ok true)
  /\ (taggedFiles st !! path file = Some 0 -> shouldProcessFile st file = Ok true)
  /\ (forall T, taggedFiles st !! path file = Some T -> T <> 0 ->
        shouldProcessFile st file = Ok (mtime file >? T)
        /\ (shouldProcessFile st file = Ok true <-> mtime file > T)
        /\ (mtime file <= T -> shouldProcessFile st file = Ok false)).
Proof.
  intros Hex. unfold shouldProcessFile. rewrite Hex. simpl.
  split; [|split].
  - intros ->. reflexivity.
  - intros ->. reflexivity.
  - intros T -> HT. simpl.
    destruct (Z.eqb_spec T 0) as [|_]; [contradiction|].
    split; [reflexivity|]. split.
    + split.
      * intros H. injection H as H. apply Z.gtb_lt in H. lia.
      * intros H. f_equal. apply Z.gtb_lt. lia.
    + intros H. f_equal. destruct (mtime file >? T) eqn:E; auto.
      apply Z.gtb_lt in E. lia.
Qed.

(** A document tagged at 1500: skipped when last modified at 1000,
    processed again when modified at 1501. *)
Lemma eligibility_dedup_witness :
  let st := {| selectedModel := None; defaultTags := []; autoAddTags := false;
               taggedFiles := {[ lit "notes/a.md" := 1500 ]};
               excludePatterns := [lit "daily"; lit "templates/*"] |} in
  shouldProcessFile st sample_file = Ok false
  /\ shouldProcessFile st
       {| path := lit "notes/a.md"; basename := lit "a";
          extension := lit "md"; mtime := 1501 |} = Ok true.
Proof.
  intros st. split.
  - destruct (eligibility_dedup st sample_file) as (_ & _ & H).
    + reflexivity.
    + destruct (H 1500) as (_ & _ & H3); [reflexivity | lia |].
      apply H3. simpl. lia.
  - set (f := {| path := lit "notes/a.md"; basename := lit "a";
                 extension := lit "md"; mtime := 1501 |}).
    destruct (eligibility_dedup st f) as (_ & _ & H).
    + reflexivity.
    + destruct (H 1500) as (_ & H2 & _); [reflexivity | lia |].
      apply H2. simpl. lia.
Defined.

(** ** Synthesis *)

Lemma response_trim_ok (data : json) (t : str) :
  response_trim data = Ok t ->
  exists fields s, data = JObject fields
                   /\ field (lit "response") fields = Some (JString s)
                   /\ t = trim s.
Proof.
  destruct data as [| | | |items|fields]; simpl; try discriminate.
  destruct (field (lit "response") fields) as [[|b|n|s|items|fs]|] eqn:E;
    try discriminate.
  intros H. injection H as <-. eauto.
Qed.

(** Without a string under [response] the call throws, whatever the
    deterministic pass has found. *)
Lemma synthesis_fails_without_response (model : str) (data : json)
    (ts content P : str) (tags : list str) :
  model <> [] ->
  isAlreadyTagged content = false ->
  addDeterministicTags content tags = Ok P ->
  ~ has_string_response data ->
  processContentWithOllama (Some model) (Body data) ts content tags
  = Err TypeError.
Proof.
  intros Hm Ht HP Hno. unfold processContentWithOllama.
  destruct model as [|m model]; [congruence|].
  rewrite Ht, HP. simpl.
  destruct (response_trim data) as [t|e] eqn:E.
  - exfalso. apply Hno. apply response_trim_ok in E.
    destruct E as (fields & s & -> & Hf & _). exists fields, s. auto.
  - simpl. destruct data as [| | | |items|fields]; simpl in E; try congruence.
    destruct (field (lit "response") fields) as [[|b|n|s|items0|fs]|];
      congruence.
Qed.

(** C4, on the code.  With a body that has no [response] field the call
    throws a type error where the deterministic pass alone gives a result;
    [autoTagFile] then reports the failure and writes nothing. *)
Theorem missing_response_throws :
  let content := lit "I study ml today" in
  let w := sample_world content in
  let c := quiet_call body_without_response in
  addDeterministicTags content [lit "ml"] = Ok (lit "#ml I study ml today")
  /\ processContentWithOllama (Some (lit "llama2")) body_without_response
       (timestamp c) content [lit "ml"] = Err TypeError
  /\ processContentWithOllama (Some (lit "llama2")) (Body JNull)
       (timestamp c) content [lit "ml"] = Err TypeError
  /\ processContentWithOllama (Some (lit "llama2"))
       (Body (JObject [(lit "response", JNumber 7)]))
       (timestamp c) content [lit "ml"] = Err TypeError
  /\ autoTagFile sample_file c w = emit [Notice (Some TypeError)] w.
Proof.
  repeat split; reflexivity.
Qed.

Lemma includes_prefix (p r : str) : includes p (p ++ r) = true.
Proof. apply includes_spec. exists [], r. reflexivity. Qed.

Lemma assemble_tagged (ts summary P : str) :
  isAlreadyTagged (assemble ts summary P) = true.
Proof.
  unfold isAlreadyTagged.
  replace (assemble ts summary P)
    with (marker ++ " "%char :: ts ++ [LF] ++ lit "---" ++ [LF; LF]
          ++ summary ++ [LF; LF] ++ lit "---" ++ [LF; LF] ++ P)
    by reflexivity.
  apply includes_prefix.
Qed.

(** C2, as stated, fails when the first reply is blank: the output has no
    marker, and the second application adds the matched tag again. *)
Lemma idempotence_blank_reply :
  let model := Some (lit "llama2") in
  let blank := summary_reply (lit "") in
  let ts := lit "2024-01-01T00:00:00.000Z" in
  processContentWithOllama model blank ts (lit "I study ml today") [lit "ml"]
  = Ok (lit "#ml I study ml today")
  /\ processContentWithOllama model blank ts (lit "#ml I study ml today") [lit "ml"]
     = Ok (lit "#ml #ml I study ml today")
  /\ lit "#ml #ml I study ml today" <> lit "#ml I study ml today".
Proof.
  repeat split; try reflexivity. discriminate.
Qed.

(** C2 (idempotence), amended.  When the output [S] of a first application
    holds the marker -- the content held it already, or the service gave a
    summary that is not blank -- a second application gives [S] back,
    whatever the service answers then. *)
Theorem tagging_idempotent_once_marked (model : option str) (r1 r2 : reply)
    (ts1 ts2 C S : str) (V : list str) :
  processContentWithOllama model r1 ts1 C V = Ok S ->
  isAlreadyTagged C = true
  \/ (exists data summary, r1 = Body data /\ response_trim data = Ok summary
                           /\ summary <> []) ->
  isAlreadyTagged S = true
  /\ processContentWithOllama model r2 ts2 S V = Ok S.
Proof.
  intros H1 Hmark.
  assert (isAlreadyTagged S = true) as HS.
  { unfold processContentWithOllama in H1.
    destruct model as [[|m model]|]; try discriminate.
    destruct (isAlreadyTagged C) eqn:HC.
    - injection H1 as <-. exact HC.
    - destruct Hmark as [Hm | (data & summary & -> & Hr & Hne)]; [discriminate|].
      destruct (addDeterministicTags C V) as [P|e]; simpl in H1; [|discriminate].
      rewrite Hr in H1. simpl in H1.
      destruct summary as [|x summary]; [congruence|]. simpl in H1.
      injection H1 as <-. apply assemble_tagged. }
  split; [exact HS|].
  unfold processContentWithOllama in *.
  destruct model as [[|m model]|]; try discriminate.
  rewrite HS. reflexivity.
Qed.

(** A second application on an assembled document. *)
Lemma tagging_idempotent_witness :
  let model := Some (lit "llama2") in
  let ts := lit "2024-01-01T00:00:00.000Z" in
  let S := assemble ts (lit "A note. #ai") (lit "#ml I study ml today") in
  isAlreadyTagged S = true
  /\ processContentWithOllama model (summary_reply (lit "again")) ts S [lit "ml"]
     = Ok S.
Proof.
  intros model ts S.
  apply (tagging_idempotent_once_marked model
           (summary_reply (lit " A note. #ai ")) (summary_reply (lit "again"))
           ts ts (lit "I study ml today") S [lit "ml"]).
  - reflexivity.
  - right. exists (JObject [(lit "response", JString (lit " A note. #ai "))]),
      (lit "A note. #ai").
    split; [reflexivity|]. split; [reflexivity | discriminate].
Defined.

(** ** The matcher *)

Lemma match_at_suffix (p : pattern) :
  forall prev s r, match_at p prev s = Some r -> exists m, s = m ++ r.
Proof.
  induction p as [|a p IH]; intros prev s r; simpl.
  - intros H. injection H as <-. exists []. reflexivity.
  - destruct a as [cls|cls|cls| |].
    + destruct s as [|x s]; [discriminate|].
      destruct (cls x); [|discriminate].
      intros H. apply IH in H. destruct H as [m ->]. exists (x :: m). reflexivity.
    + revert prev. induction s as [|x s IHs]; intros prev.
      * apply IH.
      * destruct (cls x); [|apply IH].
        destruct ((fix greedy (prev0 : option ascii) (s0 : str) {struct s0} :=
                     match s0 with
                     | [] => match_at p prev0 s0
                     | a :: s' =>
                         if cls a
                         then match greedy (Some a) s' with
                              | Some r0 => Some r0
                              | None => match_at p prev0 s0
                              end
                         else match_at p prev0 s0
                     end) (Some x) s) as [r0|] eqn:E.
        -- intros H. injection H as <-. apply IHs in E.
           destruct E as [m ->]. exists (x :: m). reflexivity.
        -- apply IH.
    + revert prev. induction s as [|x s IHs]; intros prev.
      * destruct (match_at p prev []) eqn:E; [|discriminate].
        intros H. injection H as <-. eapply IH; eauto.
      * destruct (match_at p prev (x :: s)) eqn:E.
        -- intros H. injection H as <-. eapply IH; eauto.
        -- destruct (cls x); [|discriminate].
           intros H. apply IHs in H. destruct H as [m ->].
           exists (x :: m). reflexivity.
    + destruct (xorb _ _); [apply IH | discriminate].
    + destruct s; [apply IH | discriminate].
Qed.

Lemma match_at_prev (p : pattern) :
  boundary_free p = true ->
  forall prev prev' s, match_at p prev s = match_at p prev' s.
Proof.
  induction p as [|a p IH]; intros Hp prev prev' s; simpl; [reflexivity|].
  simpl in Hp. apply andb_true_iff in Hp. destruct Hp as [Ha Hp].
  specialize (IH Hp).
  destruct a as [cls|cls|cls| |]; try discriminate.
  - destruct s as [|x s]; [reflexivity|]. destruct (cls x); auto.
  - revert prev prev'. induction s as [|x s IHs]; intros prev prev'; [apply IH|].
    destruct (cls x); [|apply IH]. rewrite (IH prev prev'). reflexivity.
  - revert prev prev'. induction s as [|x s IHs]; intros prev prev'.
    + rewrite (IH prev prev'). reflexivity.
    + rewrite (IH prev prev'). reflexivity.
  - destruct s; auto.
Qed.

(** A greedy star before a pattern that matches where the star's longest
    run ends: the run is taken whole. *)
Lemma star_greedy_max (cls : ascii -> bool) (p : pattern) (r : str) :
  boundary_free p = true ->
  forall prev s,
    match_at p None (drop_while cls s) = Some r ->
    match_at (StarGreedy cls :: p) prev s = Some r.
Proof.
  intros Hp prev s. revert prev. simpl.
  induction s as [|x s IHs]; intros prev H; simpl in H.
  - rewrite (match_at_prev p Hp prev None). exact H.
  - destruct (cls x).
    + rewrite (IHs (Some x) H). reflexivity.
    + rewrite (match_at_prev p Hp prev None). exact H.
Qed.

Lemma tagToken_match (prev : option ascii) (s : str) :
  match_at tagToken prev s =
  match s with
  | h :: a :: s' =>
      if ascii_eqb "#"%char h && is_word a
      then Some (drop_while is_space (drop_while is_word s'))
      else None
  | _ => None
  end.
Proof.
  destruct s as [|h [|a s']]; unfold tagToken, chr.
  - reflexivity.
  - simpl. destruct (ascii_eqb "#"%char h); reflexivity.
  - change (match_at (One (ascii_eqb "#"%char) :: One is_word
                      :: StarGreedy is_word :: [StarGreedy is_space])
              prev (h :: a :: s'))
      with (if ascii_eqb "#"%char h
            then if is_word a
                 then match_at [StarGreedy is_word; StarGreedy is_space]
                        (Some a) s'
                 else None
            else None).
    destruct (ascii_eqb "#"%char h); [|reflexivity].
    destruct (is_word a); [|reflexivity]. simpl andb. cbv iota.
    apply star_greedy_max; [reflexivity|].
    apply star_greedy_max; [reflexivity|]. reflexivity.
Qed.

Lemma tag_run_none (fuel : nat) (s : str) :
  match_at tagToken None s = None -> tag_run fuel s = None.
Proof. intros H. destruct fuel; cbn [tag_run]; rewrite H; reflexivity. Qed.

Lemma no_hashtags_no_token (s : str) :
  ~ begins_with_hashtags s -> match_at tagToken None s = None.
Proof.
  intros Hno. rewrite tagToken_match.
  destruct s as [|h [|a s']]; try reflexivity.
  destruct (ascii_eqb "#"%char h) eqn:Eh; [|reflexivity].
  destruct (is_word a) eqn:Ea; [|reflexivity].
  exfalso. apply Hno. apply ascii_eqb_eq in Eh. subst h.
  exists [["#"%char; a]], s'. split; [discriminate|]. split; [|reflexivity].
  constructor; [|constructor].
  exists [a], []. split; [discriminate|]. split; [constructor; auto|].
  split; [constructor | reflexivity].
Qed.

(** ** Untagging *)

(** C9 (untag is safe).  On a content without the marker that does not begin
    with a hashtag run, [untag] gives the content back with [wasModified]
    false, and the untagging operations do not write: the state is left as
    it is (the sweep over all documents only saves the settings once the
    loop has ended). *)
Theorem untag_safe (C : str) :
  ~ occurs_in marker C ->
  ~ begins_with_hashtags C ->
  untag C = (C, false)
  /\ forall (file : TFile) (w : World),
       vault w !! path file = Some C ->
       (forall after, untag_document file after w = w)
       /\ (extension file = lit "md" -> untagCurrentDocument (Some file) w = w)
       /\ untagAllDocuments true [file] w = emit [SaveSettings; Notice None] w.
Proof.
  intros Hm Hh.
  assert (untag C = (C, false)) as HU.
  { unfold untag, isAlreadyTagged. apply includes_false in Hm. rewrite Hm.
    unfold tagPattern. rewrite tag_run_none; [reflexivity|].
    apply no_hashtags_no_token. exact Hh. }
  split; [exact HU|]. intros file w Hv.
  assert (forall after, untag_document file after w = w) as HD.
  { intros after. unfold untag_document. rewrite Hv, HU. reflexivity. }
  split; [exact HD|]. split.
  - intros Hext. unfold untagCurrentDocument. rewrite Hext, str_eqb_refl.
    simpl. apply HD.
  - simpl. rewrite HD. reflexivity.
Qed.

Lemma begins_with_hashtags_head (s : str) :
  begins_with_hashtags s ->
  exists a s', s = "#"%char :: a :: s' /\ is_word a = true.
Proof.
  intros (toks & rest & Hne & Hall & ->).
  destruct toks as [|t toks]; [congruence|].
  inversion Hall as [|? ? (w & ws & Hw & Hww & _ & ->) _]. subst.
  destruct w as [|a w]; [congruence|].
  inversion Hww. subst.
  exists a, ((w ++ ws) ++ concat toks ++ rest). split; [|assumption].
  simpl. rewrite <- !app_assoc. reflexivity.
Qed.

(** Untagging a plain note. *)
Lemma untag_safe_witness :
  untag (lit "I study ml today") = (lit "I study ml today", false).
Proof.
  apply (untag_safe (lit "I study ml today")).
  - apply includes_false. reflexivity.
  - intros H. apply begins_with_hashtags_head in H.
    destruct H as (a & s' & H & _). discriminate H.
Defined.

(** ** Search and literals *)

Lemma search_found (p : pattern) (s : str) :
  forall prev,
    search p prev s <> None <->
    exists pre post r, s = pre ++ post
                       /\ match_at p (prev_after pre prev) post = Some r.
Proof.
  induction s as [|a s IH]; intros prev; simpl.
  - destruct (match_at p prev []) as [r|] eqn:E.
    + split; [|congruence]. intros _. exists [], [], r. auto.
    + split; [congruence|]. intros (pre & post & r & H & Hm).
      symmetry in H. apply app_eq_nil in H. destruct H as [-> ->].
      simpl in Hm. congruence.
  - destruct (match_at p prev (a :: s)) as [r|] eqn:E.
    + split; [|congruence]. intros _. exists [], (a :: s), r. auto.
    + specialize (IH (Some a)).
      destruct (search p (Some a) s) as [[b r]|].
      * split; [|congruence]. intros _.
        destruct IH as [IH _]. destruct IH as (pre & post & r' & -> & Hm);
          [congruence|].
        exists (a :: pre), post, r'. auto.
      * split; [congruence|]. intros (pre & post & r & H & Hm).
        destruct pre as [|c pre]; simpl in H, Hm.
        -- subst post. congruence.
        -- injection H as -> ->. exfalso. apply IH; [|reflexivity].
           exists pre, post, r. auto.
Qed.

Lemma test_spec (p : pattern) (s : str) :
  test p s = true <->
  exists pre post r, s = pre ++ post
                     /\ match_at p (prev_after pre None) post = Some r.
Proof.
  rewrite <- search_found. unfold test.
  destruct (search p None s); split; congruence.
Qed.

Lemma match_at_lits (x : str) (p : pattern) :
  forall prev s',
    match_at (lits x ++ p) prev (x ++ s') = match_at p (prev_after x prev) s'.
Proof.
  induction x as [|a x IH]; intros prev s'; [reflexivity|].
  change (lits (a :: x) ++ p) with (One (ascii_eqb a) :: (lits x ++ p)).
  change ((a :: x) ++ s') with (a :: (x ++ s')).
  cbn [match_at]. rewrite ascii_eqb_refl. apply IH.
Qed.

Lemma match_at_lits_inv (x : str) (p : pattern) :
  forall prev s r,
    match_at (lits x ++ p) prev s = Some r ->
    exists s', s = x ++ s' /\ match_at p (prev_after x prev) s' = Some r.
Proof.
  induction x as [|a x IH]; intros prev s r H.
  - exists s. auto.
  - change (lits (a :: x) ++ p) with (One (ascii_eqb a) :: (lits x ++ p)) in H.
    cbn [match_at] in H. destruct s as [|c s]; [discriminate|].
    destruct (ascii_eqb a c) eqn:E; [|discriminate].
    apply ascii_eqb_eq in E. subst c. apply IH in H.
    destruct H as (s' & -> & H). exists s'. auto.
Qed.



(** ** Exclusion patterns *)

Lemma boundary_free_lits (x : str) (q : pattern) :
  boundary_free (lits x ++ q) = boundary_free q.
Proof. induction x as [|a x IH]; [reflexivity | exact IH]. Qed.









Lemma excluded_spec (patterns : list str) (file : TFile) (b : bool) :
  excluded patterns file = Ok b ->
  (b = true <-> exists p, In p patterns /\ pattern_excludes p file = Ok true).
Proof.
  revert b. induction patterns as [|p patterns IH]; intros b; cbn [excluded].
  - intros H. injection H as <-. split; [discriminate|]. intros (p & [] & _).
  - destruct (pattern_excludes p file) as [[|]|e] eqn:E; cbn [bind];
      [| |discriminate].
    + intros H. injection H as <-. split; [|reflexivity].
      intros _. exists p. split; [left; reflexivity | exact E].
    + intros H. rewrite (IH b H). split.
      * intros (q & Hq & Hm). exists q. split; [right; exact Hq | exact Hm].
      * intros (q & [<-|Hq] & Hm); [congruence|]. exists q. auto.
Qed.

Lemma shouldProcessFile_excluded (st : Settings) (file : TFile) (p : str) :
  In p (excludePatterns st) -> pattern_excludes p file = Ok true ->
  forall b, shouldProcessFile st file = Ok b -> b = false.
Proof.
  intros Hin Hp b. unfold shouldProcessFile.
  destruct (excluded (excludePatterns st) file) as [ex|e] eqn:E; [|discriminate].
  cbn [bind]. assert (ex = true) as ->.
  { apply (excluded_spec _ _ _ E). eauto. }
  congruence.
Qed.

Lemma shouldProcessFile_first (st : Settings) (file : TFile) (p : str)
    (rest : list str) :
  excludePatterns st = p :: rest -> pattern_excludes p file = Ok true ->
  shouldProcessFile st file = Ok false.
Proof.
  intros Hl Hp. unfold shouldProcessFile. rewrite Hl. cbn [excluded].
  rewrite Hp. reflexivity.
Qed.

Lemma shouldProcessFile_only (st : Settings) (file : TFile) (p : str) :
  excludePatterns st = [p] -> pattern_excludes p file = Ok false ->
  taggedFiles st !! path file = None ->
  shouldProcessFile st file = Ok true.
Proof.
  intros Hl Hp Ht. unfold shouldProcessFile. rewrite Hl. cbn [excluded].
  rewrite Hp. cbn [bind]. rewrite Ht. reflexivity.
Qed.






(** ** The first match *)

(** What [search] finds is the match at the leftmost position that has one. *)
Lemma search_first (p : pattern) (s : str) :
  forall prev b r,
    search p prev s = Some (b, r) ->
    exists post,
      s = b ++ post
      /\ match_at p (prev_after b prev) post = Some r
      /\ forall b' post', s = b' ++ post' -> (length b' < length b)%nat ->
           match_at p (prev_after b' prev) post' = None.
Proof.
  induction s as [|a s IH]; intros prev b r; simpl.
  - destruct (match_at p prev []) as [r0|] eqn:E; [|discriminate].
    intros H. injection H as <- <-. exists []. repeat split; auto.
    simpl. intros; lia.
  - destruct (match_at p prev (a :: s)) as [r0|] eqn:E.
    + intros H. injection H as <- <-. exists (a :: s). repeat split; auto.
      simpl. intros; lia.
    + destruct (search p (Some a) s) as [[b0 r0]|] eqn:S; [|discriminate].
      intros H. injection H as <- <-.
      destruct (IH _ _ _ S) as (post & -> & Hm & Hfirst).
      exists post. split; [reflexivity|]. split; [exact Hm|].
      intros b' post' Hs Hlen. destruct b' as [|c b'].
      * simpl in Hs. subst post'. exact E.
      * simpl in Hs. injection Hs as <- Hs. simpl.
        apply Hfirst; [exact Hs | simpl in Hlen; lia].
Qed.

Lemma search_prev_free (p : pattern) :
  boundary_free p = true ->
  forall s prev prev', search p prev s = search p prev' s.
Proof.
  intros Hp s. induction s as [|c s IHs]; intros u v; simpl;
    rewrite (match_at_prev p Hp u v); [reflexivity|].
  destruct (match_at p v (c :: s)); reflexivity.
Qed.

(** A lazy star over any character, before a pattern without word
    boundaries, gives what the search for that pattern gives. *)
Lemma lazy_any_search (p : pattern) :
  boundary_free p = true ->
  forall prev s,
    match_at (StarLazy any_char :: p) prev s
    = match search p None s with Some (_, r) => Some r | None => None end.
Proof.
  intros Hp prev s. revert prev. cbn [match_at].
  induction s as [|a s IH]; intros prev.
  - rewrite (match_at_prev p Hp prev None). simpl.
    destruct (match_at p None []); reflexivity.
  - rewrite (match_at_prev p Hp prev None). cbn [search].
    destruct (match_at p None (a :: s)) as [r|]; [reflexivity|].
    cbn [any_char]. rewrite IH.
    rewrite (search_prev_free p Hp s (Some a) None).
    destruct (search p None s) as [[b r]|]; reflexivity.
Qed.

(** ** Deterministic tags *)

Lemma existsb_str_eqb (x : str) (l : list str) :
  existsb (str_eqb x) l = true <-> In x l.
Proof.
  rewrite existsb_exists. split.
  - intros (y & Hy & E). apply str_eqb_eq in E. subst y. exact Hy.
  - intros H. exists x. split; [exact H | apply str_eqb_refl].
Qed.

Lemma set_add_In (x t : str) (l : list str) :
  In t (set_add x l) <-> t = x \/ In t l.
Proof.
  unfold set_add. destruct (existsb (str_eqb x) l) eqn:E.
  - apply existsb_str_eqb in E. split; [auto|]. intros [-> | H]; auto.
  - rewrite in_app_iff. simpl. split; intros H; intuition auto.
Qed.

Lemma set_add_NoDup (x : str) (l : list str) :
  List.NoDup l -> List.NoDup (set_add x l).
Proof.
  intros Hl. unfold set_add. destruct (existsb (str_eqb x) l) eqn:E; [exact Hl|].
  assert (~ In x l) as Hx.
  { intros H. apply existsb_str_eqb in H. congruence. }
  clear E. induction Hl as [|y l Hy Hl IH]; simpl.
  - constructor; [intros []|constructor].
  - constructor.
    + rewrite in_app_iff. simpl. intros [H | [H | []]]; [auto|].
      apply Hx. left. symmetry. exact H.
    + apply IH. intros H. apply Hx. right. exact H.
Qed.

Lemma collect_tags_spec (lc : str) (tags : list str) :
  forall acc added,
    collect_tags lc tags acc = Ok added ->
    List.NoDup acc ->
    List.NoDup added
    /\ forall t, In t added <->
         In t acc \/ exists tag, In tag tags /\ tag_matches lc tag = Ok true
                                 /\ t = hash_tag tag.
Proof.
  induction tags as [|tag tags IH]; intros acc added; simpl.
  - intros H Hacc. injection H as <-. split; [exact Hacc|].
    intros t. split; [auto|]. intros [H | (tag & [] & _)]. exact H.
  - destruct (tag_matches lc tag) as [m|e] eqn:M; simpl; [|discriminate].
    intros H Hacc. apply IH in H.
    + destruct H as [Hnd Hin]. split; [exact Hnd|]. intros t. rewrite Hin.
      destruct m.
      * rewrite set_add_In. split.
        -- intros [[-> | H] | (tag' & Ht & Hm & ->)]; auto.
           ++ right. exists tag. auto.
           ++ right. exists tag'. auto.
        -- intros [H | (tag' & [<- | Ht] & Hm & ->)]; auto.
           right. exists tag'. auto.
      * split.
        -- intros [H | (tag' & Ht & Hm & ->)]; auto. right. exists tag'. auto.
        -- intros [H | (tag' & [<- | Ht] & Hm & ->)]; auto; [congruence|].
           right. exists tag'. auto.
    + destruct m; [apply set_add_NoDup|]; exact Hacc.
Qed.

Lemma hash_tag_strip (tag : str) : hash_tag tag = "#"%char :: strip_hash tag.
Proof.
  unfold hash_tag, strip_hash. change (lit "#") with ["#"%char].
  destruct tag as [|c tag]; [reflexivity|]. cbn [startsWith].
  rewrite andb_true_r.
  destruct (ascii_eqb "#"%char c) eqn:E.
  - apply ascii_eqb_eq in E. subst c. rewrite ascii_eqb_refl. reflexivity.
  - assert (ascii_eqb c "#"%char = false) as ->; [|reflexivity].
    apply ascii_eqb_neq. apply ascii_eqb_neq in E. congruence.
Qed.

(** The deterministic pass with the pattern engine as a parameter. *)

Lemma collect_tags_modelled (lc : str) (tags : list str) :
  forall acc, collect_tags_by modelled_engine lc tags acc = collect_tags lc tags acc.
Proof.
  induction tags as [|tag tags IH]; intros acc; [reflexivity|].
  cbn [collect_tags_by collect_tags].
  change (tag_matches_by modelled_engine lc tag) with (tag_matches lc tag).
  destruct (tag_matches lc tag) as [m|e]; [|reflexivity]. cbn [bind]. apply IH.
Qed.

Lemma addDeterministicTags_modelled (content : str) (tags : list str) :
  addDeterministicTags_by modelled_engine content tags
  = addDeterministicTags content tags.
Proof.
  unfold addDeterministicTags_by, addDeterministicTags.
  rewrite collect_tags_modelled. reflexivity.
Qed.

Lemma processContentWithOllama_modelled (m : option str) (r : reply)
    (ts content : str) (tags : list str) :
  processContentWithOllama_by modelled_engine m r ts content tags
  = processContentWithOllama m r ts content tags.
Proof.
  unfold processContentWithOllama_by, processContentWithOllama.
  rewrite addDeterministicTags_modelled. reflexivity.
Qed.

Lemma collect_tags_by_spec (e : engine) (lc : str) (tags : list str) :
  forall acc added,
    collect_tags_by e lc tags acc = Ok added ->
    List.NoDup acc ->
    List.NoDup added
    /\ forall t, In t added <->
         In t acc \/ exists tag, In tag tags /\ tag_matches_by e lc tag = Ok true
                                 /\ t = hash_tag tag.
Proof.
  induction tags as [|tag tags IH]; intros acc added; cbn [collect_tags_by].
  - intros H Hacc. injection H as <-. split; [exact Hacc|].
    intros t. split; [auto|]. intros [H | (tag & [] & _)]. exact H.
  - destruct (tag_matches_by e lc tag) as [m|err] eqn:M; cbn [bind]; [|discriminate].
    intros H Hacc. apply IH in H.
    + destruct H as [Hnd Hin]. split; [exact Hnd|]. intros t. rewrite Hin.
      destruct m.
      * rewrite set_add_In. split.
        -- intros [[-> | H] | (tag' & Ht & Hm & ->)]; auto.
           ++ right. exists tag. split; [left; reflexivity|]. auto.
           ++ right. exists tag'. split; [right; exact Ht|]. auto.
        -- intros [H | (tag' & [<- | Ht] & Hm & ->)]; auto.
           right. exists tag'. auto.
      * split.
        -- intros [H | (tag' & Ht & Hm & ->)]; auto. right. exists tag'.
           split; [right; exact Ht|]. auto.
        -- intros [H | (tag' & [<- | Ht] & Hm & ->)]; auto; [congruence|].
           right. exists tag'. auto.
    + destruct m; [apply set_add_NoDup|]; exact Hacc.
Qed.

(** The loop ends with the set only when the engine has answered for every
    tag. *)
Lemma collect_tags_by_answers (e : engine) (lc : str) (tags : list str) :
  forall acc added,
    collect_tags_by e lc tags acc = Ok added ->
    forall tag, In tag tags -> exists b, tag_matches_by e lc tag = Ok b.
Proof.
  induction tags as [|tag tags IH]; intros acc added; cbn [collect_tags_by].
  - intros _ tag [].
  - destruct (tag_matches_by e lc tag) as [m|err] eqn:M; cbn [bind]; [|discriminate].
    intros H tag' [<- | Ht]; [eauto|]. exact (IH _ _ H tag' Ht).
Qed.

Lemma app_eq_len_le {A} (a x c y : list A) :
  a ++ x = c ++ y -> (length a <= length c)%nat ->
  exists w, x = w ++ y /\ c = a ++ w.
Proof.
  revert c. induction a as [|h a IH]; intros c H Hlen.
  - exists c. auto.
  - destruct c as [|k c]; [simpl in Hlen; lia|].
    simpl in H. injection H as <- H. simpl in Hlen.
    destruct (IH c H ltac:(lia)) as (w & -> & ->). exists w. auto.
Qed.

Lemma frontMatterPattern_eq :
  frontMatterPattern = lits fm_open ++ StarLazy any_char :: lits fm_close.
Proof. reflexivity. Qed.

Lemma match_lits_only (x : str) (prev : option ascii) (s r : str) :
  match_at (lits x) prev s = Some r -> s = x ++ r.
Proof.
  rewrite <- (app_nil_r (lits x)). intros H.
  apply match_at_lits_inv in H. destruct H as (s' & -> & H).
  simpl in H. congruence.
Qed.

Lemma frontMatterMatch_some (content fm : str) :
  frontMatterMatch content = Some fm ->
  frontmatter_block fm content
  /\ content = fm ++ skipn (length fm) content.
Proof.
  unfold frontMatterMatch. rewrite frontMatterPattern_eq.
  destruct (match_at _ None content) as [rest|] eqn:M; [|discriminate].
  intros H. injection H as <-.
  apply match_at_lits_inv in M. destruct M as (s1 & -> & M).
  rewrite lazy_any_search in M by reflexivity.
  destruct (search (lits fm_close) None s1) as [[b r]|] eqn:S; [|discriminate].
  injection M as ->. apply search_first in S.
  destruct S as (post & -> & Hm & Hfirst).
  apply match_lits_only in Hm. subst post.
  assert (firstn (length (fm_open ++ b ++ fm_close ++ rest) - length rest)
            (fm_open ++ b ++ fm_close ++ rest) = fm_open ++ b ++ fm_close) as ->.
  { replace (fm_open ++ b ++ fm_close ++ rest)
      with ((fm_open ++ b ++ fm_close) ++ rest) by (rewrite <- !app_assoc; reflexivity).
    rewrite length_app, Nat.add_sub. apply take_app_length. }
  split.
  - exists b, rest. split; [reflexivity|]. split.
    + rewrite <- !app_assoc. reflexivity.
    + intros body' rest' H. apply app_inv_head in H.
      destruct (Nat.le_gt_cases (length b) (length body')) as [|Hlt]; [assumption|].
      specialize (Hfirst body' (fm_close ++ rest') H Hlt).
      rewrite <- (app_nil_r (lits fm_close)), match_at_lits in Hfirst.
      discriminate.
  - replace (fm_open ++ b ++ fm_close ++ rest)
      with ((fm_open ++ b ++ fm_close) ++ rest) at 2
      by (rewrite <- !app_assoc; reflexivity).
    rewrite drop_app_length. rewrite <- !app_assoc. reflexivity.
Qed.


Lemma frontmatter_block_unique (fm fm' content : str) :
  frontmatter_block fm content -> frontmatter_block fm' content -> fm = fm'.
Proof.
  intros (b & rest & -> & Hc & Hmin) (b' & rest' & -> & Hc' & Hmin').
  assert (content = fm_open ++ b ++ fm_close ++ rest) as E
    by (rewrite Hc, <- !app_assoc; reflexivity).
  assert (content = fm_open ++ b' ++ fm_close ++ rest') as E'
    by (rewrite Hc', <- !app_assoc; reflexivity).
  pose proof (Hmin b' rest' E') as L. pose proof (Hmin' b rest E) as L'.
  rewrite E in E'. apply app_inv_head in E'.
  destruct (app_eq_len_le _ _ _ _ E' L) as (w & _ & Hb).
  assert (w = []) as ->.
  { apply (f_equal (@length ascii)) in Hb. rewrite length_app in Hb.
    destruct w; [reflexivity | simpl in Hb; lia]. }
  rewrite app_nil_r in Hb. subst b'. reflexivity.
Qed.

(** The pattern finds a block exactly when the content has one, and the
    block it finds is that one. *)
Lemma frontMatterMatch_iff (content fm : str) :
  frontMatterMatch content = Some fm <-> frontmatter_block fm content.
Proof.
  split; [intros H; apply (frontMatterMatch_some content fm H)|].
  intros Hb. destruct (frontMatterMatch content) as [fm'|] eqn:F.
  - f_equal. apply (frontmatter_block_unique fm' fm content); [|exact Hb].
    apply (frontMatterMatch_some content fm' F).
  - exfalso. destruct Hb as (b & rest & -> & Hc & _).
    unfold frontMatterMatch in F. rewrite frontMatterPattern_eq in F.
    rewrite Hc, <- !app_assoc, match_at_lits in F.
    rewrite lazy_any_search in F by reflexivity.
    destruct (search (lits fm_close) None (b ++ fm_close ++ rest))
      as [[b0 r0]|] eqn:S; [discriminate|].
    revert S. apply search_found. exists b, (fm_close ++ rest), rest.
    split; [reflexivity|].
    rewrite <- (app_nil_r (lits fm_close)), match_at_lits. reflexivity.
Qed.

Lemma frontMatterMatch_none (content : str) :
  frontMatterMatch content = None <-> ~ has_frontmatter content.
Proof.
  split.
  - intros H [fm Hb]. apply frontMatterMatch_iff in Hb. congruence.
  - intros H. destruct (frontMatterMatch content) as [fm|] eqn:F; [|reflexivity].
    exfalso. apply H. exists fm. apply frontMatterMatch_iff. exact F.
Qed.




(** ** Trimming *)

Lemma trimStart_drop_while (s : str) : trimStart s = drop_while is_space s.
Proof.
  induction s as [|c s IH]; simpl; [reflexivity|]. rewrite IH. reflexivity.
Qed.

Lemma drop_while_split (f : ascii -> bool) (s : str) :
  exists w, s = w ++ drop_while f s /\ Forall (fun c => f c = true) w.
Proof.
  induction s as [|c s (w & IH & Hw)]; simpl.
  - exists []. split; [reflexivity | constructor].
  - destruct (f c) eqn:E.
    + exists (c :: w). split; [simpl; congruence | constructor; assumption].
    + exists []. split; [reflexivity | constructor].
Qed.

Lemma drop_while_app (f : ascii -> bool) (a b : str) :
  drop_while f (a ++ b)
  = match drop_while f a with
    | [] => drop_while f b
    | x :: a' => (x :: a') ++ b
    end.
Proof.
  induction a as [|c a IH]; simpl; [reflexivity|].
  destruct (f c); [exact IH | reflexivity].
Qed.

Lemma drop_while_nil (f : ascii -> bool) (s : str) :
  drop_while f s = [] <-> Forall (fun c => f c = true) s.
Proof.
  induction s as [|x s IH]; simpl.
  - split; [constructor | reflexivity].
  - destruct (f x) eqn:E.
    + rewrite IH. split; [constructor; assumption | inversion 1; assumption].
    + split; [discriminate|]. inversion 1. congruence.
Qed.

Lemma drop_while_idem (f : ascii -> bool) (s : str) :
  drop_while f (drop_while f s) = drop_while f s.
Proof.
  induction s as [|x s IH]; simpl; [reflexivity|].
  destruct (f x) eqn:E; [exact IH|]. simpl. rewrite E. reflexivity.
Qed.

Lemma trimEnd_app (a b : str) :
  trimEnd (a ++ b)
  = match trimEnd b with
    | [] => trimEnd a
    | _ :: _ => a ++ trimEnd b
    end.
Proof.
  unfold trimEnd. rewrite rev_app_distr, !trimStart_drop_while, drop_while_app.
  destruct (drop_while is_space (rev b)) as [|x y] eqn:E; [reflexivity|].
  rewrite rev_app_distr, rev_involutive.
  destruct (rev (x :: y)) as [|z t] eqn:R; [|reflexivity].
  apply (f_equal (@rev ascii)) in R. rewrite rev_involutive in R. discriminate.
Qed.

Lemma trimEnd_prefix (s : str) : exists w, s = trimEnd s ++ w.
Proof.
  unfold trimEnd. rewrite trimStart_drop_while.
  destruct (drop_while_split is_space (rev s)) as (w & H & _).
  exists (rev w). rewrite <- rev_app_distr, <- H, rev_involutive. reflexivity.
Qed.

Lemma trimEnd_blank (s : str) :
  trimEnd s = [] -> Forall (fun c => is_space c = true) s.
Proof.
  unfold trimEnd. rewrite trimStart_drop_while. intros H.
  apply (f_equal (@rev ascii)) in H. rewrite rev_involutive in H. simpl in H.
  apply drop_while_nil in H. apply Forall_rev in H.
  rewrite rev_involutive in H. exact H.
Qed.

Lemma occurs_in_refl (s : str) : occurs_in s s.
Proof. exists [], []. rewrite app_nil_r. reflexivity. Qed.

Lemma occurs_in_nil (s : str) : occurs_in [] s.
Proof. exists [], s. reflexivity. Qed.

Lemma occurs_in_app (p s a b : str) : occurs_in p s -> occurs_in p (a ++ s ++ b).
Proof.
  intros (pre & post & ->). exists (a ++ pre), (post ++ b).
  rewrite <- !app_assoc. reflexivity.
Qed.

Lemma occurs_in_app_l (p s a : str) : occurs_in p s -> occurs_in p (a ++ s).
Proof.
  intros H. rewrite <- (app_nil_r s). apply occurs_in_app. exact H.
Qed.

Lemma occurs_in_trans (p q s : str) :
  occurs_in p q -> occurs_in q s -> occurs_in p s.
Proof.
  intros Hp (pre & post & ->). apply occurs_in_app. exact Hp.
Qed.

Lemma trim_blank (s : str) :
  Forall (fun c => is_space c = true) s -> trim s = [].
Proof.
  intros H. unfold trim. rewrite trimStart_drop_while.
  apply drop_while_nil in H. rewrite H. reflexivity.
Qed.

(** The trimmed text occurs in the text without its trailing whitespace. *)
Lemma trim_in_trimEnd (s : str) : occurs_in (trim s) (trimEnd s).
Proof.
  unfold trim. rewrite trimStart_drop_while.
  destruct (drop_while_split is_space s) as (w & H & Hw).
  remember (drop_while is_space s) as t eqn:Ht.
  rewrite H. rewrite trimEnd_app.
  destruct (trimEnd t) as [|x y] eqn:E; [apply occurs_in_nil|].
  apply occurs_in_app_l, occurs_in_refl.
Qed.

Lemma trim_occurs (s : str) : occurs_in (trim s) s.
Proof.
  eapply occurs_in_trans; [apply trim_in_trimEnd|].
  destruct (trimEnd_prefix s) as [w H]. exists [], w. simpl. exact H.
Qed.

(** Trimming a text that ends with [C] keeps the trimmed [C]. *)
Lemma trim_keeps_suffix (Z C : str) : occurs_in (trim C) (trim (Z ++ C)).
Proof.
  unfold trim at 2. rewrite trimStart_drop_while, drop_while_app.
  destruct (drop_while is_space Z) as [|x z] eqn:E.
  - rewrite <- trimStart_drop_while. apply occurs_in_refl.
  - rewrite trimEnd_app. destruct (trimEnd C) as [|c y] eqn:EC.
    + rewrite (trim_blank C); [apply occurs_in_nil|]. apply trimEnd_blank, EC.
    + rewrite <- EC. apply occurs_in_app_l, trim_in_trimEnd.
Qed.

(** ** The hashtag run *)

Lemma drop_while_stop (f : ascii -> bool) (X Y : str) (c : ascii) :
  f c = false -> exists X', drop_while f (X ++ c :: Y) = X' ++ c :: Y.
Proof.
  intros Hc. rewrite drop_while_app.
  destruct (drop_while f X) as [|x X'].
  - exists []. simpl. rewrite Hc. reflexivity.
  - exists (x :: X'). reflexivity.
Qed.

Lemma space_not_word (c : ascii) : is_space c = true -> is_word c = false.
Proof.
  destruct c as [[] [] [] [] [] [] [] []]; vm_compute; congruence.
Qed.

Lemma space_not_hash (c : ascii) : is_space c = true -> ascii_eqb "#"%char c = false.
Proof.
  destruct c as [[] [] [] [] [] [] [] []]; vm_compute; congruence.
Qed.

Lemma tagToken_inv (prev : option ascii) (s r : str) :
  match_at tagToken prev s = Some r ->
  exists a s', s = "#"%char :: a :: s' /\ is_word a = true
               /\ r = drop_while is_space (drop_while is_word s').
Proof.
  rewrite tagToken_match. destruct s as [|h [|a s']]; try discriminate.
  destruct (ascii_eqb "#"%char h) eqn:Eh; [|discriminate].
  destruct (is_word a) eqn:Ea; [|discriminate].
  intros H. injection H as <-. apply ascii_eqb_eq in Eh. subst h. eauto.
Qed.

Lemma tag_run_step (fuel : nat) (s rem : str) :
  tag_run fuel s = Some rem ->
  exists r1, match_at tagToken None s = Some r1
             /\ (rem = r1 \/ exists fuel', tag_run fuel' r1 = Some rem
                                           /\ fuel = S fuel').
Proof.
  destruct fuel as [|fuel]; cbn [tag_run];
    destruct (match_at tagToken None s) as [r1|]; try discriminate.
  - intros H. injection H as <-. eauto.
  - destruct (tag_run fuel r1) as [r'|] eqn:E; intros H; injection H as <-.
    + exists r1. split; [reflexivity|]. right. exists fuel. auto.
    + exists r1. auto.
Qed.

(** The run of tokens does not go past a character that is neither a hash
    sign, nor a word character, nor whitespace. *)
Lemma tag_run_stops (c : ascii) (Y : str) :
  ascii_eqb "#"%char c = false -> is_word c = false -> is_space c = false ->
  forall fuel X rem,
    tag_run fuel (X ++ c :: Y) = Some rem -> exists z, rem = z ++ c :: Y.
Proof.
  intros Hh Hw Hs. induction fuel as [|fuel IH]; intros X rem H;
    apply tag_run_step in H; destruct H as (r1 & Hm & Hrem);
    apply tagToken_inv in Hm; destruct Hm as (a & s' & Hs' & Ha & ->).
  all: destruct X as [|h [|a' X']]; simpl in Hs'; injection Hs' as Hs'; subst.
  all: try (rewrite ascii_eqb_refl in Hh; discriminate).
  all: try congruence.
  all: destruct (drop_while_stop is_word X' Y c Hw) as [X1 E1];
    rewrite E1 in Hrem.
  all: destruct (drop_while_stop is_space X1 Y c Hs) as [X2 E2];
    rewrite E2 in Hrem.
  - destruct Hrem as [-> | (fuel' & _ & Hf)]; [eauto | discriminate].
  - destruct Hrem as [-> | (fuel' & Hr & Hf)]; [eauto|].
    injection Hf as <-. eapply IH. exact Hr.
Qed.

(** The run of tokens over a text that ends with a space before [C], where
    [C] does not go on with a token after its leading whitespace: what is
    left ends with the whole of [C], or is [C] without its leading
    whitespace. *)
Lemma tag_run_space (sp : ascii) (C : str) :
  is_space sp = true ->
  match_at tagToken None (drop_while is_space C) = None ->
  forall fuel X rem,
    tag_run fuel (X ++ sp :: C) = Some rem ->
    (exists z, rem = z ++ C) \/ rem = drop_while is_space C.
Proof.
  intros Hsp Hno. pose proof (space_not_word sp Hsp) as Hw.
  pose proof (space_not_hash sp Hsp) as Hh.
  induction fuel as [|fuel IH]; intros X rem H;
    apply tag_run_step in H; destruct H as (r1 & Hm & Hrem);
    apply tagToken_inv in Hm; destruct Hm as (a & s' & Hs' & Ha & ->).
  all: destruct X as [|h [|a' X']]; simpl in Hs'; injection Hs' as Hs'; subst.
  all: try (rewrite ascii_eqb_refl in Hh; discriminate).
  all: try congruence.
  all: destruct (drop_while_stop is_word X' C sp Hw) as [X1 E1];
    rewrite E1 in Hrem.
  all: rewrite drop_while_app in Hrem.
  all: destruct (drop_while is_space X1) as [|x X2].
  all: try (cbn [drop_while] in Hrem; rewrite Hsp in Hrem).
  - destruct Hrem as [-> | (fuel' & _ & Hf)]; [auto | discriminate].
  - destruct Hrem as [-> | (fuel' & _ & Hf)]; [|discriminate].
    left. exists ((x :: X2) ++ [sp]). rewrite <- app_assoc. reflexivity.
  - destruct Hrem as [-> | (fuel' & Hr & Hf)]; [auto|].
    rewrite (tag_run_none fuel' _ Hno) in Hr. discriminate.
  - destruct Hrem as [-> | (fuel' & Hr & Hf)].
    + left. exists ((x :: X2) ++ [sp]). rewrite <- app_assoc. reflexivity.
    + injection Hf as <-. eapply IH. exact Hr.
Qed.

(** ** Removal of the tagged section *)

Lemma star_greedy_only (cls : ascii -> bool) (prev : option ascii) (s : str) :
  match_at [StarGreedy cls] prev s = Some (drop_while cls s).
Proof. apply star_greedy_max; reflexivity. Qed.

Lemma match_at_one (cls : ascii -> bool) (p : pattern) (prev : option ascii)
    (s : str) :
  match_at (One cls :: p) prev s
  = match s with
    | c :: s' => if cls c then match_at p (Some c) s' else None
    | [] => None
    end.
Proof. reflexivity. Qed.

Lemma section_tail_match (prev : option ascii) (y : str) :
  match_at section_tail prev (divider_open ++ LF :: y)
  = Some (drop_while (ascii_eqb LF) y).
Proof.
  unfold section_tail. rewrite match_at_lits. unfold chr.
  rewrite match_at_one, ascii_eqb_refl. apply star_greedy_only.
Qed.

Lemma section_tail_inv (prev : option ascii) (s r : str) :
  match_at section_tail prev s = Some r ->
  exists y, s = divider_open ++ LF :: y /\ r = drop_while (ascii_eqb LF) y.
Proof.
  unfold section_tail. intros H. apply match_at_lits_inv in H.
  destruct H as (s' & -> & H). unfold chr in H. rewrite match_at_one in H.
  destruct s' as [|c y]; [discriminate|].
  destruct (ascii_eqb LF c) eqn:E; [|discriminate].
  apply ascii_eqb_eq in E. subst c.
  rewrite star_greedy_only in H. injection H as <-. eauto.
Qed.

Lemma taggedSectionPattern_eq :
  taggedSectionPattern
  = lits marker ++ StarLazy any_char :: lits header_close ++ summary_part.
Proof. reflexivity. Qed.

Lemma assemble_eq (ts R P : str) :
  assemble ts R P
  = marker ++ (" "%char :: ts ++ [LF]) ++ header_close
    ++ R ++ divider_open ++ LF :: LF :: P.
Proof.
  unfold assemble. cbn [app]. rewrite <- !app_assoc. reflexivity.
Qed.

(** What the divider and the line breaks after it leave, when they are
    found at or before the divider that the assembly wrote. *)
Lemma divider_found (x y P : str) :
  divider_open ++ LF :: y = x ++ divider_open ++ LF :: LF :: P ->
  drop_while (ascii_eqb LF) y = drop_while (ascii_eqb LF) P
  \/ exists u, drop_while (ascii_eqb LF) y = u ++ lit "---" ++ [LF; LF] ++ P.
Proof.
  unfold divider_open. change (lit "---") with ["-"%char; "-"%char; "-"%char].
  unfold LF. simpl app. intros H.
  destruct x as [|x0 [|x1 [|x2 [|x3 [|x4 [|x5 x]]]]]]; simpl in H;
    try discriminate H.
  - injection H as ->. left. reflexivity.
  - injection H as _ _ _ _ _ ->. right. exists []. reflexivity.
  - injection H as _ _ _ _ _ _ ->. right.
    rewrite drop_while_app.
    destruct (drop_while (ascii_eqb "010"%char) x) as [|z u].
    + exists []. reflexivity.
    + exists ((z :: u) ++ ["010"%char; "010"%char]). rewrite <- app_assoc.
      reflexivity.
Qed.

Lemma summary_part_found (prev : option ascii) (pre y : str) :
  exists r, match_at summary_part prev (pre ++ divider_open ++ LF :: y) = Some r.
Proof.
  unfold summary_part. rewrite lazy_any_search by reflexivity.
  destruct (search section_tail None (pre ++ divider_open ++ LF :: y))
    as [[b r]|] eqn:S; [eauto|].
  exfalso. revert S. apply search_found.
  exists pre, (divider_open ++ LF :: y), (drop_while (ascii_eqb LF) y).
  split; [reflexivity | apply section_tail_match].
Qed.

Lemma summary_part_bound (prev : option ascii) (w R P r : str) :
  match_at summary_part prev (w ++ R ++ divider_open ++ LF :: LF :: P) = Some r ->
  r = drop_while (ascii_eqb LF) P
  \/ exists u, r = u ++ lit "---" ++ [LF; LF] ++ P.
Proof.
  unfold summary_part. rewrite lazy_any_search by reflexivity.
  destruct (search section_tail None _) as [[b2 r']|] eqn:S; [|discriminate].
  intros H. injection H as ->. apply search_first in S.
  destruct S as (post2 & Hpost & Hm & Hmin).
  assert (length b2 <= length (w ++ R))%nat as Hlen.
  { destruct (Nat.le_gt_cases (length b2) (length (w ++ R))) as [|Hlt]; [assumption|].
    specialize (Hmin (w ++ R) (divider_open ++ LF :: LF :: P)).
    rewrite section_tail_match in Hmin.
    rewrite <- app_assoc in Hmin. specialize (Hmin eq_refl Hlt). discriminate. }
  rewrite app_assoc in Hpost. symmetry in Hpost.
  destruct (app_eq_len_le _ _ _ _ Hpost Hlen) as (x & -> & _).
  apply section_tail_inv in Hm. destruct Hm as (y & Hy & ->).
  symmetry in Hy. apply divider_found in Hy.
  destruct Hy as [-> | [u ->]]; [|eauto].
  left. reflexivity.
Qed.

(** On an assembled document the tagged section is found at the start, and
    what is left after it is the content that was wrapped, without its
    leading line breaks, or a text that ends with a divider and that
    content. *)
Lemma section_removed (ts R P : str) :
  exists r,
    match_at taggedSectionPattern None (assemble ts R P) = Some r
    /\ (r = drop_while (ascii_eqb LF) P
        \/ exists u, r = u ++ lit "---" ++ [LF; LF] ++ P).
Proof.
  rewrite taggedSectionPattern_eq, assemble_eq, match_at_lits.
  rewrite lazy_any_search by reflexivity.
  set (H0 := " "%char :: ts ++ [LF]).
  set (Rest := R ++ divider_open ++ LF :: LF :: P).
  set (Pat1 := lits header_close ++ summary_part).
  assert (boundary_free Pat1 = true) as Hfree by reflexivity.
  destruct (summary_part_found (prev_after header_close None) R (LF :: P))
    as [r0 Hr0].
  assert (match_at Pat1 None (header_close ++ Rest) = Some r0) as Hat.
  { unfold Pat1. rewrite match_at_lits. exact Hr0. }
  destruct (search Pat1 None (H0 ++ header_close ++ Rest)) as [[b r]|] eqn:S.
  - exists r. split; [reflexivity|]. apply search_first in S.
    destruct S as (post & Hpost & Hm & Hmin).
    assert (length b <= length H0)%nat as Hlen.
    { destruct (Nat.le_gt_cases (length b) (length H0)) as [|Hlt]; [assumption|].
      specialize (Hmin H0 (header_close ++ Rest) eq_refl Hlt).
      rewrite (match_at_prev Pat1 Hfree _ None) in Hmin. congruence. }
    unfold Pat1 in Hm. apply match_at_lits_inv in Hm.
    destruct Hm as (post1 & -> & Hm).
    symmetry in Hpost. destruct (app_eq_len_le _ _ _ _ Hpost Hlen) as (w0 & Hw0 & _).
    rewrite app_assoc in Hw0.
    assert (length header_close <= length (w0 ++ header_close))%nat as Hlen2.
    { rewrite length_app. lia. }
    destruct (app_eq_len_le _ _ _ _ Hw0 Hlen2) as (w & -> & _).
    unfold Rest in Hm. eapply summary_part_bound. exact Hm.
  - exfalso. revert S. apply search_found.
    exists H0, (header_close ++ Rest), r0. split; [reflexivity|].
    rewrite (match_at_prev Pat1 Hfree _ None). exact Hat.
Qed.

(** ** The round trip *)

(** The text [T] is [C] without some of its leading whitespace. *)
Lemma strip_leading (ws T C : str) :
  Forall (fun c => is_space c = true) ws -> C = ws ++ T ->
  match_at tagToken None (drop_while is_space C) = None ->
  match_at tagToken None T = None /\ occurs_in (trim C) T.
Proof.
  intros Hws -> Hno.
  assert (drop_while is_space (ws ++ T) = drop_while is_space T) as E.
  { rewrite drop_while_app. apply drop_while_nil in Hws. rewrite Hws. reflexivity. }
  split.
  - destruct (match_at tagToken None T) as [r|] eqn:M; [|reflexivity].
    pose proof M as M'. apply tagToken_inv in M'.
    destruct M' as (a & s' & HT & _ & _).
    assert (drop_while is_space T = T) as ET by (rewrite HT; reflexivity).
    rewrite E, ET in Hno. congruence.
  - unfold trim. rewrite trimStart_drop_while, E, <- trimStart_drop_while.
    apply trim_occurs.
Qed.

Lemma untag_fst (content : str) :
  fst (untag content)
  = let cleaned := if isAlreadyTagged content
                   then remove_first taggedSectionPattern content
                   else content in
    match tagPattern cleaned with
    | Some r => trim r
    | None => cleaned
    end.
Proof.
  unfold untag. destruct (isAlreadyTagged content); simpl;
    destruct (tagPattern _); reflexivity.
Qed.

(** The second pass of [untag] on the three shapes that the first pass can
    leave. *)
Lemma strip_shape_leading (ws T C : str) :
  Forall (fun c => is_space c = true) ws -> C = ws ++ T ->
  match_at tagToken None (drop_while is_space C) = None ->
  occurs_in (trim C)
    (match tagPattern T with Some r => trim r | None => T end).
Proof.
  intros Hws HC Hno. destruct (strip_leading ws T C Hws HC Hno) as [Hm Ho].
  unfold tagPattern. rewrite (tag_run_none _ _ Hm). exact Ho.
Qed.

Lemma strip_shape_space (X C : str) :
  match_at tagToken None (drop_while is_space C) = None ->
  occurs_in (trim C)
    (match tagPattern (X ++ " "%char :: C) with
     | Some r => trim r
     | None => X ++ " "%char :: C
     end).
Proof.
  intros Hno. unfold tagPattern.
  destruct (tag_run _ (X ++ " "%char :: C)) as [rem|] eqn:E.
  - apply (tag_run_space " "%char C eq_refl Hno) in E.
    destruct E as [[z ->] | ->].
    + apply trim_keeps_suffix.
    + unfold trim. rewrite !trimStart_drop_while, drop_while_idem.
      apply occurs_in_refl.
  - change (X ++ " "%char :: C) with (X ++ [" "%char] ++ C).
    rewrite app_assoc. apply occurs_in_app_l, trim_occurs.
Qed.

Lemma strip_shape_divider (u Z C : str) :
  occurs_in (trim C)
    (match tagPattern (u ++ lit "---" ++ [LF; LF] ++ Z ++ C) with
     | Some r => trim r
     | None => u ++ lit "---" ++ [LF; LF] ++ Z ++ C
     end).
Proof.
  unfold tagPattern.
  destruct (tag_run _ (u ++ lit "---" ++ [LF; LF] ++ Z ++ C)) as [rem|] eqn:E.
  - change (u ++ lit "---" ++ [LF; LF] ++ Z ++ C)
      with (u ++ "-"%char :: ("-"%char :: "-"%char :: LF :: LF :: Z ++ C)) in E.
    apply tag_run_stops in E; try reflexivity. destruct E as [z ->].
    change (z ++ "-"%char :: "-"%char :: "-"%char :: LF :: LF :: Z ++ C)
      with (z ++ ["-"%char; "-"%char; "-"%char; LF; LF] ++ Z ++ C).
    rewrite !app_assoc. apply trim_keeps_suffix.
  - rewrite !app_assoc. apply occurs_in_app_l, trim_occurs.
Qed.

Lemma marker_head :
  marker = "-"%char :: "-"%char :: "-"%char :: LF :: lit "LLM-tagged:".
Proof. reflexivity. Qed.

(** A prefix without line breaks, ended by a space, brings no marker. *)
Lemma marker_not_created (X C : str) :
  Forall (fun c => ascii_eqb LF c = false) X ->
  includes marker (X ++ " "%char :: C) = includes marker C.
Proof.
  assert (ascii_eqb "-"%char " "%char = false) as Hd by reflexivity.
  assert (ascii_eqb LF " "%char = false) as Hl by reflexivity.
  induction 1 as [|x X Hx HX IH].
  - rewrite marker_head. cbn [app includes startsWith]. rewrite Hd. reflexivity.
  - cbn [app includes]. rewrite IH.
    assert (startsWith marker (x :: X ++ " "%char :: C) = false) as ->;
      [|reflexivity].
    rewrite marker_head.
    destruct HX as [|x1 X1 Hx1 HX]; cbn [app startsWith];
      [rewrite Hd, andb_false_r; reflexivity|].
    destruct HX as [|x2 X2 Hx2 HX]; cbn [app startsWith];
      [rewrite Hd, !andb_false_r; reflexivity|].
    destruct HX as [|x3 X3 Hx3 HX]; cbn [app startsWith];
      [rewrite Hl, !andb_false_r; reflexivity|].
    rewrite Hx3, !andb_false_r. reflexivity.
Qed.

Lemma join_Forall (P : ascii -> Prop) (sep : str) (l : list str) :
  Forall P sep -> Forall (Forall P) l -> Forall P (join sep l).
Proof.
  intros Hsep. induction 1 as [|x l Hx Hl IH]; [constructor|].
  destruct l as [|y l]; [exact Hx|].
  change (join sep (x :: y :: l)) with (x ++ sep ++ join sep (y :: l)).
  apply Forall_app. split; [exact Hx|]. apply Forall_app. split; assumption.
Qed.

Lemma single_line_no_LF (s : str) :
  single_line s -> Forall (fun c => ascii_eqb LF c = false) s.
Proof.
  unfold single_line. intros H. eapply Forall_impl; [exact H|].
  intros c. destruct c as [[] [] [] [] [] [] [] []]; vm_compute; congruence.
Qed.

Lemma strip_hash_suffix (tag : str) (P : ascii -> Prop) :
  Forall P tag -> Forall P (strip_hash tag).
Proof.
  intros H. unfold strip_hash. destruct H as [|c t Hc Ht]; [constructor|].
  destruct (ascii_eqb c "#"%char); [exact Ht | constructor; assumption].
Qed.

(** What the deterministic pass returns, whatever the engine: the content
    when no tag matches, and otherwise the content with the run of the
    matched tags right after its leading frontmatter block, at the very
    start when it has none. *)
Lemma deterministic_pass_by (e : engine) (C P : str) (V : list str) :
  addDeterministicTags_by e C V = Ok P ->
  (P = C /\ forall tag, In tag V -> tag_matches_by e (toLowerCase C) tag = Ok false)
  \/ exists run,
       matched_run e C V run
       /\ match frontMatterMatch C with
          | Some fm => P = fm ++ run ++ skipn (length fm) C
          | None => P = run ++ C
          end.
Proof.
  unfold addDeterministicTags_by. cbv zeta.
  destruct (collect_tags_by e (toLowerCase C) V []) as [added|err] eqn:Hc;
    [|discriminate].
  cbn [bind].
  destruct (collect_tags_by_spec _ _ _ _ _ Hc (List.NoDup_nil _)) as [Hnd Hin].
  destruct added as [|t0 added].
  { intros H. injection H as <-. left. split; [reflexivity|].
    intros tag Ht. destruct (collect_tags_by_answers _ _ _ _ _ Hc tag Ht) as [[|] Hb];
      [|exact Hb].
    exfalso. apply (proj2 (Hin (hash_tag tag))). right. eauto. }
  intros H. right. exists (join (lit " ") (t0 :: added) ++ lit " "). split.
  - exists (t0 :: added). split; [discriminate|]. split; [exact Hnd|].
    split; [|reflexivity]. intros t. rewrite Hin. split.
    + intros [[] | Ht]. exact Ht.
    + intros Ht. right. exact Ht.
  - destruct (frontMatterMatch C) as [fm|]; injection H as <-;
      rewrite <- app_assoc; reflexivity.
Qed.

Lemma matched_run_shape (e : engine) (C : str) (V : list str) (run : str) :
  Forall single_line V -> matched_run e C V run ->
  exists J, run = ("#"%char :: J) ++ [" "%char]
            /\ Forall (fun c => ascii_eqb LF c = false) ("#"%char :: J).
Proof.
  intros HV (added & Hne & _ & Hin & ->).
  destruct added as [|t0 added]; [congruence|].
  assert (forall t, In t (t0 :: added) -> exists tag, In tag V /\ t = hash_tag tag)
    as Hin'.
  { intros t Ht. apply Hin in Ht. destruct Ht as (tag & Htag & _ & ->). eauto. }
  assert (Forall (Forall (fun c => ascii_eqb LF c = false)) (t0 :: added)) as Hall.
  { apply List.Forall_forall. intros t Ht. apply Hin' in Ht.
    destruct Ht as (tag & Htag & ->).
    rewrite hash_tag_strip. constructor; [reflexivity|].
    apply strip_hash_suffix, single_line_no_LF.
    rewrite List.Forall_forall in HV. apply HV, Htag. }
  assert (exists J, join (lit " ") (t0 :: added) = "#"%char :: J) as [J HJ].
  { destruct (Hin' t0 ltac:(left; reflexivity)) as (tag & _ & ->).
    rewrite hash_tag_strip. destruct added as [|t1 added]; simpl; eauto. }
  exists J. rewrite <- HJ. split; [reflexivity|].
  apply join_Forall; [|exact Hall]. repeat constructor.
Qed.

Lemma search_here (p : pattern) (prev : option ascii) (s r : str) :
  match_at p prev s = Some r -> search p prev s = Some ([], r).
Proof. intros H. destruct s; simpl; rewrite H; reflexivity. Qed.

(** C3, as stated, fails in two ways.  With a frontmatter block the run of
    tags is inserted after the block, where [untag] does not look for it:
    the tags stay between the block and the text.  And after a removal of
    leading tags the whole result is trimmed: a final line break is lost. *)
Lemma roundtrip_counterexamples :
  let model := Some (lit "llama2") in
  let blank := summary_reply (lit "") in
  let ts := lit "2024-01-01T00:00:00.000Z" in
  (~ occurs_in marker note_with_frontmatter
   /\ ~ begins_with_hashtags (trimStart note_with_frontmatter)
   /\ processContentWithOllama model blank ts note_with_frontmatter [lit "ml"]
      = Ok (fm_open ++ lit "title: x" ++ fm_close ++ lit "#ml I study ml")
   /\ untag (fm_open ++ lit "title: x" ++ fm_close ++ lit "#ml I study ml")
      = (fm_open ++ lit "title: x" ++ fm_close ++ lit "#ml I study ml", false)
   /\ ~ occurs_in note_with_frontmatter
        (fm_open ++ lit "title: x" ++ fm_close ++ lit "#ml I study ml"))
  /\ (~ occurs_in marker note_with_final_newline
      /\ ~ begins_with_hashtags (trimStart note_with_final_newline)
      /\ processContentWithOllama model blank ts note_with_final_newline [lit "ml"]
         = Ok (lit "#ml I study ml" ++ [LF])
      /\ untag (lit "#ml I study ml" ++ [LF]) = (lit "I study ml", true)
      /\ ~ occurs_in note_with_final_newline (lit "I study ml")).
Proof.
  intros model blank ts.
  split.
  - split; [apply includes_false; reflexivity|].
    split; [intros H; apply begins_with_hashtags_head in H;
            destruct H as (a & s' & H & _); discriminate H|].
    split; [reflexivity|]. split; [reflexivity|].
    apply includes_false. reflexivity.
  - split; [apply includes_false; reflexivity|].
    split; [intros H; apply begins_with_hashtags_head in H;
            destruct H as (a & s' & H & _); discriminate H|].
    split; [reflexivity|]. split; [reflexivity|].
    apply includes_false. reflexivity.
Qed.

(** C3 (round trip), amended.  Take a content [C] without the marker, whose
    first text after leading whitespace is not a hashtag token, and a
    vocabulary of one-line tags; let [C] have no leading frontmatter block,
    or let no tag of the vocabulary match.  Whatever the pattern engine and
    the service answer, when synthesis returns [S], the content that
    untagging [S] leaves holds [trim C], the content without its leading
    and trailing whitespace, as a substring. *)
Theorem roundtrip_trimmed (e : engine) (model : option str) (r : reply)
    (ts C S : str) (V : list str) :
  ~ occurs_in marker C ->
  ~ begins_with_hashtags (trimStart C) ->
  Forall single_line V ->
  ~ has_frontmatter C
  \/ (forall tag, In tag V -> tag_matches_by e (toLowerCase C) tag <> Ok true) ->
  processContentWithOllama_by e model r ts C V = Ok S ->
  occurs_in (trim C) (fst (untag S)).
Proof.
  intros Hm Hh HV Hcase HS.
  assert (match_at tagToken None (drop_while is_space C) = None) as Hno.
  { rewrite <- trimStart_drop_while. apply no_hashtags_no_token, Hh. }
  apply includes_false in Hm.
  unfold processContentWithOllama_by, isAlreadyTagged in HS.
  destruct model as [[|m model]|]; try discriminate. rewrite Hm in HS.
  destruct (addDeterministicTags_by e C V) as [P|err] eqn:HP; [|discriminate].
  cbn [bind] in HS. destruct r as [| |data]; try discriminate.
  destruct (response_trim data) as [R|err]; [|discriminate]. cbn [bind] in HS.
  assert (P = C
          \/ exists J, P = ("#"%char :: J) ++ " "%char :: C
                       /\ Forall (fun c => ascii_eqb LF c = false) ("#"%char :: J))
    as Hshape.
  { destruct (deterministic_pass_by e C P V HP) as [[-> _] | (run & Hrun & HPr)];
      [left; reflexivity|].
    destruct Hcase as [Hfm | Hnone].
    - right. apply frontMatterMatch_none in Hfm. rewrite Hfm in HPr. subst P.
      destruct (matched_run_shape e C V run HV Hrun) as (J & -> & HJ).
      exists J. rewrite <- app_assoc. auto.
    - exfalso. destruct Hrun as (added & Hne & _ & Hin & _).
      destruct added as [|t0 added]; [congruence|].
      destruct (proj1 (Hin t0) ltac:(left; reflexivity)) as (tag & Ht & Hmt & _).
      exact (Hnone tag Ht Hmt). }
  rewrite untag_fst.
  destruct (truthy R); injection HS as <-.
  - rewrite assemble_tagged. cbv zeta. unfold remove_first.
    destruct (section_removed ts R P) as (rem & Hrem & Hform).
    rewrite (search_here _ _ _ _ Hrem). cbn [app].
    destruct Hform as [-> | [u ->]]; destruct Hshape as [-> | (J & -> & HJ)].
    + destruct (drop_while_split (ascii_eqb LF) C) as (w & HC & Hw).
      apply (strip_shape_leading w); [|exact HC|exact Hno].
      eapply Forall_impl; [exact Hw|]. intros c Hc. apply ascii_eqb_eq in Hc.
      subst c. reflexivity.
    + apply (strip_shape_space ("#"%char :: J)). exact Hno.
    + apply (strip_shape_divider u []).
    + replace (("#"%char :: J) ++ " "%char :: C)
        with ((("#"%char :: J) ++ [" "%char]) ++ C)
        by (rewrite <- app_assoc; reflexivity).
      apply strip_shape_divider.
  - destruct Hshape as [-> | (J & -> & HJ)].
    + unfold isAlreadyTagged. rewrite Hm. cbv zeta.
      apply (strip_shape_leading []); [constructor | reflexivity | exact Hno].
    + unfold isAlreadyTagged. rewrite (marker_not_created _ C HJ), Hm. cbv zeta.
      apply strip_shape_space. exact Hno.
Qed.

(** The round trip of a note that ends with a line break, with the modelled
    engine. *)
Lemma roundtrip_trimmed_witness :
  let S := assemble (lit "2024-01-01T00:00:00.000Z") (lit "A note. #ai")
             (lit "#ml I study ml" ++ [LF]) in
  processContentWithOllama (Some (lit "llama2"))
    (summary_reply (lit " A note. #ai ")) (lit "2024-01-01T00:00:00.000Z")
    note_with_final_newline [lit "ml"] = Ok S
  /\ untag S = (lit "I study ml", true)
  /\ occurs_in (trim note_with_final_newline) (fst (untag S)).
Proof.
  intros S. split; [reflexivity|]. split; [reflexivity|].
  apply (roundtrip_trimmed modelled_engine (Some (lit "llama2"))
           (summary_reply (lit " A note. #ai ")) (lit "2024-01-01T00:00:00.000Z")
           note_with_final_newline S [lit "ml"]).
  - apply includes_false. reflexivity.
  - intros H. apply begins_with_hashtags_head in H.
    destruct H as (a & s' & H & _). discriminate H.
  - repeat constructor.
  - left. apply frontMatterMatch_none. reflexivity.
  - reflexivity.
Defined.

(** ** Whole-word matching *)

(** C7, on the code.  The tag is put into the pattern as it is written: a
    dot in it stands for any character.  The tag [node.js] matches a content
    in which it does not occur, and is added to it.  The two examples of the
    claim hold. *)
Theorem unescaped_tag_matches :
  tag_matches (toLowerCase (lit "I use nodexjs daily")) (lit "node.js") = Ok true
  /\ ~ occurs_in (toLowerCase (strip_hash (lit "node.js")))
         (toLowerCase (lit "I use nodexjs daily"))
  /\ addDeterministicTags (lit "I use nodexjs daily") [lit "node.js"]
     = Ok (lit "#node.js I use nodexjs daily")
  /\ tag_matches (toLowerCase (lit "I study ml today")) (lit "ml") = Ok true
  /\ tag_matches (toLowerCase (lit "I study html today")) (lit "ml") = Ok false.
Proof.
  split; [reflexivity|]. split; [apply includes_false; reflexivity|].
  repeat split; reflexivity.
Qed.

Lemma compile_cons (ci : bool) (c : ascii) (rest : str) :
  compile ci (c :: rest)
  = let literal (x : ascii) := if ci then chr_i x else chr x in
    match rest with
    | d :: rest' =>
        if ascii_eqb c "\"%char && ascii_eqb d "b"%char then
          try! p := compile ci rest' in Ok (WordB :: p)
        else if ascii_eqb c "\"%char && ascii_eqb d "."%char then
          try! p := compile ci rest' in Ok (literal "."%char :: p)
        else if ascii_eqb c "."%char && ascii_eqb d "*"%char then
          try! p := compile ci rest' in Ok (StarGreedy not_line_terminator :: p)
        else if ascii_eqb c "."%char then
          try! p := compile ci rest in Ok (One not_line_terminator :: p)
        else if is_syntax_char c then Err PatternNotLiteral
        else try! p := compile ci rest in Ok (literal c :: p)
    | [] =>
        if ascii_eqb c "."%char then Ok [One not_line_terminator]
        else if is_syntax_char c then Err PatternNotLiteral
        else Ok [literal c]
    end.
Proof. destruct rest; reflexivity. Qed.

Lemma plain_char (c : ascii) :
  is_syntax_char c = false ->
  ascii_eqb c "\"%char = false /\ ascii_eqb c "."%char = false.
Proof.
  destruct c as [[] [] [] [] [] [] [] []]; vm_compute; split; congruence.
Qed.

(** A source without syntax characters compiles to its literals. *)
Lemma compile_plain (ci : bool) (x : str) :
  existsb is_syntax_char x = false ->
  forall rest,
    compile ci (x ++ rest)
    = try! p := compile ci rest in
      Ok (map (fun c => if ci then chr_i c else chr c) x ++ p).
Proof.
  induction x as [|c x IH]; intros Hx rest.
  - simpl. destruct (compile ci rest); reflexivity.
  - simpl in Hx. apply orb_false_iff in Hx. destruct Hx as [Hc Hx].
    destruct (plain_char c Hc) as [Hb Hd].
    change ((c :: x) ++ rest) with (c :: (x ++ rest)).
    rewrite compile_cons. cbv zeta. rewrite Hb, Hd, Hc. cbn [andb].
    destruct (x ++ rest) as [|d t] eqn:E.
    + apply app_eq_nil in E. destruct E as [-> ->]. reflexivity.
    + rewrite <- E, (IH Hx rest).
      destruct (compile ci rest); reflexivity.
Qed.

Lemma tag_regex_plain (x : str) :
  existsb is_syntax_char x = false ->
  tag_regex x = Ok (WordB :: lits_i x ++ [WordB]).
Proof.
  intros Hx. unfold tag_regex.
  change (lit "\b" ++ x ++ lit "\b")
    with ("\"%char :: "b"%char :: (x ++ lit "\b")).
  rewrite compile_cons. cbv zeta.
  replace (ascii_eqb "\"%char "\"%char && ascii_eqb "b"%char "b"%char)
    with true by reflexivity.
  rewrite (compile_plain true x Hx).
  replace (compile true (lit "\b")) with (Ok [WordB]) by reflexivity.
  reflexivity.
Qed.







(** ** Fuel of the hashtag run *)

Lemma drop_while_length (f : ascii -> bool) (s : str) :
  (length (drop_while f s) <= length s)%nat.
Proof.
  induction s as [|c s IH]; simpl; [lia|]. destruct (f c); simpl; lia.
Qed.

(** The length of the text is fuel enough: with any larger amount the run
    is the same. *)
Lemma tag_run_fuel (fuel : nat) :
  forall s fuel', (length s <= fuel)%nat -> (length s <= fuel')%nat ->
    tag_run fuel s = tag_run fuel' s.
Proof.
  induction fuel as [|fuel IH]; intros s fuel' H H'.
  - destruct s; [|simpl in H; lia]. rewrite !tag_run_none; reflexivity.
  - destruct (match_at tagToken None s) as [r1|] eqn:M.
    + pose proof M as M'. apply tagToken_inv in M'.
      destruct M' as (a & s' & -> & _ & ->).
      pose proof (drop_while_length is_space (drop_while is_word s')) as L1.
      pose proof (drop_while_length is_word s') as L2.
      simpl in H, H'. destruct fuel' as [|fuel']; [lia|].
      cbn [tag_run]. rewrite M.
      rewrite (IH _ fuel') by lia. reflexivity.
    + rewrite !tag_run_none by exact M. reflexivity.
Qed.

(** ** An unchanged synthesis *)

(** No tag matches and the summary is blank: synthesis gives the content
    back. *)
Lemma synthesis_unchanged (model ts C : str) (V : list str) (data : json) :
  model <> [] ->
  isAlreadyTagged C = false ->
  collect_tags (toLowerCase C) V [] = Ok [] ->
  response_trim data = Ok [] ->
  processContentWithOllama (Some model) (Body data) ts C V = Ok C.
Proof.
  intros Hm Ht Hc Hr. unfold processContentWithOllama, addDeterministicTags.
  destruct model as [|m model]; [congruence|].
  rewrite Ht, Hc. cbn [bind]. rewrite Hr. reflexivity.
Qed.

(** ** Synthesis only inserts *)



(** ** What untagging leaves *)

Lemma occurs_in_length (p s : str) :
  occurs_in p s -> (length p <= length s)%nat.
Proof. intros (pre & post & ->). rewrite !length_app. lia. Qed.

Lemma trim_length (s : str) : (length (trim s) <= length s)%nat.
Proof. apply occurs_in_length, trim_occurs. Qed.

Lemma remove_first_length (p : pattern) (s : str) :
  (length (remove_first p s) <= length s)%nat.
Proof.
  unfold remove_first. destruct (search p None s) as [[b r]|] eqn:S; [|lia].
  apply search_first in S. destruct S as (post & -> & Hm & _).
  apply match_at_suffix in Hm. destruct Hm as [m ->].
  rewrite !length_app. lia.
Qed.

Lemma tagToken_shorter (prev : option ascii) (s r : str) :
  match_at tagToken prev s = Some r -> (length r + 2 <= length s)%nat.
Proof.
  intros H. apply tagToken_inv in H. destruct H as (a & s' & -> & _ & ->).
  pose proof (drop_while_length is_space (drop_while is_word s')).
  pose proof (drop_while_length is_word s'). simpl. lia.
Qed.

Lemma tag_run_none_inv (fuel : nat) (s : str) :
  tag_run fuel s = None -> match_at tagToken None s = None.
Proof.
  destruct fuel; cbn [tag_run]; destruct (match_at tagToken None s); try reflexivity.
  - discriminate.
  - destruct (tag_run fuel l); discriminate.
Qed.

Lemma tag_run_shorter (fuel : nat) :
  forall s r, tag_run fuel s = Some r -> (length r + 2 <= length s)%nat.
Proof.
  induction fuel as [|fuel IH]; intros s r; cbn [tag_run];
    destruct (match_at tagToken None s) as [r1|] eqn:M; try discriminate.
  - intros H. injection H as <-. exact (tagToken_shorter _ _ _ M).
  - pose proof (tagToken_shorter _ _ _ M) as L.
    destruct (tag_run fuel r1) as [r'|] eqn:T; intros H; injection H as <-.
    + apply IH in T. lia.
    + exact L.
Qed.

(** With the length of the text as fuel the run is complete: no token
    matches at the text after it. *)
Lemma tag_run_complete (fuel : nat) :
  forall s r, (length s <= fuel)%nat -> tag_run fuel s = Some r ->
    match_at tagToken None r = None.
Proof.
  induction fuel as [|fuel IH]; intros s r Hlen; cbn [tag_run];
    destruct (match_at tagToken None s) as [r1|] eqn:M; try discriminate.
  - apply tagToken_shorter in M. lia.
  - pose proof (tagToken_shorter _ _ _ M) as L.
    destruct (tag_run fuel r1) as [r'|] eqn:T; intros H; injection H as <-.
    + apply (IH r1); [lia | exact T].
    + exact (tag_run_none_inv _ _ T).
Qed.

Lemma tagToken_space_free (prev : option ascii) (s r : str) :
  match_at tagToken prev s = Some r -> drop_while is_space r = r.
Proof.
  intros H. apply tagToken_inv in H. destruct H as (a & s' & _ & _ & ->).
  apply drop_while_idem.
Qed.

Lemma tag_run_space_free (fuel : nat) :
  forall s r, tag_run fuel s = Some r -> drop_while is_space r = r.
Proof.
  induction fuel as [|fuel IH]; intros s r; cbn [tag_run];
    destruct (match_at tagToken None s) as [r1|] eqn:M; try discriminate.
  - intros H. injection H as <-. exact (tagToken_space_free _ _ _ M).
  - destruct (tag_run fuel r1) as [r'|] eqn:T; intros H; injection H as <-.
    + exact (IH _ _ T).
    + exact (tagToken_space_free _ _ _ M).
Qed.

Lemma tagToken_prefix (s w : str) :
  match_at tagToken None (s ++ w) = None -> match_at tagToken None s = None.
Proof.
  rewrite !tagToken_match. destruct s as [|h [|a s']]; try reflexivity.
  simpl. destruct (ascii_eqb "#"%char h && is_word a); [discriminate|reflexivity].
Qed.

(** The text that the second pass leaves does not begin with a token. *)
Lemma stripped_no_token (s r : str) :
  tagPattern s = Some r -> match_at tagToken None (trim r) = None.
Proof.
  unfold tagPattern. intros H.
  pose proof (tag_run_complete _ _ _ (Nat.le_refl _) H) as Hc.
  pose proof (tag_run_space_free _ _ _ H) as Hs.
  unfold trim. rewrite trimStart_drop_while, Hs.
  destruct (trimEnd_prefix r) as [w Hw]. rewrite Hw in Hc.
  exact (tagToken_prefix _ _ Hc).
Qed.

Lemma no_token_no_hashtags (s : str) :
  match_at tagToken None s = None -> ~ begins_with_hashtags s.
Proof.
  intros H B. apply begins_with_hashtags_head in B.
  destruct B as (a & s' & -> & Ha). rewrite tagToken_match in H.
  change (ascii_eqb "#"%char "#"%char) with true in H.
  rewrite Ha in H. discriminate.
Qed.

Lemma untag_no_token (C : str) : match_at tagToken None (fst (untag C)) = None.
Proof.
  rewrite untag_fst. cbv zeta.
  destruct (tagPattern _) as [r|] eqn:T.
  - exact (stripped_no_token _ _ T).
  - exact (tag_run_none_inv _ _ T).
Qed.

(** X5 (untagging settles).  Whatever the content, the text that the two
    removal passes leave does not begin with a hashtag run; and unless a
    marker is still in it, untagging it once more changes nothing and
    reports no modification. *)
Theorem untag_settles (C : str) :
  ~ begins_with_hashtags (fst (untag C))
  /\ (isAlreadyTagged (fst (untag C)) = false ->
      untag (fst (untag C)) = (fst (untag C), false)).
Proof.
  pose proof (untag_no_token C) as H. split.
  - exact (no_token_no_hashtags _ H).
  - intros Hm. unfold untag at 1. rewrite Hm. unfold tagPattern.
    rewrite (tag_run_none _ _ H). reflexivity.
Qed.

(** X4 (the modification flag).  [wasModified] is true exactly when the
    cleaned content differs from the content read, so that the untagging
    operations write exactly when there is something to write; and the
    cleaned content is never longer than the content read. *)
Theorem untag_flag_exact (C : str) :
  (snd (untag C) = true <-> fst (untag C) <> C)
  /\ (length (fst (untag C)) <= length C)%nat.
Proof.
  unfold untag.
  set (cleaned := remove_first taggedSectionPattern C).
  pose proof (remove_first_length taggedSectionPattern C) as Lc. fold cleaned in Lc.
  assert (forall x r, (length x <= length C)%nat -> tagPattern x = Some r ->
            (length (trim r) < length C)%nat) as Hshort.
  { intros x r Lx T. apply tag_run_shorter in T. pose proof (trim_length r). lia. }
  destruct (isAlreadyTagged C).
  - destruct (tagPattern cleaned) as [r|] eqn:T; cbn [fst snd].
    + pose proof (Hshort _ _ Lc T) as L. split; [|lia].
      split; [|reflexivity]. intros _ E. rewrite E in L. lia.
    + split; [|exact Lc]. rewrite negb_true_iff. apply str_eqb_neq.
  - destruct (tagPattern C) as [r|] eqn:T; cbn [fst snd].
    + pose proof (Hshort _ _ (Nat.le_refl _) T) as L. split; [|lia].
      split; [|reflexivity]. intros _ E. rewrite E in L. lia.
    + split; [|lia]. split; [discriminate | congruence].
Qed.

(** ** The exact round trip *)

Lemma search_skip (p : pattern) (Y : str) :
  boundary_free p = true ->
  forall X,
    (forall X1 X2, X = X1 ++ X2 -> X2 <> [] -> match_at p None (X2 ++ Y) = None) ->
    search p None (X ++ Y)
    = match search p None Y with
      | Some (b, r) => Some (X ++ b, r)
      | None => None
      end.
Proof.
  intros Hfree. induction X as [|c X IH]; intros Hno.
  - simpl. destruct (search p None Y) as [[b r]|]; reflexivity.
  - change ((c :: X) ++ Y) with (c :: (X ++ Y)). cbn [search].
    pose proof (Hno [] (c :: X) eq_refl ltac:(discriminate)) as H0.
    change ((c :: X) ++ Y) with (c :: (X ++ Y)) in H0. rewrite H0.
    rewrite (search_prev_free p Hfree (X ++ Y) (Some c) None), IH.
    + destruct (search p None Y) as [[b r]|]; reflexivity.
    + intros X1 X2 -> HX2. apply (Hno (c :: X1) X2); [reflexivity | exact HX2].
Qed.

(** The end of the header is not found inside the line of the timestamp. *)
Lemma header_close_late (x Y s' : str) :
  Forall (fun c => ascii_eqb LF c = false) x ->
  x ++ LF :: header_close ++ Y <> header_close ++ s'.
Proof.
  unfold header_close. change (lit "---") with ["-"%char; "-"%char; "-"%char].
  intros Hx H.
  destruct x as [|a [|b [|c [|d x]]]]; simpl in H.
  - discriminate H.
  - injection H as _ H. discriminate H.
  - injection H as _ _ H. discriminate H.
  - injection H as _ _ _ _ H. discriminate H.
  - injection H as _ _ _ H. subst d.
    inversion Hx as [|? ? _ Hx1]. inversion Hx1 as [|? ? _ Hx2].
    inversion Hx2 as [|? ? _ Hx3]. inversion Hx3 as [|? ? Hd _].
    rewrite ascii_eqb_refl in Hd. discriminate.
Qed.

(** The divider is not found inside a summary without a blank line. *)
Lemma divider_late (x Y y : str) :
  x <> [] -> ~ occurs_in [LF; LF] x ->
  x ++ divider_open ++ LF :: LF :: Y <> divider_open ++ LF :: y.
Proof.
  unfold divider_open. change (lit "---") with ["-"%char; "-"%char; "-"%char].
  intros Hne Hno H.
  destruct x as [|a [|b x]]; [congruence| |].
  - simpl in H. injection H as _ _ H. discriminate H.
  - simpl in H. injection H as -> -> _. apply Hno. exists [], x. reflexivity.
Qed.

Lemma section_exact (ts R P : str) :
  Forall (fun c => ascii_eqb LF c = false) ts ->
  ~ occurs_in [LF; LF] R ->
  match_at taggedSectionPattern None (assemble ts R P)
  = Some (drop_while (ascii_eqb LF) P).
Proof.
  intros Hts HR.
  rewrite taggedSectionPattern_eq, assemble_eq, match_at_lits.
  rewrite lazy_any_search by reflexivity.
  set (Rest := R ++ divider_open ++ LF :: LF :: P).
  assert (match_at summary_part (prev_after header_close None) Rest
          = Some (drop_while (ascii_eqb LF) P)) as Hsum.
  { unfold summary_part. rewrite lazy_any_search by reflexivity.
    unfold Rest. rewrite search_skip; [|reflexivity|].
    - rewrite (search_here _ _ _ _ (section_tail_match None (LF :: P))).
      cbn [drop_while]. rewrite ascii_eqb_refl. reflexivity.
    - intros X1 X2 -> HX2.
      destruct (match_at section_tail None _) as [r|] eqn:M; [|reflexivity].
      exfalso. apply section_tail_inv in M. destruct M as (y & Hy & _).
      revert Hy. apply divider_late; [exact HX2|].
      intros H. apply HR. apply occurs_in_app_l. exact H. }
  change ((" "%char :: ts ++ [LF]) ++ header_close ++ Rest)
    with ((" "%char :: ts ++ [LF]) ++ (header_close ++ Rest)).
  rewrite search_skip; [|reflexivity|].
  - assert (match_at (lits header_close ++ summary_part) None (header_close ++ Rest)
            = Some (drop_while (ascii_eqb LF) P)) as Hat.
    { rewrite match_at_lits. exact Hsum. }
    rewrite (search_here _ _ _ _ Hat). reflexivity.
  - intros X1 X2 HX HX2.
    destruct (match_at _ None (X2 ++ header_close ++ Rest)) as [r|] eqn:M;
      [|reflexivity].
    exfalso. apply match_at_lits_inv in M. destruct M as (s' & Hs' & _).
    destruct (exists_last HX2) as (x & z & ->).
    change (" "%char :: ts ++ [LF]) with ((" "%char :: ts) ++ [LF]) in HX.
    rewrite app_assoc in HX. apply app_inj_tail in HX. destruct HX as [HX <-].
    rewrite <- app_assoc in Hs'. revert Hs'. apply header_close_late.
    assert (Forall (fun c => ascii_eqb LF c = false) (" "%char :: ts)) as F.
    { constructor; [reflexivity | exact Hts]. }
    rewrite HX in F. apply List.Forall_app in F. apply F.
Qed.

Lemma assemble_length (ts R P : str) :
  (length P < length (assemble ts R P))%nat.
Proof. rewrite assemble_eq, !length_app. simpl. rewrite !length_app. simpl. lia. Qed.

(** Untagging an assembled document: the first pass leaves the wrapped
    content without its leading line breaks. *)
Lemma untag_assembled (ts R P : str) :
  Forall (fun c => ascii_eqb LF c = false) ts ->
  ~ occurs_in [LF; LF] R ->
  untag (assemble ts R P)
  = (match tagPattern (drop_while (ascii_eqb LF) P) with
     | Some r => trim r
     | None => drop_while (ascii_eqb LF) P
     end, true).
Proof.
  intros Hts HR. unfold untag. rewrite assemble_tagged.
  unfold remove_first.
  rewrite (search_here _ _ _ _ (section_exact ts R P Hts HR)).
  cbn [app].
  assert (str_eqb (drop_while (ascii_eqb LF) P) (assemble ts R P) = false) as ->.
  { apply str_eqb_neq. intros E.
    pose proof (drop_while_length (ascii_eqb LF) P).
    pose proof (assemble_length ts R P). rewrite E in *. lia. }
  destruct (tagPattern _); reflexivity.
Qed.

Lemma word_not_syntax (c : ascii) : is_word c = true -> is_syntax_char c = false.
Proof. destruct c as [[] [] [] [] [] [] [] []]; vm_compute; congruence. Qed.

Lemma syntax_lower (c : ascii) :
  is_syntax_char c = false -> is_syntax_char (lower_char c) = false.
Proof. destruct c as [[] [] [] [] [] [] [] []]; vm_compute; congruence. Qed.

Lemma plain_lower (x : str) :
  existsb is_syntax_char x = false ->
  existsb is_syntax_char (toLowerCase x) = false.
Proof.
  induction x as [|c x IH]; simpl; [reflexivity|].
  intros H. apply orb_false_iff in H. destruct H as [Hc Hx].
  rewrite (syntax_lower c Hc), (IH Hx). reflexivity.
Qed.

Lemma word_tag_plain (tag : str) : word_tag tag -> plain_tag tag.
Proof.
  intros [_ H]. unfold plain_tag. induction H as [|c x Hc _ IH]; [reflexivity|].
  simpl. rewrite (word_not_syntax c Hc), IH. reflexivity.
Qed.

Lemma tag_matches_plain (lc tag : str) :
  plain_tag tag -> exists b, tag_matches lc tag = Ok b.
Proof.
  intros Hp. unfold tag_matches.
  rewrite (tag_regex_plain _ (plain_lower _ Hp)). cbn [bind]. eauto.
Qed.

Lemma collect_tags_plain (lc : str) (tags : list str) :
  Forall plain_tag tags ->
  forall acc, exists added, collect_tags lc tags acc = Ok added.
Proof.
  induction 1 as [|tag tags Hp _ IH]; intros acc; cbn [collect_tags]; [eauto|].
  destruct (tag_matches_plain lc tag Hp) as [b ->]. cbn [bind]. apply IH.
Qed.



Lemma word_hashtag_token (a : ascii) (w rest : str) :
  is_word a = true -> Forall (fun c => is_word c = true) w ->
  match_at tagToken None (("#"%char :: a :: w) ++ " "%char :: rest)
  = Some (drop_while is_space rest).
Proof.
  intros Ha Hw. rewrite tagToken_match. cbn [app].
  change (ascii_eqb "#"%char "#"%char) with true. rewrite Ha. cbn [andb].
  rewrite drop_while_app. apply drop_while_nil in Hw. rewrite Hw.
  reflexivity.
Qed.

Lemma tag_run_join (C : str) (l : list str) :
  Forall word_hashtag l -> l <> [] ->
  match_at tagToken None (drop_while is_space C) = None ->
  forall fuel, (length l <= S fuel)%nat ->
    tag_run fuel (join (lit " ") l ++ " "%char :: C) = Some (drop_while is_space C).
Proof.
  intros Hl. induction Hl as [|t l (a & w & -> & Ha & Hw) Hl IH];
    intros Hne Hno fuel Hfuel; [congruence|].
  destruct l as [|t2 l].
  - cbn [join]. destruct fuel; cbn [tag_run];
      rewrite (word_hashtag_token a w C Ha Hw); [reflexivity|].
    rewrite (tag_run_none _ _ Hno). reflexivity.
  - change (join (lit " ") (("#"%char :: a :: w) :: t2 :: l) ++ " "%char :: C)
      with ((("#"%char :: a :: w) ++ " "%char :: join (lit " ") (t2 :: l)) ++ " "%char :: C).
    rewrite <- app_assoc.
    change ((" "%char :: join (lit " ") (t2 :: l)) ++ " "%char :: C)
      with (" "%char :: (join (lit " ") (t2 :: l) ++ " "%char :: C)).
    assert (drop_while is_space (join (lit " ") (t2 :: l) ++ " "%char :: C)
            = join (lit " ") (t2 :: l) ++ " "%char :: C) as Hd.
    { inversion Hl as [|? ? (a2 & w2 & -> & _ & _) _]. subst.
      destruct l; reflexivity. }
    destruct fuel as [|fuel]; [simpl in Hfuel; lia|].
    cbn [tag_run]. rewrite (word_hashtag_token a w _ Ha Hw), Hd.
    rewrite IH; [reflexivity | discriminate | exact Hno | simpl in *; lia].
Qed.

Lemma tagPattern_join (C : str) (l : list str) :
  Forall word_hashtag l -> l <> [] ->
  match_at tagToken None (drop_while is_space C) = None ->
  tagPattern (join (lit " ") l ++ " "%char :: C) = Some (drop_while is_space C).
Proof.
  intros Hl Hne Hno. unfold tagPattern.
  set (s := join (lit " ") l ++ " "%char :: C).
  rewrite (tag_run_fuel (length s) s (length s + length l)) by lia.
  apply tag_run_join; [exact Hl | exact Hne | exact Hno | lia].
Qed.

Lemma leading_breaks (C : str) :
  match_at tagToken None (trimStart C) = None ->
  match_at tagToken None (drop_while (ascii_eqb LF) C) = None.
Proof.
  intros H. destruct (drop_while_split (ascii_eqb LF) C) as (w & HC & Hw).
  assert (Forall (fun c => is_space c = true) w) as Hs.
  { eapply List.Forall_impl; [|exact Hw]. intros c E.
    apply ascii_eqb_eq in E. subst c. reflexivity. }
  set (T := drop_while (ascii_eqb LF) C) in *.
  rewrite trimStart_drop_while in H.
  exact (proj1 (strip_leading w T C Hs HC H)).
Qed.

Lemma join_head (l : list str) (t : str) (C : str) :
  Forall word_hashtag (t :: l) ->
  exists x, join (lit " ") (t :: l) ++ " "%char :: C = "#"%char :: x.
Proof.
  intros H. inversion H as [|? ? (a & w & -> & _ & _) _]. subst.
  destruct l; simpl; eauto.
Qed.

(** X3 (exact round trip).  A content without marker and without leading
    frontmatter block, which does not begin, after its leading whitespace,
    with a hashtag run; a vocabulary of tags made of word characters; a
    timestamp of one line; a summary that is not blank and has no blank line
    in it.  Then synthesis succeeds, and untagging its result gives the
    content back: trimmed when a tag was added, without its leading line
    breaks otherwise.  A content without whitespace around it comes back as
    it was. *)
Theorem roundtrip_exact (model ts C s : str) (V : list str)
    (fields : list (str * json)) :
  model <> [] ->
  ~ occurs_in marker C ->
  frontMatterMatch C = None ->
  ~ begins_with_hashtags (trimStart C) ->
  Forall word_tag V ->
  Forall (fun c => ascii_eqb LF c = false) ts ->
  field (lit "response") fields = Some (JString s) ->
  trim s <> [] ->
  ~ occurs_in [LF; LF] (trim s) ->
  exists added S,
    collect_tags (toLowerCase C) V [] = Ok added
    /\ processContentWithOllama (Some model) (Body (JObject fields)) ts C V = Ok S
    /\ untag S = (match added with
                  | [] => drop_while (ascii_eqb LF) C
                  | _ :: _ => trim C
                  end, true)
    /\ (trim C = C -> untag S = (C, true)).
Proof.
  intros Hmodel Hmark Hfm Hhash HV Hts Hfield Hne Hblank.
  assert (Forall plain_tag V) as Hplain.
  { eapply List.Forall_impl; [|exact HV]. exact word_tag_plain. }
  destruct (collect_tags_plain (toLowerCase C) V Hplain []) as [added Hadded].
  assert (match_at tagToken None (trimStart C) = None) as Hno.
  { apply no_hashtags_no_token. exact Hhash. }
  set (P := match added with
            | [] => C
            | _ :: _ => join (lit " ") added ++ " "%char :: C
            end).
  assert (addDeterministicTags C V = Ok P) as HP.
  { unfold addDeterministicTags. cbv zeta. rewrite Hadded. cbn [bind].
    unfold P. destruct added; [reflexivity|]. rewrite Hfm. reflexivity. }
  exists added, (assemble ts (trim s) P).
  split; [exact Hadded|].
  assert (processContentWithOllama (Some model) (Body (JObject fields)) ts C V
          = Ok (assemble ts (trim s) P)) as HS.
  { unfold processContentWithOllama. destruct model as [|m model]; [congruence|].
    apply includes_false in Hmark. unfold isAlreadyTagged. rewrite Hmark, HP.
    cbn [bind]. unfold response_trim. rewrite Hfield. cbn [bind].
    destruct (trim s); [congruence | reflexivity]. }
  split; [exact HS|].
  assert (untag (assemble ts (trim s) P)
          = (match added with
             | [] => drop_while (ascii_eqb LF) C
             | _ :: _ => trim C
             end, true)) as HU.
  { rewrite (untag_assembled ts (trim s) P Hts Hblank). unfold P.
    destruct added as [|t added].
    - unfold tagPattern. rewrite (tag_run_none _ _ (leading_breaks C Hno)).
      reflexivity.
    - assert (Forall word_hashtag (t :: added)) as Hw.
      { apply List.Forall_forall. intros x Hx.
        destruct (collect_tags_spec _ _ _ _ Hadded (List.NoDup_nil _)) as [_ Hin].
        apply Hin in Hx. destruct Hx as [[]|(tag & Htag & _ & ->)].
        rewrite List.Forall_forall in HV. destruct (HV tag Htag) as [Hn Hall].
        rewrite hash_tag_strip. destruct (strip_hash tag) as [|a w]; [congruence|].
        inversion Hall. subst. exists a, w. auto. }
      destruct (join_head added t C Hw) as [x Hx].
      assert (drop_while (ascii_eqb LF) (join (lit " ") (t :: added) ++ " "%char :: C)
              = join (lit " ") (t :: added) ++ " "%char :: C) as ->.
      { rewrite Hx. reflexivity. }
      rewrite trimStart_drop_while in Hno.
      rewrite (tagPattern_join C (t :: added) Hw ltac:(discriminate) Hno).
      unfold trim. rewrite !trimStart_drop_while, drop_while_idem. reflexivity. }
  split; [exact HU|].
  intros Htrim. rewrite HU. destruct added; [|rewrite Htrim; reflexivity].
  f_equal. destruct (drop_while_split (ascii_eqb LF) C) as (w & HC & Hw).
  destruct C as [|c C']; [reflexivity|].
  cbn [drop_while]. destruct (ascii_eqb LF c) eqn:E; [|reflexivity].
  exfalso. apply ascii_eqb_eq in E. subst c.
  unfold trim in Htrim. cbn [trimStart] in Htrim.
  change (is_space LF) with true in Htrim. cbv iota in Htrim.
  pose proof (trim_length C') as L. unfold trim in L. rewrite Htrim in L.
  simpl in L. lia.
Qed.

(** A note with two tags of the vocabulary in it and a summary of one
    line. *)
Lemma roundtrip_exact_witness :
  exists added S,
    collect_tags (toLowerCase (lit "I study ML and ai")) [lit "ml"; lit "#ai"; lit "rust"] []
    = Ok added
    /\ processContentWithOllama (Some (lit "llama2"))
         (Body (JObject [(lit "response", JString (lit " A note. #ai "))]))
         (lit "2024-01-01T00:00:00.000Z") (lit "I study ML and ai")
         [lit "ml"; lit "#ai"; lit "rust"] = Ok S
    /\ untag S = (match added with
                  | [] => drop_while (ascii_eqb LF) (lit "I study ML and ai")
                  | _ :: _ => trim (lit "I study ML and ai")
                  end, true)
    /\ (trim (lit "I study ML and ai") = lit "I study ML and ai" ->
        untag S = (lit "I study ML and ai", true)).
Proof.
  apply (roundtrip_exact (lit "llama2") (lit "2024-01-01T00:00:00.000Z")
           (lit "I study ML and ai") (lit " A note. #ai ")
           [lit "ml"; lit "#ai"; lit "rust"]
           [(lit "response", JString (lit " A note. #ai "))]).
  - discriminate.
  - apply includes_false. reflexivity.
  - reflexivity.
  - intros H. apply begins_with_hashtags_head in H.
    destruct H as (a & s' & H & _). discriminate H.
  - repeat constructor; discriminate.
  - repeat constructor.
  - reflexivity.
  - discriminate.
  - apply includes_false. reflexivity.
Defined.

(** ** A service that fails *)

Lemma synthesis_down (m : option str) (r : reply) (ts C S : str) (V : list str) :
  service_fails r ->
  processContentWithOllama m r ts C V = Ok S -> S = C.
Proof.
  intros Hr. unfold processContentWithOllama.
  destruct m as [[|x m]|]; try discriminate.
  destruct (isAlreadyTagged C); [congruence|].
  destruct (addDeterministicTags C V) as [P|e]; [|discriminate]. cbn [bind].
  destruct r as [| |data]; try discriminate.
  destruct (response_trim data) as [t|e] eqn:E; [|discriminate].
  exfalso. apply Hr. apply response_trim_ok in E.
  destruct E as (fields & s & -> & Hf & _). exists fields, s. auto.
Qed.

Lemma nothing_written_refl (w : World) : nothing_written w w.
Proof. split; [reflexivity|]. exists []. rewrite app_nil_r. auto. Qed.

Lemma nothing_written_trans (a b c : World) :
  nothing_written a b -> nothing_written b c -> nothing_written a c.
Proof.
  intros (T1 & e1 & L1 & F1) (T2 & e2 & L2 & F2). split; [congruence|].
  exists (e1 ++ e2). split.
  - rewrite L2, L1, app_assoc. reflexivity.
  - apply List.Forall_app. auto.
Qed.

Lemma nothing_written_emit (w : World) (evs : list event) :
  Forall (fun e => is_modify e = false) evs -> nothing_written w (emit evs w).
Proof. intros H. split; [reflexivity|]. exists evs. auto. Qed.

Lemma no_write_nothing (c : Call) (w w' : World) :
  no_write c w w' -> nothing_written w w'.
Proof. intros (T & _ & E). split; assumption. Qed.

Lemma tag_document_down (skipTagged skipEmpty notice : bool)
    (tags : list str) (file : TFile) (c : Call) (w : World) :
  service_fails (answer c) ->
  let after := tag_document skipTagged skipEmpty notice tags file c w in
  nothing_written w after
  /\ (vault after = vault w \/ vault after = edits c (vault w)).
Proof.
  intros Hr after. subst after.
  destruct (vault w !! path file) as [A|] eqn:HA.
  - destruct (tag_document_frame skipTagged skipEmpty notice tags file c w A HA)
      as [H | (S & HS & Hne & _)].
    + split; [exact (no_write_nothing _ _ _ H) | apply H].
    + apply (synthesis_down _ _ _ _ _ _ Hr) in HS. congruence.
  - unfold tag_document. rewrite HA. split; [|left; reflexivity].
    apply nothing_written_emit. repeat constructor.
Qed.

Lemma addTags_loop_down (tags : list str) (files : list (TFile * Call)) :
  Forall (fun fc => service_fails (answer (snd fc))) files ->
  forall w,
    nothing_written w (addTags_loop tags files w)
    /\ (Forall (fun fc => forall v, edits (snd fc) v = v) files ->
        vault (addTags_loop tags files w) = vault w).
Proof.
  induction 1 as [|[file c] files Hc _ IH]; intros w; cbn [addTags_loop].
  - split; [|reflexivity]. apply nothing_written_emit. repeat constructor.
  - destruct (shouldProcessFile (settings w) file) as [[|]|e].
    + destruct (tag_document_down true false true tags file c w Hc) as [N V].
      destruct (IH (tag_document true false true tags file c w)) as [N' V'].
      split; [exact (nothing_written_trans _ _ _ N N')|].
      intros Q. inversion Q as [|? ? Qc Qf]; subst. rewrite (V' Qf).
      simpl in Qc. destruct V as [-> | ->]; [reflexivity | apply Qc].
    + destruct (IH w) as [N' V']. split; [exact N'|].
      intros Q. inversion Q; subst. auto.
    + split; [apply nothing_written_refl | reflexivity].
Qed.

(** X7 (a service that fails).  When every call of a sweep fails (the
    request is rejected, the body does not parse, or it has no string under
    [response]), [addTagsToDocuments] writes no document and leaves the
    record as it was, whatever the documents, the dialog and the settings;
    and when nobody else edits the vault meanwhile, the vault is the same
    at the end. *)
Theorem service_down_sweep (dialog : option (str * list str))
    (files : list (TFile * Call)) (w : World) :
  Forall (fun fc => service_fails (answer (snd fc))) files ->
  nothing_written w (addTagsToDocuments dialog files w)
  /\ (Forall (fun fc => forall v, edits (snd fc) v = v) files ->
      vault (addTagsToDocuments dialog files w) = vault w).
Proof.
  intros H. unfold addTagsToDocuments.
  destruct (negb (model_selected (settings w))).
  - split; [|reflexivity]. apply nothing_written_emit. repeat constructor.
  - destruct dialog as [[model tags]|]; [|split; [apply nothing_written_refl|reflexivity]].
    destruct (addTags_loop_down tags files H (store_choice model tags w)) as [N V].
    split; [|exact V].
    apply (nothing_written_trans _ (store_choice model tags w)); [|exact N].
    unfold store_choice. split; [reflexivity|]. exists [SaveSettings]. auto.
Qed.

(** Two documents, a request that fails and a body without a summary. *)
Lemma service_down_sweep_witness :
  let w := sample_world (lit "I study ml today") in
  let files := [(sample_file, quiet_call FetchRejected);
                (sample_file, quiet_call body_without_response)] in
  nothing_written w
    (addTagsToDocuments (Some (lit "llama2", [lit "ml"])) files w)
  /\ (Forall (fun fc => forall v, edits (snd fc) v = v) files ->
      vault (addTagsToDocuments (Some (lit "llama2", [lit "ml"])) files w)
      = vault w).
Proof.
  intros w files.
  apply (service_down_sweep (Some (lit "llama2", [lit "ml"])) files w).
  repeat constructor. intros (fields & s & H & F).
  injection H as <-. vm_compute in F. discriminate F.
Defined.

(** ** The record under the sweeps *)

Lemma tag_document_record (skipTagged skipEmpty notice : bool)
    (tags : list str) (file : TFile) (c : Call) (w : World) :
  let after := tag_document skipTagged skipEmpty notice tags file c w in
  same_options (settings after) (settings w)
  /\ (taggedFiles (settings after) = taggedFiles (settings w)
      \/ taggedFiles (settings after)
         = <[path file := now c]> (taggedFiles (settings w))).
Proof.
  cbv zeta. unfold tag_document.
  destruct (vault w !! path file) as [A|]; [|split; [split|left]; reflexivity].
  destruct (skipTagged && isAlreadyTagged A); [split; [split|left]; reflexivity|].
  destruct (skipEmpty && negb (truthy (trim A))); [split; [split|left]; reflexivity|].
  destruct (processContentWithOllama _ _ _ _ _) as [S|e];
    [|split; [split|left]; reflexivity].
  cbn [vault set_vault].
  destruct (edits c (vault w) !! path file) as [B|];
    [|split; [split|left]; reflexivity].
  destruct (negb (str_eqb B A)); [split; [split|left]; reflexivity|].
  destruct (negb (str_eqb S A)); split; try split; try reflexivity;
    [right | left]; reflexivity.
Qed.

Lemma addTags_loop_record (tags : list str) (files : list (TFile * Call)) :
  forall w,
    let after := addTags_loop tags files w in
    same_options (settings after) (settings w)
    /\ forall p,
         taggedFiles (settings after) !! p = taggedFiles (settings w) !! p
         \/ exists file c, In (file, c) files /\ path file = p
                           /\ taggedFiles (settings after) !! p = Some (now c).
Proof.
  induction files as [|[file c] files IH]; intros w; cbn zeta; cbn [addTags_loop].
  - split; [split; reflexivity|]. intros p. left. reflexivity.
  - destruct (shouldProcessFile (settings w) file) as [[|]|e].
    + destruct (tag_document_record true false true tags file c w) as [[O1 O2] R].
      destruct (IH (tag_document true false true tags file c w)) as [[O1' O2'] R'].
      split; [split; congruence|]. intros p.
      destruct (R' p) as [E | (f' & c' & Hin & Hp & E)].
      * rewrite E. destruct R as [-> | ->]; [left; reflexivity|].
        destruct (decide (path file = p)) as [<-|Hne].
        -- right. exists file, c. rewrite lookup_insert_eq.
           split; [left; reflexivity|]. auto.
        -- left. apply lookup_insert_ne. exact Hne.
      * right. exists f', c'. split; [right; exact Hin|]. auto.
    + destruct (IH w) as [O R']. split; [exact O|]. intros p.
      destruct (R' p) as [E | (f' & c' & Hin & Hp & E)]; [left; exact E|].
      right. exists f', c'. split; [right; exact Hin|]. auto.
    + split; [split; reflexivity|]. intros p. left. reflexivity.
Qed.

(** X8 (the record under a tagging sweep).  [addTagsToDocuments] leaves
    the switch of auto-tagging and the exclusion patterns as they were, and
    an entry of the record is either the one from before or the time of the
    call of a document of the sweep with that path: no entry is removed and
    no entry of another document is touched. *)
Theorem sweep_record_frame (dialog : option (str * list str))
    (files : list (TFile * Call)) (w : World) :
  let after := addTagsToDocuments dialog files w in
  same_options (settings after) (settings w)
  /\ forall p,
       taggedFiles (settings after) !! p = taggedFiles (settings w) !! p
       \/ exists file c, In (file, c) files /\ path file = p
                         /\ taggedFiles (settings after) !! p = Some (now c).
Proof.
  cbv zeta. unfold addTagsToDocuments.
  destruct (negb (model_selected (settings w)));
    [split; [split; reflexivity | intros p; left; reflexivity]|].
  destruct dialog as [[model tags]|];
    [|split; [split; reflexivity | intros p; left; reflexivity]].
  exact (addTags_loop_record tags files (store_choice model tags w)).
Qed.

Lemma untag_document_frame (file : TFile) (evs : list event) (w : World) :
  let after := untag_document file evs w in
  selectedModel (settings after) = selectedModel (settings w)
  /\ defaultTags (settings after) = defaultTags (settings w)
  /\ same_options (settings after) (settings w)
  /\ (taggedFiles (settings after) = taggedFiles (settings w)
      \/ taggedFiles (settings after) = delete (path file) (taggedFiles (settings w)))
  /\ (vault after = vault w
      \/ exists cleaned, vault after = <[path file := cleaned]> (vault w)).
Proof.
  cbv zeta. unfold untag_document, same_options.
  destruct (vault w !! path file) as [C|]; [|simpl; auto 10].
  destruct (untag C) as [cleaned [|]]; simpl; eauto 10.
Qed.

Lemma untag_loop_frame (files : list TFile) :
  forall w,
    let after := untag_loop files w in
    selectedModel (settings after) = selectedModel (settings w)
    /\ defaultTags (settings after) = defaultTags (settings w)
    /\ same_options (settings after) (settings w)
    /\ (forall p,
          taggedFiles (settings after) !! p = taggedFiles (settings w) !! p
          \/ (taggedFiles (settings after) !! p = None
              /\ exists file, In file files /\ path file = p))
    /\ forall p, (forall file, In file files -> path file <> p) ->
                 vault after !! p = vault w !! p.
Proof.
  induction files as [|file files IH]; intros w; cbv zeta; cbn [untag_loop].
  - simpl. unfold same_options. auto 10.
  - destruct (untag_document_frame file [] w) as (M & D & [O1 O2] & R & V).
    destruct (IH (untag_document file [] w)) as (M' & D' & [O1' O2'] & R' & V').
    split; [congruence|]. split; [congruence|]. split; [split; congruence|].
    split.
    + intros p. destruct (R' p) as [E | (E & f & Hin & Hp)].
      * rewrite E. destruct R as [-> | ->]; [left; reflexivity|].
        destruct (decide (path file = p)) as [<-|Hne].
        -- right. rewrite lookup_delete_eq. split; [reflexivity|].
           exists file. split; [left|]; reflexivity.
        -- left. apply lookup_delete_ne. exact Hne.
      * right. split; [exact E|]. exists f. split; [right; exact Hin | exact Hp].
    + intros p Hp. rewrite V' by (intros f Hf; apply Hp; right; exact Hf).
      destruct V as [-> | [cleaned ->]]; [reflexivity|].
      apply lookup_insert_ne. apply Hp. left. reflexivity.
Qed.

(** X9 (the state under the untagging sweep).  [untagAllDocuments] leaves
    the model, the tags, the switch of auto-tagging and the exclusion
    patterns as they were; an entry of the record is the one from before or
    is gone, and it can only be gone for a document of the sweep; a
    document that is not in the sweep keeps its content. *)
Theorem untag_sweep_frame (confirmed : bool) (files : list TFile) (w : World) :
  let after := untagAllDocuments confirmed files w in
  selectedModel (settings after) = selectedModel (settings w)
  /\ defaultTags (settings after) = defaultTags (settings w)
  /\ same_options (settings after) (settings w)
  /\ (forall p,
        taggedFiles (settings after) !! p = taggedFiles (settings w) !! p
        \/ (taggedFiles (settings after) !! p = None
            /\ exists file, In file files /\ path file = p))
  /\ forall p, (forall file, In file files -> path file <> p) ->
               vault after !! p = vault w !! p.
Proof.
  cbv zeta. unfold untagAllDocuments. destruct confirmed.
  - exact (untag_loop_frame files w).
  - unfold same_options. auto 10.
Qed.

(** ** The record and eligibility *)

(** X10 (tagged, then skipped).  When a tagging call has written (at a
    time other than zero), the eligibility check answers no for that
    document as long as its modification time is not after the time of the
    write. *)
Theorem tagged_then_skipped (skipTagged skipEmpty notice : bool)
    (tags : list str) (file : TFile) (c : Call) (w : World) (A : str) :
  vault w !! path file = Some A ->
  now c <> 0 ->
  let after := tag_document skipTagged skipEmpty notice tags file c w in
  no_write c w after
  \/ forall file' b,
       path file' = path file -> mtime file' <= now c ->
       shouldProcessFile (settings after) file' = Ok b -> b = false.
Proof.
  intros HA Hnow after. subst after.
  destruct (tag_document_frame skipTagged skipEmpty notice tags file c w A HA)
    as [H | (S & _ & _ & ->)]; [left; exact H|].
  right. intros file' b Hp Hm. unfold shouldProcessFile.
  destruct (excluded _ file') as [[|]|e]; cbn [bind]; try congruence.
  unfold write_tagged. simpl. rewrite Hp, lookup_insert_eq. simpl.
  apply Z.eqb_neq in Hnow. rewrite Hnow. intros H. injection H as <-.
  rewrite Z.gtb_ltb. apply Z.ltb_ge. exact Hm.
Qed.

(** The sample document, tagged at time 2000. *)
Lemma tagged_then_skipped_witness :
  let w := sample_world (lit "I study ml today") in
  let c := quiet_call (summary_reply (lit "A note. #ai")) in
  let after := tag_document true false true [lit "ml"] sample_file c w in
  no_write c w after
  \/ forall file' b,
       path file' = path sample_file -> mtime file' <= now c ->
       shouldProcessFile (settings after) file' = Ok b -> b = false.
Proof.
  intros w c.
  apply (tagged_then_skipped true false true [lit "ml"] sample_file c w
           (lit "I study ml today")).
  - reflexivity.
  - discriminate.
Defined.

(** X11 (untagged, then eligible).  When untagging modifies a document, the
    cleaned content is written, the entry of the document leaves the record,
    and the eligibility check answers yes for it unless a pattern excludes
    it. *)
Theorem untagged_then_eligible (file : TFile) (evs : list event) (w : World)
    (C : str) :
  vault w !! path file = Some C ->
  snd (untag C) = true ->
  let after := untag_document file evs w in
  vault after !! path file = Some (fst (untag C))
  /\ taggedFiles (settings after) !! path file = None
  /\ forall file',
       path file' = path file ->
       excluded (excludePatterns (settings w)) file' = Ok false ->
       shouldProcessFile (settings after) file' = Ok true.
Proof.
  intros HC Hmod after. subst after. unfold untag_document. rewrite HC.
  destruct (untag C) as [cleaned flag]. simpl in Hmod. subst flag. simpl.
  rewrite lookup_insert_eq, lookup_delete_eq. split; [reflexivity|].
  split; [reflexivity|]. intros file' Hp Hex.
  unfold shouldProcessFile. simpl. rewrite Hex. cbn [bind].
  rewrite Hp, lookup_delete_eq. reflexivity.
Qed.

(** The sample document with a leading hashtag. *)
Lemma untagged_then_eligible_witness :
  let C := lit "#ml I study ml today" in
  let w := set_taggedFiles {[ lit "notes/a.md" := 2000 ]} (sample_world C) in
  let after := untag_document sample_file [SaveSettings; Notice None] w in
  vault after !! path sample_file = Some (fst (untag C))
  /\ taggedFiles (settings after) !! path sample_file = None
  /\ forall file',
       path file' = path sample_file ->
       excluded (excludePatterns (settings w)) file' = Ok false ->
       shouldProcessFile (settings after) file' = Ok true.
Proof.
  intros C w.
  apply (untagged_then_eligible sample_file [SaveSettings; Notice None] w C);
    reflexivity.
Defined.

(** ** Exclusion *)

(** X12 (exclusion is a disjunction, and it wins).  When the loop over the
    patterns ends without an exception, the file is excluded exactly when
    one of the patterns excludes it; an excluded file is not eligible,
    whatever its record entry and modification time, and [autoTagFile]
    leaves the state as it is. *)
Theorem excluded_some_pattern (st : Settings) (file : TFile) (b : bool) :
  excluded (excludePatterns st) file = Ok b ->
  (b = true <->
   exists p, In p (excludePatterns st) /\ pattern_excludes p file = Ok true)
  /\ (b = true -> shouldProcessFile st file = Ok false)
  /\ (b = true -> forall c w, settings w = st -> autoTagFile file c w = w).
Proof.
  intros H. split; [exact (excluded_spec _ _ _ H)|].
  assert (b = true -> shouldProcessFile st file = Ok false) as HS.
  { intros ->. unfold shouldProcessFile. rewrite H. reflexivity. }
  split; [exact HS|]. intros Hb c w <-. unfold autoTagFile.
  rewrite (HS Hb). destruct (negb _); reflexivity.
Qed.

(** A folder name among the patterns. *)
Lemma excluded_some_pattern_witness :
  let st := {| selectedModel := Some (lit "llama2"); defaultTags := [lit "ml"];
               autoAddTags := true; taggedFiles := ∅;
               excludePatterns := [lit "daily"; lit "notes"] |} in
  let file := file_at "vault/notes/a.md" "a" in
  (exists p, In p (excludePatterns st) /\ pattern_excludes p file = Ok true)
  /\ shouldProcessFile st file = Ok false
  /\ forall c w, settings w = st -> autoTagFile file c w = w.
Proof.
  intros st file.
  destruct (excluded_some_pattern st file true) as (H1 & H2 & H3).
  - reflexivity.
  - split; [apply H1; reflexivity|].
    split; [apply H2; reflexivity | apply H3; reflexivity].
Defined.

(** ** The guard of the open editor *)

Lemma tag_document_ready (file : TFile) (c : Call) (w : World) (S : str) :
  ready_on_close file c w S ->
  tag_document false true false (defaultTags (settings w)) file c w
  = write_tagged file S (now c) false (set_vault (edits c (vault w)) w).
Proof.
  intros (_ & _ & A & HA & Hne & HB & HS & HSA).
  unfold tag_document. rewrite HA. cbn [andb].
  assert (truthy (trim A) = true) as -> by (destruct (trim A); [congruence|reflexivity]).
  cbn [negb]. rewrite HS. cbn [vault set_vault]. rewrite HB, str_eqb_refl.
  cbn [negb]. apply str_eqb_neq in HSA. rewrite HSA. reflexivity.
Qed.

(** X14 (the guard of the open editor).  [autoTagFile] leaves the state as
    it is for a document that is shown in a markdown view, whatever the
    document, the settings and the answer of the service.  The guard is
    what stops it: a document that is ready to be tagged is written and
    recorded by [autoTagFile] when no view shows it, and by
    [autoTagFileOnClose], which has no such guard, shown or not. *)
Theorem auto_tag_open_guard (file : TFile) (c : Call) (w : World) (S : str) :
  (In (path file) (openInEditor w) -> autoTagFile file c w = w)
  /\ (ready_on_close file c w S ->
      let written :=
        write_tagged file S (now c) false (set_vault (edits c (vault w)) w) in
      (~ In (path file) (openInEditor w) -> autoTagFile file c w = written)
      /\ autoTagFileOnClose file c w = written
      /\ vault written !! path file = Some S
      /\ taggedFiles (settings written) !! path file = Some (now c)).
Proof.
  split.
  - intros Hopen. unfold autoTagFile, isFileCurrentlyOpen.
    apply existsb_str_eqb in Hopen. rewrite Hopen.
    destruct (negb _); [reflexivity|].
    destruct (shouldProcessFile _ _) as [[|]|]; reflexivity.
  - intros Hr. pose proof Hr as (Hready & Hs & _). cbv zeta.
    split; [|split; [|split]].
    + intros Hno. unfold autoTagFile, isFileCurrentlyOpen.
      rewrite Hready, Hs. cbn [negb].
      assert (existsb (str_eqb (path file)) (openInEditor w) = false) as ->.
      { destruct (existsb _ _) eqn:E; [|reflexivity].
        apply existsb_str_eqb in E. contradiction. }
      apply (tag_document_ready file c w S Hr).
    + unfold autoTagFileOnClose. rewrite Hready, Hs. cbn [negb].
      apply (tag_document_ready file c w S Hr).
    + unfold write_tagged. simpl. apply lookup_insert_eq.
    + unfold write_tagged. simpl. apply lookup_insert_eq.
Qed.

(** The sample document, shown in a view: [autoTagFile] leaves it, and
    [autoTagFileOnClose] tags it. *)
Lemma auto_tag_open_guard_witness :
  let w := {| vault := {[ lit "notes/a.md" := lit "I study ml today" ]};
              settings := sample_settings;
              openInEditor := [lit "notes/a.md"]; log := [] |} in
  let c := quiet_call (summary_reply (lit "A note. #ai")) in
  let S := assemble (timestamp c) (lit "A note. #ai") (lit "#ml I study ml today") in
  autoTagFile sample_file c w = w
  /\ vault (autoTagFileOnClose sample_file c w) !! path sample_file = Some S
  /\ taggedFiles (settings (autoTagFileOnClose sample_file c w)) !! path sample_file
     = Some (now c).
Proof.
  intros w c S.
  destruct (auto_tag_open_guard sample_file c w S) as (H1 & H2).
  split; [apply H1; left; reflexivity|].
  destruct H2 as (_ & -> & Hv & Ht); [|split; assumption].
  split; [reflexivity|]. split; [reflexivity|].
  exists (lit "I study ml today").
  split; [reflexivity|]. split; [discriminate|]. split; [reflexivity|].
  split; [reflexivity | discriminate].
Defined.

(** ** A sweep that tags *)

Lemma shouldProcessFile_ext (st st' : Settings) (file : TFile) :
  excludePatterns st = excludePatterns st' ->
  taggedFiles st !! path file = taggedFiles st' !! path file ->
  shouldProcessFile st file = shouldProcessFile st' file.
Proof.
  intros He Ht. unfold shouldProcessFile. rewrite He, Ht. reflexivity.
Qed.

Lemma tag_document_quiet (skipTagged skipEmpty notice : bool)
    (tags : list str) (file : TFile) (c : Call) (w : World) :
  (forall v, edits c v = v) ->
  let after := tag_document skipTagged skipEmpty notice tags file c w in
  selectedModel (settings after) = selectedModel (settings w)
  /\ forall p, p <> path file -> vault after !! p = vault w !! p.
Proof.
  intros Hq. cbv zeta. unfold tag_document.
  destruct (vault w !! path file) as [A|]; [|split; reflexivity].
  destruct (skipTagged && isAlreadyTagged A); [split; reflexivity|].
  destruct (skipEmpty && negb (truthy (trim A))); [split; reflexivity|].
  rewrite Hq.
  destruct (processContentWithOllama _ _ _ _ _) as [S|e]; [|split; reflexivity].
  cbn [vault set_vault].
  destruct (vault w !! path file) as [B|]; [|split; reflexivity].
  destruct (negb (str_eqb B A)); [split; reflexivity|].
  destruct (negb (str_eqb S A)); [|split; reflexivity].
  split; [reflexivity|]. intros p Hp. unfold write_tagged. simpl.
  apply lookup_insert_ne. congruence.
Qed.

Lemma addTags_loop_quiet (tags : list str) (files : list (TFile * Call)) :
  Forall (fun fc => forall v, edits (snd fc) v = v) files ->
  forall w p,
    (forall fc, In fc files -> path (fst fc) <> p) ->
    vault (addTags_loop tags files w) !! p = vault w !! p.
Proof.
  induction 1 as [|[file c] files Hq _ IH]; intros w p Hp; cbn [addTags_loop];
    [reflexivity|].
  assert (forall fc, In fc files -> path (fst fc) <> p) as Hp'.
  { intros fc Hin. apply Hp. right. exact Hin. }
  destruct (shouldProcessFile (settings w) file) as [[|]|e]; [| |reflexivity].
  - rewrite (IH _ p Hp').
    apply (tag_document_quiet true false true tags file c w Hq).
    intros E. apply (Hp (file, c)); [left; reflexivity | symmetry; exact E].
  - apply IH. exact Hp'.
Qed.

Lemma tag_document_writes (notice : bool) (tags : list str)
    (file : TFile) (c : Call) (w : World) (S : str) :
  to_be_tagged (selectedModel (settings w)) tags w (file, c) S ->
  tag_document true false notice tags file c w
  = write_tagged file S (now c) notice w.
Proof.
  intros (Hq & _ & A & HA & Hm & HS & Hne). simpl in *.
  unfold tag_document. rewrite HA, Hm. cbn [andb]. rewrite HS, Hq.
  assert (set_vault (vault w) w = w) as -> by (destruct w; reflexivity).
  rewrite HA, str_eqb_refl. cbn [negb].
  apply str_eqb_neq in Hne. rewrite Hne. reflexivity.
Qed.

Lemma addTags_loop_tags_all (tags : list str) (files : list (TFile * Call))
    (outs : list str) :
  forall w,
    List.NoDup (map (fun fc => path (fst fc)) files) ->
    Forall2 (to_be_tagged (selectedModel (settings w)) tags w) files outs ->
    let after := addTags_loop tags files w in
    Forall2 (fun fc S =>
               vault after !! path (fst fc) = Some S
               /\ taggedFiles (settings after) !! path (fst fc) = Some (now (snd fc)))
      files outs.
Proof.
  revert outs. induction files as [|[file c] files IH]; intros outs w Hnd H;
    inversion H as [|? S ? outs' Hhead Htail]; subst; cbv zeta.
  - constructor.
  - inversion Hnd as [|? ? Hnotin Hnd']; subst.
    assert (forall fc, In fc files -> path (fst fc) <> path file) as Hother.
    { intros fc Hin E. apply Hnotin. rewrite <- E.
      apply (in_map (fun fc => path (fst fc))). exact Hin. }
    cbn [addTags_loop]. pose proof Hhead as (_ & He & _).
    simpl in He. rewrite He.
    rewrite (tag_document_writes true tags file c w S Hhead).
    set (w1 := write_tagged file S (now c) true w).
    assert (Forall2 (to_be_tagged (selectedModel (settings w1)) tags w1) files outs')
      as Htail'.
    { clear IH Hhead He Hnd H Hnotin Hnd'. revert Hother.
      induction Htail as [|fc S' files outs' Hfc _ IHt]; intros Hother;
        constructor.
      - destruct Hfc as (Hq' & He' & A' & HA' & Hrest').
        assert (path (fst fc) <> path file) as Hne.
        { apply Hother. left. reflexivity. }
        split; [exact Hq'|]. split.
        + rewrite <- He'. apply shouldProcessFile_ext; [reflexivity|].
          unfold w1, write_tagged. simpl. apply lookup_insert_ne. congruence.
        + exists A'. split; [|exact Hrest'].
          unfold w1, write_tagged. simpl. rewrite lookup_insert_ne by congruence.
          exact HA'.
      - apply IHt. intros fc' Hin. apply Hother. right. exact Hin. }
    constructor; [|exact (IH outs' w1 Hnd' Htail')].
    cbn [fst snd]. split.
    + rewrite addTags_loop_quiet.
      * unfold w1, write_tagged. simpl. apply lookup_insert_eq.
      * clear -Htail. induction Htail as [|? ? ? ? (Hq' & _) _ IHt]; constructor;
          assumption.
      * exact Hother.
    + destruct (addTags_loop_record tags files w1) as [_ R].
      destruct (R (path file)) as [E | (f' & c' & Hin & Hp & _)].
      * rewrite E. unfold w1, write_tagged. simpl. apply lookup_insert_eq.
      * exfalso. exact (Hother (f', c') Hin Hp).
Qed.

(** X6 (a sweep tags what is ready).  A sweep over documents of distinct
    paths, each of them eligible, without marker, left alone by the other
    actors and given by synthesis a content other than its own: at the end
    every document holds its synthesized content and its record entry is the
    time of its call. *)
Theorem sweep_tags_all (model : str) (tags : list str)
    (files : list (TFile * Call)) (outs : list str) (w : World) :
  model_selected (settings w) = true ->
  List.NoDup (map (fun fc => path (fst fc)) files) ->
  Forall2 (to_be_tagged (Some model) tags w) files outs ->
  let after := addTagsToDocuments (Some (model, tags)) files w in
  Forall2 (fun fc S =>
             vault after !! path (fst fc) = Some S
             /\ taggedFiles (settings after) !! path (fst fc) = Some (now (snd fc)))
    files outs.
Proof.
  intros Hm Hnd H. cbv zeta. unfold addTagsToDocuments. rewrite Hm. cbn [negb].
  apply addTags_loop_tags_all; [exact Hnd|].
  eapply Forall2_impl; [exact H|]. intros fc S (Hq & He & Hrest).
  split; [exact Hq|]. split; [exact He | exact Hrest].
Qed.

(** Two notes, each with a tag of the vocabulary in it and a summary. *)
Lemma sweep_tags_all_witness :
  let ts := lit "2024-01-01T00:00:00.000Z" in
  let w := {| vault := {[ lit "notes/a.md" := lit "I study ml today";
                          lit "notes/b.md" := lit "More ml notes" ]};
              settings := sample_settings; openInEditor := []; log := [] |} in
  let b := {| path := lit "notes/b.md"; basename := lit "b";
              extension := lit "md"; mtime := 1000 |} in
  let files := [(sample_file, quiet_call (summary_reply (lit "A note. #ai")));
                (b, quiet_call (summary_reply (lit "More. #ai")))] in
  let outs := [assemble ts (lit "A note. #ai") (lit "#ml I study ml today");
               assemble ts (lit "More. #ai") (lit "#ml More ml notes")] in
  let after := addTagsToDocuments (Some (lit "llama2", [lit "ml"])) files w in
  Forall2 (fun fc S =>
             vault after !! path (fst fc) = Some S
             /\ taggedFiles (settings after) !! path (fst fc) = Some (now (snd fc)))
    files outs.
Proof.
  intros ts w b files outs.
  apply (sweep_tags_all (lit "llama2") [lit "ml"] files outs w).
  - reflexivity.
  - repeat constructor; simpl; intros H; repeat destruct H as [H|H];
      try discriminate H; exact H.
  - constructor; [|constructor; [|constructor]].
    + split; [intros v; reflexivity|]. split; [reflexivity|].
      exists (lit "I study ml today").
      split; [reflexivity|]. split; [reflexivity|].
      split; [reflexivity | discriminate].
    + split; [intros v; reflexivity|]. split; [reflexivity|].
      exists (lit "More ml notes").
      split; [reflexivity|]. split; [reflexivity|].
      split; [reflexivity | discriminate].
Defined.

(** ** A sweep over marked documents *)

Lemma addTags_loop_marked (tags : list str) (files : list (TFile * Call))
    (w : World) :
  Forall (fun fc => marked w (fst fc)) files ->
  addTags_loop tags files w = w
  \/ addTags_loop tags files w = emit [Notice None] w.
Proof.
  induction 1 as [|[file c] files (A & HA & Hm) _ IH]; cbn [addTags_loop];
    [right; reflexivity|].
  destruct (shouldProcessFile (settings w) file) as [[|]|e];
    [|exact IH|left; reflexivity].
  assert (tag_document true false true tags file c w = w) as ->; [|exact IH].
  unfold tag_document. simpl in HA. rewrite HA, Hm. reflexivity.
Qed.

(** X19 (a sweep over marked documents).  When every document of the sweep
    holds the marker, [addTagsToDocuments] makes no call to the service and
    writes nothing: the vault and the record are the ones from before, and
    the log gains no write, whatever the dialog, the settings and the
    answers that the service would have given. *)
Theorem marked_sweep_noop (dialog : option (str * list str))
    (files : list (TFile * Call)) (w : World) :
  Forall (fun fc => marked w (fst fc)) files ->
  let after := addTagsToDocuments dialog files w in
  vault after = vault w /\ nothing_written w after.
Proof.
  intros H. cbv zeta. unfold addTagsToDocuments.
  destruct (negb (model_selected (settings w))).
  { split; [reflexivity|]. apply nothing_written_emit. repeat constructor. }
  destruct dialog as [[model tags]|];
    [|split; [reflexivity | apply nothing_written_refl]].
  assert (nothing_written w (store_choice model tags w)) as Hs.
  { split; [reflexivity|]. exists [SaveSettings]. auto. }
  destruct (addTags_loop_marked tags files (store_choice model tags w) H)
    as [-> | ->].
  - split; [reflexivity | exact Hs].
  - split; [reflexivity|].
    apply (nothing_written_trans _ _ _ Hs). apply nothing_written_emit.
    repeat constructor.
Qed.

(** A document that was tagged before. *)
Lemma marked_sweep_noop_witness :
  let A := assemble (lit "2024-01-01T00:00:00.000Z") (lit "A note. #ai")
             (lit "#ml I study ml today") in
  let w := sample_world A in
  let files := [(sample_file, quiet_call (summary_reply (lit "Again.")))] in
  let after := addTagsToDocuments (Some (lit "llama2", [lit "ml"])) files w in
  vault after = vault w /\ nothing_written w after.
Proof.
  intros A w files.
  apply (marked_sweep_noop (Some (lit "llama2", [lit "ml"])) files w).
  repeat constructor. exists A. split; reflexivity.
Defined.

(** ** Patterns with a star *)

Lemma match_at_star_greedy (cls : ascii -> bool) (p : pattern)
    (prev : option ascii) (s : str) :
  match_at (StarGreedy cls :: p) prev s
  = match s with
    | a :: s' =>
        if cls a then
          match match_at (StarGreedy cls :: p) (Some a) s' with
          | Some r => Some r
          | None => match_at p prev s
          end
        else match_at p prev s
    | [] => match_at p prev s
    end.
Proof. destruct s; reflexivity. Qed.

(** A greedy star and what follows it match exactly when the text splits
    into a run of the class and a text that the rest matches. *)
Lemma star_greedy_spec (cls : ascii -> bool) (p : pattern) :
  boundary_free p = true ->
  forall s prev,
    (exists r, match_at (StarGreedy cls :: p) prev s = Some r) <->
    exists a b, s = a ++ b /\ Forall (fun c => cls c = true) a
                /\ exists r, match_at p None b = Some r.
Proof.
  intros Hp. induction s as [|x s IH]; intros prev; rewrite match_at_star_greedy.
  - rewrite (match_at_prev p Hp prev None). split.
    + intros [r H]. exists [], []. eauto.
    + intros (a & b & Hab & _ & r & H). symmetry in Hab.
      apply app_eq_nil in Hab. destruct Hab as [-> ->]. eauto.
  - rewrite (match_at_prev p Hp prev None). destruct (cls x) eqn:Hx.
    + destruct (match_at (StarGreedy cls :: p) (Some x) s) as [r0|] eqn:E.
      * split; [|eauto]. intros _.
        destruct (proj1 (IH (Some x)) (ex_intro _ r0 E)) as (a & b & -> & Ha & Hb).
        exists (x :: a), b. auto.
      * split; [intros [r H]; exists [], (x :: s); eauto|].
        intros (a & b & Hab & Ha & r & H).
        destruct a as [|y a].
        -- simpl in Hab. subst b. eauto.
        -- exfalso. simpl in Hab. injection Hab as <- ->.
           inversion Ha; subst.
           destruct (proj2 (IH (Some x))) as [r' Hr']; [|congruence].
           exists a, b. eauto.
    + split; [intros [r H]; exists [], (x :: s); eauto|].
      intros (a & b & Hab & Ha & r & H).
      destruct a as [|y a].
      * simpl in Hab. subst b. eauto.
      * simpl in Hab. injection Hab as <- ->. inversion Ha; subst. congruence.
Qed.

Lemma boundary_free_glob (g : str) (q : pattern) :
  boundary_free q = true -> boundary_free (glob_pattern g ++ q) = true.
Proof.
  intros Hq. induction g as [|c g IH]; [exact Hq|].
  simpl. destruct (ascii_eqb c "*"%char); exact IH.
Qed.

(** The pattern of a glob, followed by [q], matches at the start of a text
    exactly when the text starts with an instance of the glob after which
    [q] matches. *)
Lemma glob_match (q : pattern) :
  boundary_free q = true ->
  forall g s prev,
    (exists r, match_at (glob_pattern g ++ q) prev s = Some r) <->
    exists m rest, s = m ++ rest /\ glob_instance g m
                   /\ exists r, match_at q None rest = Some r.
Proof.
  intros Hq. induction g as [|c g IH]; intros s prev.
  - simpl. rewrite (match_at_prev q Hq prev None). split.
    + intros H. exists [], s. auto.
    + intros (m & rest & -> & -> & H). exact H.
  - cbn [glob_pattern map app glob_instance].
    destruct (ascii_eqb c "*"%char) eqn:Hc.
    + fold (glob_pattern g).
      rewrite (star_greedy_spec _ _ (boundary_free_glob g q Hq)). split.
      * intros (a & b & -> & Ha & Hb). apply IH in Hb.
        destruct Hb as (m & rest & -> & Hm & Hr).
        exists (a ++ m), rest. rewrite <- app_assoc. split; [reflexivity|].
        split; [|exact Hr]. exists a, m. auto.
      * intros (m & rest & -> & (a & b & -> & Ha & Hb) & Hr).
        exists a, (b ++ rest). rewrite <- app_assoc. split; [reflexivity|].
        split; [exact Ha|]. apply IH. exists b, rest. auto.
    + fold (glob_pattern g). unfold chr. rewrite match_at_one.
      destruct s as [|d s].
      * split; [intros [r H]; discriminate|].
        intros (m & rest & Hs & (s' & -> & _) & _). discriminate Hs.
      * destruct (ascii_eqb c d) eqn:E.
        -- apply ascii_eqb_eq in E. subst d. rewrite IH. split.
           ++ intros (m & rest & -> & Hm & Hr). exists (c :: m), rest.
              split; [reflexivity|]. split; [|exact Hr]. exists m. auto.
           ++ intros (m & rest & Hs & (s' & -> & Hm) & Hr).
              injection Hs as ->. exists s', rest. auto.
        -- split; [intros [r H]; discriminate|].
           intros (m & rest & Hs & (s' & -> & _) & _).
           injection Hs as <- _. rewrite ascii_eqb_refl in E. discriminate.
Qed.

Lemma replace_all_app (c : ascii) (by_ a b : str) :
  replace_all c by_ (a ++ b) = replace_all c by_ a ++ replace_all c by_ b.
Proof. unfold replace_all. apply flat_map_app. Qed.

Lemma glob_char_cases (c : ascii) :
  glob_char c = true ->
  c = "*"%char \/ c = "."%char
  \/ (is_syntax_char c = false /\ ascii_eqb c "*"%char = false
      /\ ascii_eqb c "."%char = false).
Proof.
  destruct c as [[] [] [] [] [] [] [] []]; vm_compute; intros H;
    try discriminate H; auto.
Qed.

(** The pattern source that the conversion builds compiles to the pattern
    of the glob. *)
Lemma compile_glob (g : str) :
  forallb glob_char g = true ->
  compile false (replace_all "*"%char (lit ".*")
                   (replace_all "."%char (lit "\.") g))
  = Ok (glob_pattern g).
Proof.
  induction g as [|c g IH]; [reflexivity|]. intros H.
  simpl in H. apply andb_true_iff in H. destruct H as [Hc Hg].
  specialize (IH Hg).
  change (c :: g) with ([c] ++ g). rewrite !replace_all_app.
  set (R := replace_all "*"%char (lit ".*") (replace_all "."%char (lit "\.") g))
    in *.
  destruct (glob_char_cases c Hc) as [-> | [-> | (Hs & H1 & H2)]].
  - change (replace_all "*"%char (lit ".*")
              (replace_all "."%char (lit "\.") ["*"%char]) ++ R)
      with ("."%char :: "*"%char :: R).
    rewrite compile_cons. cbv zeta.
    change (ascii_eqb "."%char "\"%char) with false.
    change (ascii_eqb "."%char "."%char) with true.
    change (ascii_eqb "*"%char "*"%char) with true.
    cbn [andb]. rewrite IH. reflexivity.
  - change (replace_all "*"%char (lit ".*")
              (replace_all "."%char (lit "\.") ["."%char]) ++ R)
      with ("\"%char :: "."%char :: R).
    rewrite compile_cons. cbv zeta.
    change (ascii_eqb "\"%char "\"%char) with true.
    change (ascii_eqb "."%char "b"%char) with false.
    change (ascii_eqb "."%char "."%char) with true.
    cbn [andb]. rewrite IH. reflexivity.
  - assert (replace_all "*"%char (lit ".*")
              (replace_all "."%char (lit "\.") [c]) = [c]) as ->.
    { unfold replace_all. simpl. rewrite H2. simpl. rewrite H1. reflexivity. }
    rewrite (compile_plain false [c]) by (simpl; rewrite Hs; reflexivity).
    rewrite IH. cbn [bind map app glob_pattern]. rewrite H1. reflexivity.
Qed.

Lemma glob_char_lower (c : ascii) : glob_char (lower_char c) = glob_char c.
Proof. destruct c as [[] [] [] [] [] [] [] []]; reflexivity. Qed.

Lemma glob_lower (g : str) :
  forallb glob_char (toLowerCase g) = forallb glob_char g.
Proof.
  induction g as [|c g IH]; [reflexivity|].
  simpl. rewrite glob_char_lower, IH. reflexivity.
Qed.

Lemma eol_match (prev : option ascii) (s : str) :
  (exists r, match_at [Eol] prev s = Some r) <-> s = [].
Proof.
  destruct s; simpl; split; try congruence; eauto. intros [r H]. discriminate.
Qed.

Lemma slash_match (prev : option ascii) (s : str) :
  (exists r, match_at [chr "/"%char] prev s = Some r) <->
  exists post, s = "/"%char :: post.
Proof.
  unfold chr. rewrite match_at_one. destruct s as [|d s].
  - split; [intros [r H]; discriminate | intros [post H]; discriminate].
  - destruct (ascii_eqb "/"%char d) eqn:E.
    + apply ascii_eqb_eq in E. subst d. split; eauto.
    + split; [intros [r H]; discriminate|]. intros [post H].
      injection H as -> _. rewrite ascii_eqb_refl in E. discriminate E.
Qed.

Lemma test_anchored_spec (p : pattern) (s : str) :
  test_anchored p s = true <-> exists r, match_at p None s = Some r.
Proof.
  unfold test_anchored. destruct (match_at p None s); split; eauto.
  - discriminate.
  - intros [r H]. discriminate.
Qed.

Lemma test_after_slash (p : pattern) (s : str) :
  test (chr "/"%char :: p) s = true <->
  exists pre post r, s = pre ++ "/"%char :: post
                     /\ match_at p (Some "/"%char) post = Some r.
Proof.
  rewrite test_spec. split.
  - intros (pre & post & r & -> & H). unfold chr in H. rewrite match_at_one in H.
    destruct post as [|d post]; [discriminate|].
    destruct (ascii_eqb "/"%char d) eqn:E; [|discriminate].
    apply ascii_eqb_eq in E. subst d. eauto.
  - intros (pre & post & r & -> & H). exists pre, ("/"%char :: post), r.
    split; [reflexivity|]. unfold chr. rewrite match_at_one. exact H.
Qed.

(** For a pattern with a star in it, made of stars, dots and characters
    that are no syntax characters, the loop turn excludes the file exactly
    when its lowercased path, or the part of it after some slash, or a part
    of it between a slash and a later slash, is an instance of the
    lowercased pattern. *)
Lemma glob_excludes_spec (pattern : str) (file : TFile) :
  includes (lit "*") pattern = true ->
  forallb glob_char pattern = true ->
  let g := toLowerCase pattern in
  let lp := toLowerCase (path file) in
  exists b,
    pattern_excludes pattern file = Ok b
    /\ (b = true <->
        glob_instance g lp
        \/ (exists pre m, lp = pre ++ "/"%char :: m /\ glob_instance g m)
        \/ (exists pre m post, lp = pre ++ "/"%char :: m ++ "/"%char :: post
                               /\ glob_instance g m)).
Proof.
  intros Hstar Hg g lp. unfold pattern_excludes. rewrite Hstar.
  unfold glob_test, regexPattern. fold g. fold lp.
  rewrite compile_glob by (unfold g; rewrite glob_lower; exact Hg).
  cbn [bind]. eexists. split; [reflexivity|].
  rewrite !orb_true_iff, test_anchored_spec, !test_after_slash.
  assert (forall prev s,
            (exists r, match_at (glob_pattern g ++ [Eol]) prev s = Some r)
            <-> glob_instance g s) as H1.
  { intros prev s. rewrite (glob_match [Eol] eq_refl). split.
    - intros (m & rest & -> & Hm & Hr). apply eol_match in Hr. subst rest.
      rewrite app_nil_r. exact Hm.
    - intros Hm. exists s, []. rewrite app_nil_r. split; [reflexivity|].
      split; [exact Hm|]. apply eol_match. reflexivity. }
  assert (forall prev s,
            (exists r, match_at (glob_pattern g ++ [chr "/"%char]) prev s = Some r)
            <-> exists m post, s = m ++ "/"%char :: post /\ glob_instance g m) as H2.
  { intros prev s. rewrite (glob_match [chr "/"%char] eq_refl). split.
    - intros (m & rest & -> & Hm & Hr). apply slash_match in Hr.
      destruct Hr as [post ->]. eauto.
    - intros (m & post & -> & Hm). exists m, ("/"%char :: post).
      split; [reflexivity|]. split; [exact Hm|]. apply slash_match. eauto. }
  split.
  - intros [[H | (pre & post & r & Hs & H)] | (pre & post & r & Hs & H)].
    + left. apply (H1 None). exact H.
    + right. left. exists pre, post. split; [exact Hs|].
      apply (H1 (Some "/"%char)). eauto.
    + right. right. destruct (proj1 (H2 (Some "/"%char) post) (ex_intro _ r H))
        as (m & post' & -> & Hm).
      exists pre, m, post'. auto.
  - intros [H | [(pre & m & Hs & Hm) | (pre & m & post & Hs & Hm)]].
    + left. left. apply (H1 None). exact H.
    + left. right. destruct (proj2 (H1 (Some "/"%char) m) Hm) as [r Hr].
      exists pre, m, r. auto.
    + right. destruct (proj2 (H2 (Some "/"%char) (m ++ "/"%char :: post)))
        as [r Hr]; [eauto|].
      exists pre, (m ++ "/"%char :: post), r. auto.
Qed.

(** X13 (patterns with a star).  For a pattern with a star in it, made of
    stars, dots and characters that are no syntax characters, the loop turn
    of the pattern does not fail, and it excludes the file exactly when the
    lowercased path, or the part of it after some slash, or a part of it
    between a slash and a later slash, is an instance of the lowercased
    pattern, where a star stands for any run of characters (slashes too,
    line terminators not) and a dot for a dot.  With such a pattern in the
    settings a file that it excludes is not eligible: [shouldProcessFile]
    answers false whenever it returns, and does return false when the
    pattern is the first of the list; a file without record entry that the
    only pattern of the settings does not exclude is eligible. *)
Theorem glob_exclusion (pattern : str) (file : TFile) :
  includes (lit "*") pattern = true ->
  forallb glob_char pattern = true ->
  let g := toLowerCase pattern in
  let lp := toLowerCase (path file) in
  let excluded_by_glob :=
    glob_instance g lp
    \/ (exists pre m, lp = pre ++ "/"%char :: m /\ glob_instance g m)
    \/ (exists pre m post, lp = pre ++ "/"%char :: m ++ "/"%char :: post
                           /\ glob_instance g m) in
  (exists b, pattern_excludes pattern file = Ok b
             /\ (b = true <-> excluded_by_glob))
  /\ (excluded_by_glob ->
      forall st, In pattern (excludePatterns st) ->
        (forall b, shouldProcessFile st file = Ok b -> b = false)
        /\ (forall rest, excludePatterns st = pattern :: rest ->
              shouldProcessFile st file = Ok false))
  /\ (~ excluded_by_glob ->
      forall st, excludePatterns st = [pattern] ->
        taggedFiles st !! path file = None ->
        shouldProcessFile st file = Ok true).
Proof.
  intros Hstar Hg g lp ex.
  destruct (glob_excludes_spec pattern file Hstar Hg) as (b & Hb & Hiff).
  fold g lp ex in Hiff. split; [eauto|]. split.
  - intros Hex st Hin. apply Hiff in Hex. subst b. split.
    + exact (shouldProcessFile_excluded st file pattern Hin Hb).
    + intros rest Hl. exact (shouldProcessFile_first st file pattern rest Hl Hb).
  - intros Hno st Hl Ht. apply (shouldProcessFile_only st file pattern Hl); [|exact Ht].
    destruct b; [|exact Hb]. exfalso. apply Hno, Hiff. reflexivity.
Qed.

(** A pattern with a dot and a star, and a document that it excludes. *)
Lemma glob_exclusion_witness :
  let st := {| selectedModel := None; defaultTags := []; autoAddTags := false;
               taggedFiles := ∅; excludePatterns := [lit "*.Draft.md"] |} in
  pattern_excludes (lit "*.Draft.md") (file_at "notes/plan.draft.md" "plan.draft")
  = Ok true
  /\ shouldProcessFile st (file_at "notes/plan.draft.md" "plan.draft") = Ok false.
Proof.
  intros st.
  destruct (glob_exclusion (lit "*.Draft.md")
              (file_at "notes/plan.draft.md" "plan.draft"))
    as ((b & Hb & Hiff) & H & _); [reflexivity | reflexivity |].
  assert (b = true) as -> by (vm_compute in Hb; congruence).
  split; [exact Hb|].
  destruct (H (proj1 Hiff eq_refl) st) as [_ Hf]; [left; reflexivity|].
  apply (Hf []). reflexivity.
Defined.

(** ** Lists typed by the user *)

Lemma split_cons (sep c : ascii) (s : str) :
  ascii_eqb c sep = false ->
  exists piece pieces, split sep s = piece :: pieces
                       /\ split sep (c :: s) = (c :: piece) :: pieces.
Proof.
  intros H. cbn [split]. rewrite H.
  assert (split sep s <> []) as N.
  { destruct s as [|d s]; cbn [split]; [discriminate|].
    destruct (ascii_eqb d sep); [discriminate|].
    destruct (split sep s); discriminate. }
  destruct (split sep s) as [|piece pieces]; [congruence|]. eauto.
Qed.

Lemma split_app (sep : ascii) (a s : str) :
  ~ In sep a ->
  exists piece pieces, split sep s = piece :: pieces
                       /\ split sep (a ++ s) = (a ++ piece) :: pieces.
Proof.
  induction a as [|c a IH]; intros Ha.
  - simpl. destruct s as [|d s].
    + exists [], []. auto.
    + destruct (ascii_eqb d sep) eqn:E.
      * cbn [split]. rewrite E. eauto.
      * destruct (split_cons sep d s E) as (p & ps & _ & ->). eauto.
  - assert (ascii_eqb c sep = false) as E.
    { apply ascii_eqb_neq. intros ->. apply Ha. left. reflexivity. }
    destruct IH as (piece & pieces & Hs & Ha').
    { intros H. apply Ha. right. exact H. }
    exists piece, pieces. split; [exact Hs|].
    change ((c :: a) ++ s) with (c :: (a ++ s)).
    destruct (split_cons sep c (a ++ s) E) as (p & ps & Hp & ->).
    rewrite Ha' in Hp. injection Hp as <- <-. reflexivity.
Qed.

Lemma split_pieces (sep : ascii) (s : str) :
  Forall (fun piece => ~ In sep piece) (split sep s).
Proof.
  induction s as [|c s IH]; cbn [split].
  - constructor; [intros []|constructor].
  - destruct (ascii_eqb c sep) eqn:E.
    + constructor; [intros []|exact IH].
    + apply ascii_eqb_neq in E.
      destruct (split sep s) as [|piece pieces].
      * constructor; [|constructor]. intros [H|[]]. congruence.
      * inversion IH as [|? ? Hp Hps]; subst. constructor; [|exact Hps].
        intros [H|H]; [congruence | exact (Hp H)].
Qed.

(** The pieces of a joined list, when no entry holds the separator. *)
Lemma split_join (sep : ascii) (ws : str) (l : list str) :
  ~ In sep ws -> Forall (fun t => ~ In sep t) l ->
  split sep (join (sep :: ws) l)
  = match l with
    | [] => [[]]
    | x :: l' => x :: map (app ws) l'
    end.
Proof.
  intros Hws Hl. induction Hl as [|x l Hx Hl IH]; [reflexivity|].
  destruct l as [|y l].
  - simpl. destruct (split_app sep x [] Hx) as (p & ps & Hp & E).
    simpl in Hp. injection Hp as <- <-. rewrite app_nil_r in E. exact E.
  - change (join (sep :: ws) (x :: y :: l))
      with (x ++ sep :: (ws ++ join (sep :: ws) (y :: l))).
    destruct (split_app sep x (sep :: (ws ++ join (sep :: ws) (y :: l))) Hx)
      as (p & ps & Hp & ->).
    cbn [split] in Hp. rewrite ascii_eqb_refl in Hp. injection Hp as <- <-.
    rewrite app_nil_r. f_equal.
    change (split sep (ws ++ join (sep :: ws) (y :: l)) = map (app ws) (y :: l)).
    destruct (split_app sep ws (join (sep :: ws) (y :: l)) Hws)
      as (p & ps & Hp & ->).
    rewrite IH in Hp. injection Hp as <- <-. reflexivity.
Qed.

Lemma trimStart_idem (s : str) : trimStart (trimStart s) = trimStart s.
Proof. rewrite !trimStart_drop_while. apply drop_while_idem. Qed.

Lemma trimStart_head (s : str) :
  match trimStart s with
  | c :: _ => is_space c = false
  | [] => True
  end.
Proof.
  induction s as [|c s IH]; simpl; [exact I|].
  destruct (is_space c) eqn:E; [exact IH | exact E].
Qed.

Lemma trimStart_fix (s : str) :
  match s with c :: _ => is_space c = false | [] => True end ->
  trimStart s = s.
Proof. destruct s as [|c s]; simpl; [reflexivity|]. intros ->. reflexivity. Qed.

Lemma trim_idem (s : str) : trim (trim s) = trim s.
Proof.
  unfold trim. set (u := trimStart s).
  assert (trimStart (trimEnd u) = trimEnd u) as E.
  { apply trimStart_fix. destruct (trimEnd_prefix u) as [w Hw].
    pose proof (trimStart_head s) as Hh. fold u in Hh.
    destruct (trimEnd u) as [|c t]; [exact I|].
    rewrite Hw in Hh. exact Hh. }
  rewrite E. unfold trimEnd. rewrite rev_involutive, trimStart_idem.
  reflexivity.
Qed.

Lemma trim_spaces_app (ws t : str) :
  Forall (fun c => is_space c = true) ws -> trim (ws ++ t) = trim t.
Proof.
  intros H. unfold trim. rewrite !trimStart_drop_while, drop_while_app.
  apply drop_while_nil in H. rewrite H. reflexivity.
Qed.

Lemma truthy_true (s : str) : truthy s = true <-> s <> [].
Proof. destruct s; simpl; split; congruence. Qed.

Lemma occurs_in_In (c : ascii) (p s : str) : occurs_in p s -> In c p -> In c s.
Proof.
  intros (pre & post & ->) H. apply in_or_app. right.
  apply in_or_app. left. exact H.
Qed.

Lemma parse_list_clean (sep : ascii) (value : str) :
  Forall (clean_entry sep) (parse_list sep value).
Proof.
  unfold parse_list. apply List.Forall_forall. intros t Ht.
  apply filter_In in Ht. destruct Ht as [Ht Hne].
  apply in_map_iff in Ht. destruct Ht as (piece & <- & Hp).
  split; [apply truthy_true; exact Hne|]. split; [apply trim_idem|].
  intros H. pose proof (split_pieces sep value) as Hs.
  rewrite List.Forall_forall in Hs. apply (Hs piece Hp).
  exact (occurs_in_In sep _ _ (trim_occurs piece) H).
Qed.

Lemma filter_clean (sep : ascii) (l : list str) :
  Forall (clean_entry sep) l -> List.filter truthy l = l.
Proof.
  induction 1 as [|t l (Hne & _ & _) _ IH]; [reflexivity|].
  simpl. apply truthy_true in Hne. rewrite Hne, IH. reflexivity.
Qed.

(** Joining clean entries and parsing the text gives the entries back. *)
Lemma parse_list_join (sep : ascii) (ws : str) (l : list str) :
  ~ In sep ws -> Forall (fun c => is_space c = true) ws ->
  Forall (clean_entry sep) l ->
  parse_list sep (join (sep :: ws) l) = l.
Proof.
  intros Hsep Hws Hl. unfold parse_list. rewrite split_join.
  - destruct l as [|x l]; [reflexivity|].
    assert (map trim (x :: map (app ws) (l)) = x :: l) as ->.
    { inversion Hl as [|? ? (_ & Hx & _) Hl']; subst. simpl. rewrite Hx. f_equal.
      clear Hl Hx. induction Hl' as [|y l (_ & Hy & _) _ IH]; [reflexivity|].
      simpl. rewrite (trim_spaces_app ws y Hws), Hy, IH. reflexivity. }
    apply (filter_clean sep). exact Hl.
  - exact Hsep.
  - eapply List.Forall_impl; [|exact Hl]. intros t (_ & _ & H). exact H.
Qed.

(** X15 (parsed entries).  Whatever the text of the field, every tag that
    the dialog, the view and the settings tab read from it is not empty, has
    no whitespace around it and holds no comma; every exclusion pattern read
    by the settings tab is not empty, has no whitespace around it and holds
    no line break. *)
Theorem parsed_entries_clean (value : str) :
  Forall (clean_entry ","%char) (parse_tags value)
  /\ Forall (clean_entry LF) (parse_patterns value).
Proof. split; apply parse_list_clean. Qed.

(** X16 (display and read again).  The settings tab shows the stored tags
    joined by a comma and a space, and the stored patterns joined by a line
    break, and reads the text again when it changes: a list that was read
    from a field, shown and read again is the same list. *)
Theorem parse_join_roundtrip (value : str) :
  parse_tags (join (lit ", ") (parse_tags value)) = parse_tags value
  /\ parse_patterns (join [LF] (parse_patterns value)) = parse_patterns value.
Proof.
  split.
  - apply (parse_list_join ","%char (lit " ")).
    + intros [H|[]]. discriminate H.
    + repeat constructor.
    + apply parse_list_clean.
  - apply (parse_list_join LF []).
    + intros [].
    + constructor.
    + apply parse_list_clean.
Qed.

(** X17 (the tags of the view).  A click on a tagging button of the view
    asks for a model when none is chosen, asks for a tag when a model is
    chosen and the field is blank, and starts the tagging otherwise.  When
    it asks, nothing is stored: the state only gains the notice.  When it
    starts the tagging, the tags of the trimmed field are stored, and the
    settings saved, exactly when the trimmed text differs from the stored
    tags joined by a comma and a space; the vault and the record are left
    as they are.  When the stored tags were clean entries, the stored tags
    are in both cases the tags of the trimmed field, and they are clean
    entries again. *)
Theorem tag_button_stores (modelValue fieldValue : str) (w : World) :
  let w' := fst (tag_button_click modelValue fieldValue w) in
  let end_of_click := snd (tag_button_click modelValue fieldValue w) in
  let stored := join (lit ", ") (defaultTags (settings w)) in
  (end_of_click = AsksForModel <-> modelValue = [])
  /\ (end_of_click = AsksForTags <-> modelValue <> [] /\ trim fieldValue = [])
  /\ (end_of_click = StartsTagging <-> modelValue <> [] /\ trim fieldValue <> [])
  /\ (end_of_click <> StartsTagging -> w' = emit [Notice None] w)
  /\ (end_of_click = StartsTagging ->
      (trim fieldValue = stored -> w' = w)
      /\ (trim fieldValue <> stored ->
          w' = emit [SaveSettings] (set_defaultTags (parse_tags (trim fieldValue)) w))
      /\ vault w' = vault w
      /\ taggedFiles (settings w') = taggedFiles (settings w)
      /\ (Forall (clean_entry ","%char) (defaultTags (settings w)) ->
          defaultTags (settings w') = parse_tags (trim fieldValue)
          /\ Forall (clean_entry ","%char) (defaultTags (settings w')))).
Proof.
  cbv zeta. unfold tag_button_click.
  destruct modelValue as [|m modelValue]; cbn [truthy negb fst snd].
  { split; [split; reflexivity|].
    split; [split; [discriminate | intros [H _]; congruence]|].
    split; [split; [discriminate | intros [H _]; congruence]|].
    split; [reflexivity | discriminate]. }
  destruct (trim fieldValue) as [|t0 tagInput] eqn:Ht; cbn [truthy negb fst snd].
  { split; [split; discriminate|].
    split; [split; [intros _; split; [discriminate | reflexivity] | reflexivity]|].
    split; [split; [discriminate | intros [_ H]; congruence]|].
    split; [reflexivity | discriminate]. }
  split; [split; discriminate|].
  split; [split; [discriminate | intros [_ H]; discriminate H]|].
  split; [split; [intros _; split; discriminate | reflexivity]|].
  split; [congruence|]. intros _.
  destruct (str_eqb (t0 :: tagInput) (join (lit ", ") (defaultTags (settings w))))
    eqn:E; cbn [negb].
  - apply str_eqb_eq in E. rewrite E.
    split; [reflexivity|]. split; [congruence|].
    split; [reflexivity|]. split; [reflexivity|]. intros Hwf.
    assert (parse_tags (join (lit ", ") (defaultTags (settings w)))
            = defaultTags (settings w)) as R.
    { apply (parse_list_join ","%char (lit " ")); [|repeat constructor|exact Hwf].
      intros [H|[]]. discriminate H. }
    rewrite R. auto.
  - apply str_eqb_neq in E.
    split; [congruence|]. split; [reflexivity|].
    split; [reflexivity|]. split; [reflexivity|]. intros _.
    split; [reflexivity | apply parse_list_clean].
Qed.

(** A field with one more tag than the stored list: the tags are stored. *)
Lemma tag_button_stores_witness :
  let w := sample_world (lit "I study ml today") in
  let w' := fst (tag_button_click (lit "llama2") (lit " ml, ai ") w) in
  snd (tag_button_click (lit "llama2") (lit " ml, ai ") w) = StartsTagging
  /\ defaultTags (settings w') = [lit "ml"; lit "ai"]
  /\ log w' = [SaveSettings].
Proof.
  intros w.
  destruct (tag_button_stores (lit "llama2") (lit " ml, ai ") w)
    as (_ & _ & H1 & _ & H3).
  split; [apply H1; split; discriminate|].
  destruct H3 as (_ & Hs & _ & _ & Hd); [apply H1; split; discriminate|].
  split.
  - destruct Hd as [-> _]; [|reflexivity].
    repeat constructor; [discriminate | intros [H|[H|[]]]; discriminate H].
  - rewrite Hs; [reflexivity | discriminate].
Defined.

(** ** The switch of automatic tagging *)

Lemma saveSettings_flag (b : bool) (s : Switch) :
  autoTaggingEnabled (saveSettings b s) = b.
Proof.
  unfold saveSettings, enableAutoTagging, disableAutoTagging.
  destruct b; [|reflexivity]. destruct (autoTaggingEnabled s) eqn:E; auto.
Qed.

Lemma saveSettings_listeners (b : bool) (s : Switch) :
  listeners (saveSettings b s)
  = (listeners s + if negb (autoTaggingEnabled s) && b then 1 else 0)%nat.
Proof.
  unfold saveSettings, enableAutoTagging, disableAutoTagging.
  destruct b, (autoTaggingEnabled s); simpl; lia.
Qed.

Lemma last_nonempty {A} (l : list A) (a d d' : A) :
  List.last (a :: l) d = List.last (a :: l) d'.
Proof.
  revert a. induction l as [|b l IH]; intros a; [reflexivity|].
  change (List.last (b :: l) d = List.last (b :: l) d'). apply IH.
Qed.

(** X18 (the listeners add up).  After any sequence of calls of
    [saveSettings], the switch is the last value of the setting, and the
    number of pairs of handlers given to the vault is the number from
    before plus the number of times the setting went from off to on: a
    handler is never taken back, so an event of a markdown file runs that
    many handlers while the switch is on, and none while it is off. *)
Theorem listeners_accumulate (values : list bool) (s : Switch) :
  let s' := fold_left (fun s b => saveSettings b s) values s in
  autoTaggingEnabled s' = List.last values (autoTaggingEnabled s)
  /\ listeners s' = (listeners s + switched_on (autoTaggingEnabled s) values)%nat
  /\ forall file,
       handlers_run s' file
       = if List.last values (autoTaggingEnabled s)
            && str_eqb (extension file) (lit "md")
         then (listeners s + switched_on (autoTaggingEnabled s) values)%nat
         else 0%nat.
Proof.
  cbv zeta.
  assert (autoTaggingEnabled (fold_left (fun s b => saveSettings b s) values s)
          = List.last values (autoTaggingEnabled s)
          /\ listeners (fold_left (fun s b => saveSettings b s) values s)
             = (listeners s + switched_on (autoTaggingEnabled s) values)%nat)
    as [H1 H2].
  { revert s. induction values as [|b values IH]; intros s.
    - simpl. split; [reflexivity | lia].
    - cbn [fold_left switched_on]. destruct (IH (saveSettings b s)) as [F L].
      rewrite F, L, saveSettings_flag, saveSettings_listeners. split; [|lia].
      destruct values as [|b0 values]; [reflexivity|].
      change (List.last (b :: b0 :: values) (autoTaggingEnabled s))
        with (List.last (b0 :: values) (autoTaggingEnabled s)).
      apply last_nonempty. }
  split; [exact H1|]. split; [exact H2|].
  intros file. unfold handlers_run. rewrite H1, H2. reflexivity.
Qed.
